(** * ginipre: the SAT preprocessor of Preprocessor.go

    A shallow embedding of [Preprocessor/Preprocessor.go] and the
    properties of its passes: unit propagation ([Simplify2]),
    self-subsuming resolution ([SelfSub]) and subsumption elimination
    ([Subsumption]), run in that order by [Preprocess]. *)

From Stdlib Require Import ZArith Lia Bool.
From Stdlib Require String Ascii DecimalString.
From stdpp Require Import base tactics option list.

Local Open Scope Z_scope.
Local Open Scope nat_scope.

(** ** Results of Go code

    A Go function either returns, or stops with a run-time panic (an
    index out of range).  Loops whose termination depends on the clause
    operations are run with fuel. *)

Inductive res (A : Type) : Type :=
| Ok (a : A)
| Panic
| OutOfFuel.
Arguments Ok {A} a.
Arguments Panic {A}.
Arguments OutOfFuel {A}.

#[global] Instance res_ret : MRet res := λ A a, Ok a.
#[global] Instance res_bind : MBind res := λ A B f m,
  match m with
  | Ok a => f a
  | Panic => Panic
  | OutOfFuel => OutOfFuel
  end.

(** [a[i]] of Go: a panic when [i] is not below [len(a)]. *)
Definition idx {A : Type} (l : list A) (i : nat) : res A :=
  match l !! i with
  | Some x => Ok x
  | None => Panic
  end.

(** ** Literals and clauses

    The file uses [Var], [Lit] and [Clause] without declaring them; the
    occurrence lists are indexed by literal in an array of [NbVars*2]
    entries. *)

(** Modelled from the spec: the literal representation is missing from
    the repository's source; a literal is "a variable plus a polarity,
    with a negation operation and a total index suitable for direct
    array indexing".  The positive literal of variable [v] has index
    [2v], the negated one [2v+1]. *)
Abbreviation Var := nat (only parsing).
Abbreviation Lit := nat (only parsing).

Definition Var_Lit (v : Var) : Lit := 2 * v.
Definition Lit_Var (l : Lit) : Var := l / 2.
Definition IsPositive (l : Lit) : bool := Nat.even l.
Definition Negation (l : Lit) : Lit := Nat.lxor l 1.

(** A clause object: its literals, [Len] being the length of the list.
    [Get j] is [idx c j], [Set j l] is [<[j:=l]> c], [Shrink n] is
    [take n c] and [First] is [idx c 0]. *)
Abbreviation Clause := (list nat) (only parsing).

(** The methods of [Clause] that the passes call and that the
    repository's source does not contain. [Simplify] changes its
    receiver, so it returns the new contents with its answer. *)
Class ClauseOps : Type := {
  SelfSubsumes : Clause → Clause → bool;
  Generate : Clause → Clause → Var → Clause;
  Simplify : Clause → bool * Clause;
  Subsumes : Clause → Clause → bool;
}.

(** ** The problem *)

Inductive Status : Type := Undetermined | Sat | Unsat.

#[global] Instance Status_eq_dec : EqDecision Status.
Proof. solve_decision. Defined.

(** The lines written by [log.Printf] that the properties refer to, with
    the values in scope where they are written. *)
Inductive Event : Type :=
| EvExamining (lit : Lit)
| EvPair (lit : Lit) (idx1 idx2 : nat)
| EvSubsumes (small big : nat) (can : bool).

(** A clause pointer ([*Clause]) is an address in [store]. *)
Abbreviation ptr := nat (only parsing).

(** The fields of the Go struct, then [store], the memory holding the
    clause objects the pointers of [Clauses] refer to, and [trace], the
    log written so far. [Model] holds 0 (unbound), 1 (true) or -1
    (false) for each variable. *)
Record Problem : Type := mkProblem {
  NbVars : nat;
  Clauses : list ptr;
  status : Status;
  Units : list Lit;
  Model : list Z;
  minLits : list Lit;
  minWeights : list Z;
  store : list Clause;
  trace : list Event;
}.

Definition setClauses (cl : list ptr) (pb : Problem) : Problem :=
  mkProblem (NbVars pb) cl (status pb) (Units pb) (Model pb)
            (minLits pb) (minWeights pb) (store pb) (trace pb).
Definition setStatus (s : Status) (pb : Problem) : Problem :=
  mkProblem (NbVars pb) (Clauses pb) s (Units pb) (Model pb)
            (minLits pb) (minWeights pb) (store pb) (trace pb).
Definition setUnits (u : list Lit) (pb : Problem) : Problem :=
  mkProblem (NbVars pb) (Clauses pb) (status pb) u (Model pb)
            (minLits pb) (minWeights pb) (store pb) (trace pb).
Definition setModel (m : list Z) (pb : Problem) : Problem :=
  mkProblem (NbVars pb) (Clauses pb) (status pb) (Units pb) m
            (minLits pb) (minWeights pb) (store pb) (trace pb).
Definition setStore (h : list Clause) (pb : Problem) : Problem :=
  mkProblem (NbVars pb) (Clauses pb) (status pb) (Units pb) (Model pb)
            (minLits pb) (minWeights pb) h (trace pb).
Definition setTrace (t : list Event) (pb : Problem) : Problem :=
  mkProblem (NbVars pb) (Clauses pb) (status pb) (Units pb) (Model pb)
            (minLits pb) (minWeights pb) (store pb) t.

(** [log.Printf] *)
Definition logEvent (e : Event) (pb : Problem) : Problem :=
  setTrace (trace pb ++ [e]) pb.

(** [pb.Model[v] = b], a panic when [v] is out of range. *)
Definition bind (v : Var) (b : Z) (pb : Problem) : res Problem :=
  if decide (v < length (Model pb))
  then Ok (setModel (<[v := b]> (Model pb)) pb)
  else Panic.

(** ** updateStatus and addUnit (lines 39-61) *)

Definition updateStatus (nbClauses : nat) (pb : Problem) : res Problem :=
  if decide (nbClauses ≤ length (Clauses pb)) then
    let pb := setClauses (take nbClauses (Clauses pb)) pb in
    if decide (status pb = Undetermined ∧ nbClauses = 0)
    then Ok (setStatus Sat pb)
    else Ok pb
  else Panic.

Definition addUnit (lit : Lit) (pb : Problem) : res Problem :=
  m ← idx (Model pb) (Lit_Var lit);
  if IsPositive lit then
    if (m =? -1)%Z then Ok (setStatus Unsat pb)
    else
      pb ← bind (Lit_Var lit) 1%Z pb;
      Ok (setUnits (Units pb ++ [lit]) pb)
  else
    if (m =? 1)%Z then Ok (setStatus Unsat pb)
    else
      pb ← bind (Lit_Var lit) (-1)%Z pb;
      Ok (setUnits (Units pb ++ [lit]) pb).

(** ** Simplify2 (lines 64-110) *)

(** The loop over the literals of one clause (lines 75-86). [k] is
    [nbLits - j], which every turn of the loop lowers by one; the loop
    is left when it is 0, that is when [j < nbLits] fails. The result is
    [clauseSat], [nbLits] and the contents of the clause. *)
Fixpoint scanLits (model : list Z) (k : nat) (c : Clause) (j nbLits : nat)
  : res (bool * nat * Clause) :=
  match k with
  | 0 => Ok (false, nbLits, c)
  | S k' =>
    lit ← idx c j;
    m ← idx model (Lit_Var lit);
    if (m =? 0)%Z then scanLits model k' c (S j) nbLits
    else if eqb (m =? 1)%Z (IsPositive lit) then Ok (true, nbLits, c)
    else
      let nbLits := nbLits - 1 in
      last ← idx c nbLits;
      if decide (j < length c)
      then scanLits model k' (<[j := last]> c) j nbLits
      else Panic
  end.

(** How one turn of the loop over the clauses ends: by a [return] of
    [Simplify2], or with new values of [i], [nbClauses] and [restart]. *)
Inductive clause_end : Type :=
| ClauseReturn (pb : Problem)
| ClauseNext (pb : Problem) (i nbClauses : nat) (restart : bool).

(** How one scan of the clause list ends: by a [return] of [Simplify2]
    or at the end of the list. *)
Inductive scan_end : Type :=
| ScanReturn (pb : Problem)
| ScanDone (pb : Problem) (nbClauses : nat) (restart : bool).

(** [pb.Clauses[i] = pb.Clauses[nbClauses]] *)
Definition moveClause (i nbClauses : nat) (pb : Problem) : res Problem :=
  q ← idx (Clauses pb) nbClauses;
  if decide (i < length (Clauses pb))
  then Ok (setClauses (<[i := q]> (Clauses pb)) pb)
  else Panic.

(** The body of the loop over the clauses (lines 71-106). The clause
    object is written back after the loop over its literals, which
    reads no other clause. *)
Definition scanClause (pb : Problem) (i nbClauses : nat) (restart : bool)
  : res clause_end :=
  p ← idx (Clauses pb) i;
  c ← idx (store pb) p;
  '(clauseSat, nbLits, c') ← scanLits (Model pb) (length c) c 0 (length c);
  let pb := setStore (<[p := c']> (store pb)) pb in
  if clauseSat : bool then
    let nbClauses := nbClauses - 1 in
    pb ← moveClause i nbClauses pb;
    Ok (ClauseNext pb i nbClauses restart)
  else if decide (nbLits = 0) then Ok (ClauseReturn (setStatus Unsat pb))
  else if decide (nbLits = 1) then
    first ← idx c' 0;
    pb ← addUnit first pb;
    if decide (status pb = Unsat) then Ok (ClauseReturn pb)
    else
      let nbClauses := nbClauses - 1 in
      pb ← moveClause i nbClauses pb;
      Ok (ClauseNext pb i nbClauses true)
  else
    let pb :=
      if decide (length c' ≠ nbLits)
      then setStore (<[p := take nbLits c']> (store pb)) pb
      else pb in
    Ok (ClauseNext pb (S i) nbClauses restart).

(** The loop over the clauses (lines 70-107); [k] is [nbClauses - i],
    which every turn lowers by one. *)
Fixpoint scanClauses (k : nat) (pb : Problem) (i nbClauses : nat)
  (restart : bool) : res scan_end :=
  match k with
  | 0 => Ok (ScanDone pb nbClauses restart)
  | S k' =>
    r ← scanClause pb i nbClauses restart;
    match r with
    | ClauseReturn pb => Ok (ScanReturn pb)
    | ClauseNext pb i nbClauses restart =>
      scanClauses k' pb i nbClauses restart
    end
  end.

(** The loop [for restart] (lines 67-108), then [updateStatus]. *)
Fixpoint restartLoop (fuel : nat) (pb : Problem) (nbClauses : nat)
  : res Problem :=
  match fuel with
  | 0 => OutOfFuel
  | S fuel' =>
    r ← scanClauses nbClauses pb 0 nbClauses false;
    match r with
    | ScanReturn pb => Ok pb
    | ScanDone pb nbClauses true => restartLoop fuel' pb nbClauses
    | ScanDone pb nbClauses false => updateStatus nbClauses pb
    end
  end.

(** Every restart follows the removal of a clause, so one scan more than
    there are clauses is enough (see [Simplify2_total]). *)
Definition Simplify2 (pb : Problem) : res Problem :=
  restartLoop (S (length (Clauses pb))) pb (length (Clauses pb)).

(** ** The occurrence lists (lines 122-127, and again after each change) *)

(** [occurs[l] = append(occurs[l], i)] *)
Definition addOccurrence (i : nat) (occurs : list (list nat)) (l : Lit)
  : res (list (list nat)) :=
  o ← idx occurs l;
  Ok (<[l := o ++ [i]]> occurs).

Fixpoint occursLits (i : nat) (c : Clause) (occurs : list (list nat))
  : res (list (list nat)) :=
  match c with
  | [] => Ok occurs
  | l :: c' => occurs ← addOccurrence i occurs l; occursLits i c' occurs
  end.

Fixpoint occursFrom (h : list Clause) (i : nat) (cl : list ptr)
  (occurs : list (list nat)) : res (list (list nat)) :=
  match cl with
  | [] => Ok occurs
  | p :: cl' =>
    c ← idx h p;
    occurs ← occursLits i c occurs;
    occursFrom h (S i) cl' occurs
  end.

Definition buildOccurs (pb : Problem) : res (list (list nat)) :=
  occursFrom (store pb) 0 (Clauses pb) (replicate (NbVars pb * 2) []).

(** ** SelfSub (lines 120-376) *)

(** The local variables of [SelfSub] next to the problem. *)
Record SelfSubState : Type := mkSelfSub {
  problem : Problem;
  occurs : list (list nat);
  modified : bool;
  neverModified : bool;
}.

(** A block either goes on with its state or makes [SelfSub] return. *)
Inductive flow (A : Type) : Type :=
| Go (a : A)
| Ret (pb : Problem).
Arguments Go {A} a.
Arguments Ret {A} pb.

(** The end of one turn of the loop over [idx2]. *)
Inductive pair_end : Type :=
| PairNext (s : SelfSubState)
| PairBreak (s : SelfSubState)
| PairReturn (pb : Problem).

(** [case 1] of the switch (lines 174-204, and the same text at 242-272
    and 307-337): bind the literal, and record it in [Units] unless it
    is there already. *)
Definition inferUnit (lit2 : Lit) (pb : Problem) : res (flow Problem) :=
  m ← idx (Model pb) (Lit_Var lit2);
  if IsPositive lit2 then
    if (m =? -1)%Z then Ok (Ret (setStatus Unsat pb))
    else
      pb ← bind (Lit_Var lit2) 1%Z pb;
      let unitexists := existsb (Nat.eqb lit2) (Units pb) in
      Ok (Go (if unitexists then pb else setUnits (Units pb ++ [lit2]) pb))
  else
    if (m =? 1)%Z then Ok (Ret (setStatus Unsat pb))
    else
      pb ← bind (Lit_Var lit2) (-1)%Z pb;
      let unitexists := existsb (Nat.eqb lit2) (Units pb) in
      Ok (Go (if unitexists then pb else setUnits (Units pb ++ [lit2]) pb)).

(** [pb.Clauses = append(pb.Clauses, newC)] for a new clause object. *)
Definition appendClause (newC : Clause) (pb : Problem) : Problem :=
  setClauses (Clauses pb ++ [length (store pb)])
             (setStore (store pb ++ [newC]) pb).

(** [pb.Clauses[idx] = pb.Clauses[len(pb.Clauses)-1]] and
    [pb.Clauses = pb.Clauses[:len(pb.Clauses)-1]]. *)
Definition swapRemove (i : nat) (pb : Problem) : res Problem :=
  match length (Clauses pb) with
  | 0 => Panic
  | S n =>
    last ← idx (Clauses pb) n;
    if decide (i < length (Clauses pb))
    then Ok (setClauses (take n (<[i := last]> (Clauses pb))) pb)
    else Panic
  end.

Section Passes.
Context `{ops : ClauseOps}.

(** What is done with the resolvent (lines 167-208, 235-276, 300-341). *)
Definition addResolvent (newC : Clause) (pb : Problem) : res (flow Problem) :=
  let '(isSat, newC) := Simplify newC in
  if isSat : bool then Ok (Go pb)
  else
    match length newC with
    | 0 => Ok (Ret (setStatus Unsat pb))
    | 1 => lit2 ← idx newC 0; inferUnit lit2 pb
    | _ => Ok (Go (appendClause newC pb))
    end.

(** The removal that ends each of the three branches (lines 212-229,
    279-294, 344-359): [removals] lists the positions in the order of
    the code. *)
Definition removeAndRebuild (lit : Lit) (removals : list nat)
  (occ : list (list nat)) (nm : bool) (pb : Problem) : res pair_end :=
  o ← idx occ (Negation lit);
  if decide (0 < length o) then
    pb ← foldl (λ r i, pb ← r; swapRemove i pb) (Ok pb) removals;
    occ ← buildOccurs pb;
    Ok (PairBreak (mkSelfSub pb occ true false))
  else Ok (PairNext (mkSelfSub pb occ false nm)).

(** The body of the loop over [idx2] (lines 150-360). *)
Definition pairStep (v : Var) (idx1 idx2 : nat) (s : SelfSubState)
  : res pair_end :=
  let lit := Var_Lit v in
  let pb := logEvent (EvPair lit idx1 idx2) (problem s) in
  p1 ← idx (Clauses pb) idx1;
  p2 ← idx (Clauses pb) idx2;
  c1 ← idx (store pb) p1;
  c2 ← idx (store pb) p2;
  let canP := SelfSubsumes c1 c2 in
  let canN := SelfSubsumes c2 c1 in
  if canP && canN then
    r ← addResolvent (Generate c1 c2 v) pb;
    match r with
    | Ret pb => Ok (PairReturn pb)
    | Go pb =>
      removeAndRebuild lit [idx1; idx2] (occurs s) (neverModified s) pb
    end
  else if canP then
    r ← addResolvent (Generate c1 c2 v) pb;
    match r with
    | Ret pb => Ok (PairReturn pb)
    | Go pb => removeAndRebuild lit [idx2] (occurs s) (neverModified s) pb
    end
  else if canN then
    r ← addResolvent (Generate c2 c1 v) pb;
    match r with
    | Ret pb => Ok (PairReturn pb)
    | Go pb => removeAndRebuild lit [idx1] (occurs s) (neverModified s) pb
    end
  else Ok (PairNext (mkSelfSub pb (occurs s) (modified s) (neverModified s))).

(** The loop over [occurs[lit.Negation()]] (lines 149-362); a [break]
    leaves it. *)
Fixpoint loopIdx2 (v : Var) (idx1 : nat) (o2 : list nat) (s : SelfSubState)
  : res (flow SelfSubState) :=
  match o2 with
  | [] => Ok (Go s)
  | idx2 :: o2' =>
    r ← pairStep v idx1 idx2 s;
    match r with
    | PairNext s => loopIdx2 v idx1 o2' s
    | PairBreak s => Ok (Go s)
    | PairReturn pb => Ok (Ret pb)
    end
  end.

(** The loop over [occurs[lit]] (lines 148-366), left when [modified]
    is set after the inner loop. *)
Fixpoint loopIdx1 (v : Var) (o1 : list nat) (s : SelfSubState)
  : res (flow SelfSubState) :=
  match o1 with
  | [] => Ok (Go s)
  | idx1 :: o1' =>
    o2 ← idx (occurs s) (Negation (Var_Lit v));
    r ← loopIdx2 v idx1 o2 s;
    match r with
    | Ret pb => Ok (Ret pb)
    | Go s => if modified s then Ok (Go s) else loopIdx1 v o1' s
    end
  end.

(** The body of the loop over the variables (lines 136-369). *)
Definition selfSubVar (i : nat) (s : SelfSubState)
  : res (flow SelfSubState) :=
  m ← idx (Model (problem s)) i;
  if decide (m ≠ 0%Z) then Ok (Go s)
  else
    let lit := Var_Lit i in
    o1 ← idx (occurs s) lit;
    o2 ← idx (occurs s) (Negation lit);
    let nbLit := length o1 in
    let nbLit2 := length o2 in
    if decide ((nbLit < 10 ∨ nbLit2 < 10) ∧ (nbLit ≠ 0 ∨ nbLit2 ≠ 0)) then
      let pb := logEvent (EvExamining lit) (problem s) in
      loopIdx1 i o1 (mkSelfSub pb (occurs s) (modified s) (neverModified s))
    else Ok (Go s).

(** [for i := 0; i < pb.NbVars; i++]: [n] turns are left, from [i]. *)
Fixpoint selfSubSweep (n i : nat) (s : SelfSubState)
  : res (flow SelfSubState) :=
  match n with
  | 0 => Ok (Go s)
  | S n' =>
    r ← selfSubVar i s;
    match r with
    | Ret pb => Ok (Ret pb)
    | Go s => selfSubSweep n' (S i) s
    end
  end.

(** [for modified] (lines 131-371). *)
Fixpoint selfSubLoop (fuel : nat) (s : SelfSubState)
  : res (flow SelfSubState) :=
  match fuel with
  | 0 => OutOfFuel
  | S fuel' =>
    if modified s then
      let s := mkSelfSub (problem s) (occurs s) false (neverModified s) in
      r ← selfSubSweep (NbVars (problem s)) 0 s;
      match r with
      | Ret pb => Ok (Ret pb)
      | Go s => selfSubLoop fuel' s
      end
    else Ok (Go s)
  end.

Definition SelfSub (fuel : nat) (pb : Problem) : res Problem :=
  occ ← buildOccurs pb;
  r ← selfSubLoop fuel (mkSelfSub pb occ true true);
  match r with
  | Ret pb => Ok pb
  | Go s => if neverModified s then Ok (problem s) else Simplify2 (problem s)
  end.

(** ** Subsumption (lines 379-495) *)

(** The body of the two inner loops (lines 403-428 and 435-460). *)
Definition subsumePair (idx1 idx2 : nat) (a : Problem * list nat)
  : res (Problem * list nat) :=
  let '(pb, toRemove) := a in
  p1 ← idx (Clauses pb) idx1;
  p2 ← idx (Clauses pb) idx2;
  c1 ← idx (store pb) p1;
  c2 ← idx (store pb) p2;
  if decide (idx1 ≤ idx2) then Ok (pb, toRemove)
  else
    let '(pb, toRemove) :=
      if decide (length c2 < length c1) then
        let canP := Subsumes c2 c1 in
        (logEvent (EvSubsumes idx2 idx1 canP) pb,
         if canP then toRemove ++ [idx1] else toRemove)
      else (pb, toRemove) in
    let '(pb, toRemove) :=
      if decide (length c1 < length c2) then
        let canN := Subsumes c1 c2 in
        (logEvent (EvSubsumes idx1 idx2 canN) pb,
         if canN then toRemove ++ [idx2] else toRemove)
      else (pb, toRemove) in
    Ok (pb, toRemove).

Fixpoint subsumeInner (idx1 : nat) (o : list nat) (a : Problem * list nat)
  : res (Problem * list nat) :=
  match o with
  | [] => Ok a
  | idx2 :: o' => a ← subsumePair idx1 idx2 a; subsumeInner idx1 o' a
  end.

Fixpoint subsumeOuter (o1 o : list nat) (a : Problem * list nat)
  : res (Problem * list nat) :=
  match o1 with
  | [] => Ok a
  | idx1 :: o1' => a ← subsumeInner idx1 o a; subsumeOuter o1' o a
  end.

(** The body of the loop over the variables (lines 392-463). *)
Definition subsumeVar (occ : list (list nat)) (i : nat)
  (a : Problem * list nat) : res (Problem * list nat) :=
  m ← idx (Model a.1) i;
  if decide (m ≠ 0%Z) then Ok a
  else
    let lit := Var_Lit i in
    let a := (logEvent (EvExamining lit) a.1, a.2) in
    o ← idx occ lit;
    a ← subsumeOuter o o a;
    o ← idx occ (Negation lit);
    subsumeOuter o o a.

Fixpoint subsumeSweep (occ : list (list nat)) (n i : nat)
  (a : Problem * list nat) : res (Problem * list nat) :=
  match n with
  | 0 => Ok a
  | S n' => a ← subsumeVar occ i a; subsumeSweep occ n' (S i) a
  end.

(** Lines 467-481: the clauses whose position is not in [toRemove],
    from position [i] on. *)
Fixpoint keepClauses (toRemove : list nat) (i : nat) (cl : list ptr)
  : list ptr :=
  match cl with
  | [] => []
  | p :: cl' =>
    let match_ := existsb (Nat.eqb i) toRemove in
    if match_ then keepClauses toRemove (S i) cl'
    else p :: keepClauses toRemove (S i) cl'
  end.

(** The marking part of the pass (lines 381-464). *)
Definition subsumeMark (pb : Problem) : res (Problem * list nat) :=
  occ ← buildOccurs pb;
  subsumeSweep occ (NbVars pb) 0 (pb, []).

Definition Subsumption (pb : Problem) : res Problem :=
  '(pb, toRemove) ← subsumeMark pb;
  let pb := setClauses (keepClauses toRemove 0 (Clauses pb)) pb in
  _ ← buildOccurs pb;
  Simplify2 pb.

(** ** Preprocess (lines 114-117) *)

Definition Preprocess (fuel : nat) (pb : Problem) : res Problem :=
  pb ← SelfSub fuel pb;
  Subsumption pb.

End Passes.

Arguments pairStep : simpl never.
Arguments selfSubVar : simpl never.
Arguments subsumePair : simpl never.
Arguments subsumeVar : simpl never.

(** ** Reference clause operations *)

(** Modelled from the spec: the clause methods [Subsumes], [Generate],
    [Simplify] and [SelfSubsumes] are missing from the repository's
    source. "Subsumption test: decide whether this clause's literals are
    a subset of another's." *)
Definition refSubsumes (c other : Clause) : bool :=
  forallb (λ l, existsb (Nat.eqb l) other) c.

(** Modelled from the spec: "resolve: produce the resolvent clause of two
    clauses on a pivot variable": the clause holding the positive
    literal of the pivot without that literal, and the other clause
    without the negated one. *)
Definition refGenerate (c other : Clause) (v : Var) : Clause :=
  let pos := Var_Lit v in
  let neg := Negation (Var_Lit v) in
  if existsb (Nat.eqb pos) c
  then filter (λ l, l ≠ pos) c ++ filter (λ l, l ≠ neg) other
  else filter (λ l, l ≠ neg) c ++ filter (λ l, l ≠ pos) other.

(** Modelled from the spec: "self-simplify: detect and collapse a clause
    that is trivially satisfiable (a tautology), returning whether it
    was eliminated"; repeated literals are dropped, as in "(x2∨x2)
    simplifying to unit (x2)". *)
Definition refSimplify (c : Clause) : bool * Clause :=
  if existsb (λ l, existsb (Nat.eqb (Negation l)) c) c
  then (true, c)
  else (false, remove_dups c).

(** Modelled from the spec: "self-subsumption test: decide whether
    resolving would let one clause be absorbed into a shrunken form of
    the other": one literal [l] of [c] is negated in [other], and the
    other literals of [c] are literals of [other] apart from that
    negation (C \ {l} ⊆ D \ {¬l}). *)
Definition refSelfSubsumes (c other : Clause) : bool :=
  existsb (λ l,
    existsb (Nat.eqb (Negation l)) other &&
    forallb (λ l', Nat.eqb l' l ||
                   (negb (Nat.eqb l' (Negation l)) &&
                    existsb (Nat.eqb l') other)) c) c.

Definition refOps : ClauseOps := {|
  SelfSubsumes := refSelfSubsumes;
  Generate := refGenerate;
  Simplify := refSimplify;
  Subsumes := refSubsumes;
|}.

(** A problem as the caller builds it: one object per clause, nothing
    bound, nothing logged. *)
Definition newProblem (nbVars : nat) (clauses : list Clause) : Problem :=
  mkProblem nbVars (seq 0 (length clauses)) Undetermined []
            (replicate nbVars 0%Z) [] [] clauses [].

(** The clauses of the database, read through the pointers. *)
Definition clauseAt (pb : Problem) (i : nat) : option Clause :=
  p ← Clauses pb !! i; store pb !! p.

Definition clausesOf (pb : Problem) : list Clause :=
  omap (λ p, store pb !! p) (Clauses pb).

(** ** The status of a run *)

(** What a pass may do to [Status]: leave it, set it to [Unsat], or
    set it from [Undetermined] to [Sat] with an empty clause list. *)
Definition statusStep (pb pb' : Problem) : Prop :=
  status pb' = status pb ∨ status pb' = Unsat ∨
  (status pb = Undetermined ∧ status pb' = Sat ∧ Clauses pb' = []).

Definition statusMonotone (pb pb' : Problem) : Prop :=
  (status pb = Unsat → status pb' = Unsat) ∧
  (status pb = Undetermined → status pb' = Sat → Clauses pb' = []).

(** [pb'] is [pb] with more lines in the log. *)
Definition extendsTrace (pb pb' : Problem) : Prop :=
  ∃ evs, pb' = setTrace (trace pb ++ evs) pb.

(** What holds when a block of [SelfSub] ends: [P] of the state it goes
    on with, or [Q] of the problem [SelfSub] returns with. *)
Definition flowPost {A : Type} (P : A → Prop) (Q : Problem → Prop)
  (r : flow A) : Prop :=
  match r with
  | Go a => P a
  | Ret pb => Q pb
  end.

(** ** Clauses in normal form *)

(** The variable of the literal is unbound. *)
Definition unboundLit (model : list Z) (l : Lit) : Prop :=
  model !! Lit_Var l = Some 0%Z.

(** At least two literals, none on a bound variable. *)
Definition normalClause (model : list Z) (c : Clause) : Prop :=
  2 ≤ length c ∧ Forall (unboundLit model) c.

(** Every clause of the database is in normal form. *)
Definition normalized (pb : Problem) : Prop :=
  ∀ p, p ∈ Clauses pb →
    ∃ c, store pb !! p = Some c ∧ normalClause (Model pb) c.

(** ** Example problems *)

(** Status [Unsat], variable 0 bound to true, and the clause (x0 ∨ x1),
    which that binding satisfies. *)
Definition exUnsatSatisfied : Problem :=
  mkProblem 2 [0] Unsat [0] [1%Z; 0%Z] [] [] [[0; 2]] [].

(** The four clauses over two variables, which have no model. *)
Definition exFour : Problem :=
  newProblem 2 [[0; 2]; [1; 2]; [0; 3]; [1; 3]].

(** Status [Unsat] and one clause in normal form. *)
Definition exUnsatNormal : Problem :=
  mkProblem 2 [0] Unsat [] [0%Z; 0%Z] [] [] [[0; 2]] [].

(** Scenario A of the specification after its first clause lost its
    bound literal by hand: (x1 ∨ x2) with x1 false. *)
Definition exPropagate : Problem :=
  mkProblem 2 [0] Undetermined [1] [(-1)%Z; 0%Z] [] [] [[0; 2]] [].

(** The problem a block of [SelfSub] ends with. *)
Definition flowProblem (r : flow SelfSubState) : Problem :=
  match r with
  | Go s => problem s
  | Ret pb => pb
  end.

Definition pairProblem (r : pair_end) : Problem :=
  match r with
  | PairNext s | PairBreak s => problem s
  | PairReturn pb => pb
  end.

(** The log grew from [pb] to [pb']. *)
Definition traceGrows (pb pb' : Problem) : Prop :=
  ∃ evs, trace pb' = trace pb ++ evs.

(** ** Well-formed databases *)

(** The literals of the clause index the occurrence lists. *)
Definition litsInRange (nbVars : nat) (c : Clause) : Prop :=
  Forall (λ l, l < nbVars * 2) c.

(** Every pointer of the database refers to a clause object whose
    literals are in range. *)
Definition wfClauses (pb : Problem) : Prop :=
  ∀ p, p ∈ Clauses pb →
    ∃ c, store pb !! p = Some c ∧ litsInRange (NbVars pb) c.

(** [occ] lists, for each literal, the positions of the clauses that
    hold it. *)
Definition occursOf (pb : Problem) (occ : list (list nat)) : Prop :=
  length occ = NbVars pb * 2 ∧
  ∀ l o, occ !! l = Some o →
    ∀ i, i ∈ o ↔ ∃ c, clauseAt pb i = Some c ∧ l ∈ c.

(** A state of [SelfSub] on the two clauses (x0 ∨ x1 ∨ x2) and
    (¬x0 ∨ x1 ∨ x2), with their occurrence lists. *)
Definition exBoth : SelfSubState :=
  mkSelfSub (newProblem 3 [[0; 2; 4]; [1; 2; 4]])
            [[0]; [1]; [0; 1]; []; [0; 1]; []] true true.

(** ** What the Subsumption pass marks *)

(** The clause at position [m] is strictly shorter than the clause at
    position [k] and subsumes it. *)
Definition subsumedBy `{ops : ClauseOps} (pb : Problem) (k m : nat) : Prop :=
  ∃ ck cm, clauseAt pb k = Some ck ∧ clauseAt pb m = Some cm ∧
    length cm < length ck ∧ Subsumes cm ck = true.

(** The turn of the inner loops for [idx1] and [idx2] marks [k]. *)
Definition pairMarks `{ops : ClauseOps} (pb : Problem) (idx1 idx2 k : nat)
  : Prop :=
  idx2 < idx1 ∧
  ((k = idx1 ∧ subsumedBy pb idx1 idx2) ∨
   (k = idx2 ∧ subsumedBy pb idx2 idx1)).

(** The turn of the loop over the variables for [i] marks [k]. *)
Definition varMarks `{ops : ClauseOps} (pb : Problem) (occ : list (list nat))
  (i k : nat) : Prop :=
  Model pb !! i = Some 0%Z ∧
  ∃ l o idx1 idx2,
    (l = Var_Lit i ∨ l = Negation (Var_Lit i)) ∧ occ !! l = Some o ∧
    idx1 ∈ o ∧ idx2 ∈ o ∧ pairMarks pb idx1 idx2 k.

(** Position [k] holds a clause that a strictly shorter clause of the
    database subsumes, the two sharing a literal of an unbound
    variable. *)
Definition markable `{ops : ClauseOps} (pb : Problem) (k : nat) : Prop :=
  ∃ i l m ck cm,
    i < NbVars pb ∧ Model pb !! i = Some 0%Z ∧
    (l = Var_Lit i ∨ l = Negation (Var_Lit i)) ∧
    clauseAt pb k = Some ck ∧ clauseAt pb m = Some cm ∧
    l ∈ ck ∧ l ∈ cm ∧ length cm < length ck ∧ Subsumes cm ck = true.


(** Twice (x0 ∨ x1 ∨ x2), then the shorter (x0 ∨ x1) and twice
    (x1 ∨ x2). *)
Definition exDuplicates : Problem :=
  newProblem 3 [[0; 2; 4]; [0; 2; 4]; [0; 2]; [2; 4]; [2; 4]].

(** ** Literals under the model *)

(** The variable is bound and the binding makes the literal true: the
    test of line 79. *)
Definition satisfiedLit (model : list Z) (l : Lit) : Prop :=
  ∃ m, model !! Lit_Var l = Some m ∧ m ≠ 0%Z ∧
    eqb (m =? 1)%Z (IsPositive l) = true.

(** The variable is bound and the binding makes the literal false. *)
Definition falsifiedLit (model : list Z) (l : Lit) : Prop :=
  ∃ m, model !! Lit_Var l = Some m ∧ m ≠ 0%Z ∧
    eqb (m =? 1)%Z (IsPositive l) = false.

(** ** Input formulas *)

(** The input of the specification: [Status] undetermined, nothing
    bound, no unit recorded, every clause with two literals or more on
    variables below [NbVars]. *)
Definition wfInput (pb : Problem) : Prop :=
  status pb = Undetermined ∧ Units pb = [] ∧
  Model pb = replicate (NbVars pb) 0%Z ∧
  wfClauses pb ∧
  ∀ p c, p ∈ Clauses pb → store pb !! p = Some c → 2 ≤ length c.

(** (¬a ∨ b), (a ∨ b), (¬b ∨ c ∨ d) and (¬c ∨ d ∨ e) over the five
    variables a..e. *)
Definition exChain : Problem :=
  newProblem 5 [[1; 2]; [0; 2]; [3; 4; 6]; [5; 6; 8]].

(** The number of variables and the length of the model are those of
    [pb]. *)
Definition sameSize (pb pb' : Problem) : Prop :=
  NbVars pb' = NbVars pb ∧ length (Model pb') = length (Model pb).

(** ** A second run *)

(** No clause of the database self-subsumes another. *)
Definition noSelfSubsumption `{ops : ClauseOps} (pb : Problem) : Prop :=
  ∀ c1 c2, c1 ∈ clausesOf pb → c2 ∈ clausesOf pb →
    SelfSubsumes c1 c2 = false.

(** From [s] to [s'] only the log has grown. *)
Definition quietStep (s s' : SelfSubState) : Prop :=
  extendsTrace (problem s) (problem s') ∧ occurs s' = occurs s ∧
  modified s' = modified s ∧ neverModified s' = neverModified s.

(** The positions listed in [occ] are positions of the database, and
    the model has an entry for every variable. *)
Definition readable (pb : Problem) (occ : list (list nat)) : Prop :=
  length occ = NbVars pb * 2 ∧ NbVars pb ≤ length (Model pb) ∧
  ∀ l o i, occ !! l = Some o → i ∈ o → is_Some (clauseAt pb i).

(** (x0 ∨ x1) and the longer (x0 ∨ x1 ∨ x2), which it subsumes. *)
Definition exSubsumed : Problem :=
  newProblem 3 [[0; 2]; [0; 2; 4]].

(** [Clauses], the clause objects, [Units], [Model] and [Status] are the
    same in both problems. *)
Definition sameState (pb pb' : Problem) : Prop :=
  Clauses pb' = Clauses pb ∧ store pb' = store pb ∧
  Units pb' = Units pb ∧ Model pb' = Model pb ∧ status pb' = status pb.

(** The problem [Preprocess] makes of [exSubsumed]: the clause
    (x0 ∨ x1) alone. *)
Definition exSubsumedResult : Problem :=
  Eval vm_compute in
    match @Preprocess refOps 2 exSubsumed with
    | Ok pb => pb
    | _ => exSubsumed
    end.

(** ** Truth under an assignment *)

Definition litTrue (σ : nat → bool) (l : Lit) : bool :=
  if IsPositive l then σ (Lit_Var l) else negb (σ (Lit_Var l)).

Definition clauseTrue (σ : nat → bool) (c : Clause) : Prop :=
  ∃ l, l ∈ c ∧ litTrue σ l = true.

Definition unitsTrue (σ : nat → bool) (units : list Lit) : Prop :=
  ∀ l, l ∈ units → litTrue σ l = true.

(** Every clause of the database is true. *)
Definition dbTrue (σ : nat → bool) (pb : Problem) : Prop :=
  ∀ p c, p ∈ Clauses pb → store pb !! p = Some c → clauseTrue σ c.

(** The formula of a problem: its clauses and its units. *)
Definition formulaTrue (σ : nat → bool) (pb : Problem) : Prop :=
  dbTrue σ pb ∧ unitsTrue σ (Units pb).

(** The assignment gives every bound variable the value of the model. *)
Definition extendsModel (σ : nat → bool) (model : list Z) : Prop :=
  ∀ v, (model !! v = Some 1%Z → σ v = true) ∧
       (model !! v = Some (-1)%Z → σ v = false).

(** The two problems have the same models. *)
Definition equivalent (pb pb' : Problem) : Prop :=
  ∀ σ, formulaTrue σ pb ↔ formulaTrue σ pb'.

(** The value the model holds for a variable whose literal [l] was
    forced. *)
Definition polarity (l : Lit) : Z := if IsPositive l then 1%Z else (-1)%Z.

(** The model and the units agree: a bound variable has its literal in
    [Units], and a literal of [Units] has its variable bound
    accordingly. *)
Definition synced (pb : Problem) : Prop :=
  (∀ v m, Model pb !! v = Some m →
     m = 0%Z ∨ (m = 1%Z ∧ Var_Lit v ∈ Units pb) ∨
     (m = (-1)%Z ∧ Negation (Var_Lit v) ∈ Units pb)) ∧
  (∀ l, l ∈ Units pb → Model pb !! Lit_Var l = Some (polarity l)).

(** The model and the units agree, and a status [Unsat] is justified:
    the formula has no model. *)
Definition consistent (pb : Problem) : Prop :=
  synced pb ∧ (status pb = Unsat → ∀ σ, ¬ formulaTrue σ pb).

(** Modelled from the spec: the clause methods are missing from the
    repository's source; this is what the passes need of them.
    "resolve: produce the resolvent clause of two clauses on a pivot
    variable": the resolvent follows from the two clauses, whichever is
    the receiver. "self-subsumption test: ... resolving on that
    variable would let one clause be absorbed into a shrunken form of
    the other": when [c.SelfSubsumes(other)] holds the resolvent of the
    two implies [other], and no clause self-subsumes itself. "self-simplify: detect
    and collapse a clause that is trivially satisfiable": the answer
    [true] is given for valid clauses only, and with [false] the clause
    keeps its meaning. "subsumption test: decide whether this clause's
    literals are a subset of another's": then this clause implies the
    other. *)
Class ClauseOpsSound (ops : ClauseOps) : Prop := {
  Generate_sound : ∀ σ c1 c2 v,
    Var_Lit v ∈ c1 → Negation (Var_Lit v) ∈ c2 →
    clauseTrue σ c1 → clauseTrue σ c2 →
    clauseTrue σ (Generate c1 c2 v) ∧ clauseTrue σ (Generate c2 c1 v);
  SelfSubsumes_sound : ∀ σ c other v,
    SelfSubsumes c other = true →
    (Var_Lit v ∈ c ∧ Negation (Var_Lit v) ∈ other) ∨
    (Negation (Var_Lit v) ∈ c ∧ Var_Lit v ∈ other) →
    clauseTrue σ (Generate c other v) ∨ clauseTrue σ (Generate other c v) →
    clauseTrue σ other;
  SelfSubsumes_irrefl : ∀ c, SelfSubsumes c c = false;
  Simplify_valid : ∀ σ c c',
    Simplify c = (true, c') → clauseTrue σ c;
  Simplify_equiv : ∀ σ c c',
    Simplify c = (false, c') → clauseTrue σ c' ↔ clauseTrue σ c;
  Subsumes_sound : ∀ σ c other,
    Subsumes c other = true → clauseTrue σ c → clauseTrue σ other;
}.

(** The formula of the first [nb] clauses of the list and the units. *)
Definition formulaTrueN (σ : nat → bool) (pb : Problem) (nb : nat) : Prop :=
  (∀ j p c, j < nb → Clauses pb !! j = Some p → store pb !! p = Some c →
     clauseTrue σ c) ∧
  unitsTrue σ (Units pb).

(** [pb'] is [pb] with what the resolvent step added, and [pbX] is [pb']
    without some of the clauses that [pb] already had. *)
Definition keepsAdded (pb pb' pbX : Problem) : Prop :=
  Units pbX = Units pb' ∧ store pbX = store pb' ∧
  ∀ p, p ∈ Clauses pb' → p ∈ Clauses pbX ∨ is_Some (store pb !! p).

(** The resolvent [newC] follows from the formula of [pb'], also after
    clauses of [pb] were removed from it. *)
Definition derivable (newC : Clause) (pb pb' : Problem) : Prop :=
  ∀ pbX, keepsAdded pb pb' pbX →
    ∀ σ, formulaTrue σ pbX → clauseTrue σ newC.

(** ** What unit propagation needs and does *)

(** Every pointer of the database refers to a clause object, and the
    variable of every literal has an entry in [Model]: what [Simplify2]
    reads at lines 71-78. *)
Definition inBounds (pb : Problem) : Prop :=
  ∀ p, p ∈ Clauses pb →
    ∃ c, store pb !! p = Some c ∧
      Forall (λ l, Lit_Var l < length (Model pb)) c.

(** A variable bound to true or false in [pb] has the same binding in
    [pb']. *)
Definition keepsBindings (pb pb' : Problem) : Prop :=
  ∀ v m, Model pb !! v = Some m → m = 1%Z ∨ m = (-1)%Z →
    Model pb' !! v = Some m.

(** The database of [pb'] holds no pointer that [pb] did not hold and
    is no longer, and a clause object of [pb'] holds no literal that it
    did not hold in [pb]. *)
Definition shrinksClauses (pb pb' : Problem) : Prop :=
  Clauses pb' ⊆ Clauses pb ∧ length (Clauses pb') ≤ length (Clauses pb) ∧
  ∀ p c', store pb' !! p = Some c' → ∃ c, store pb !! p = Some c ∧ c' ⊆ c.

(** From [pb] to [pb'] bindings were kept, [Units] was appended to and
    clauses only lost literals or left the database. *)
Definition propagates (pb pb' : Problem) : Prop :=
  keepsBindings pb pb' ∧ Units pb `prefix_of` Units pb' ∧
  shrinksClauses pb pb'.

(** ** Unit steps and pairs of [SelfSub] *)

(** The problem a unit step ends with, whether [SelfSub] goes on or
    returns. *)
Definition unitResult (r : flow Problem) : Problem :=
  match r with
  | Go pb | Ret pb => pb
  end.

(** A state of [SelfSub] on scenario C of the specification, the
    clauses (x0 ∨ x1) and (¬x0 ∨ x1), with their occurrence lists. *)
Definition exUnitPair : SelfSubState :=
  mkSelfSub (newProblem 2 [[0; 2]; [1; 2]]) [[0]; [1]; [0; 1]; []] true true.

(** A state of [SelfSub] on (x0 ∨ x1) and (¬x0 ∨ x1 ∨ x2): the first
    clause self-subsumes the second, not the second the first. *)
Definition exPositive : SelfSubState :=
  mkSelfSub (newProblem 3 [[0; 2]; [1; 2; 4]])
            [[0]; [1]; [0; 1]; []; [1]; []] true true.

(** A state of [SelfSub] on (x0 ∨ x1 ∨ x2) and (¬x0 ∨ x1): the second
    clause self-subsumes the first, not the first the second. *)
Definition exNegative : SelfSubState :=
  mkSelfSub (newProblem 3 [[0; 2; 4]; [1; 2]])
            [[0]; [1]; [0; 1]; []; [0]; []] true true.

(** ** What the passes keep *)

(** [Model] and [Units] agree and no literal is recorded twice. *)
Definition tidy (pb : Problem) : Prop := synced pb ∧ NoDup (Units pb).

(** The fields that no pass writes: the number of variables and the
    literals and weights of the optimisation problem; [Model] keeps its
    length. *)
Definition keepsFrame (pb pb' : Problem) : Prop :=
  NbVars pb' = NbVars pb ∧ minLits pb' = minLits pb ∧
  minWeights pb' = minWeights pb ∧ length (Model pb') = length (Model pb).

(** ** CNF (lines 26-35) *)

(** Modelled from the spec: the methods [Lit.Int] and [Clause.CNF] that
    [CNF] calls are missing from the repository's source; the output is
    "one line [<literal> 0] per forced literal in Units, followed by one
    line per remaining clause rendering its literals terminated by
    [0]". *)
Class Rendering : Type := {
  LitInt : Lit → Z;
  ClauseCNF : Clause → String.string;
}.

(** [fmt.Sprintf("%d", z)]: the decimal digits, after a minus sign for a
    negative number. *)
Definition showInt (z : Z) : String.string :=
  DecimalString.NilZero.string_of_int (Z.to_int z).

Section CNF.
Import Stdlib.Strings.String.
Context `{rd : Rendering}.

(** The line feed that ends each format string. *)
Definition newline : string := String (Ascii.ascii_of_nat 10) EmptyString.

(** [fmt.Sprintf("p cnf %d %d\n", nbVars, nbClauses)] *)
Definition cnfHeader (nbVars nbClauses : nat) : string :=
  append "p cnf "
    (append (showInt (Z.of_nat nbVars))
       (append " " (append (showInt (Z.of_nat nbClauses)) newline))).

(** The loop over [pb.Units] (lines 28-30): [text] is [res]. *)
Fixpoint unitLines (units : list Lit) (text : string) : string :=
  match units with
  | [] => text
  | unit :: units' =>
    unitLines units'
      (append text (append (showInt (LitInt unit)) (append " 0" newline)))
  end.

(** The loop over [pb.Clauses] (lines 31-33), reading each clause
    through its pointer. *)
Fixpoint clauseLines (h : list Clause) (cl : list ptr) (text : string)
  : res string :=
  match cl with
  | [] => Ok text
  | p :: cl' =>
    clause ← idx h p;
    clauseLines h cl' (append text (append (ClauseCNF clause) newline))
  end.

Definition CNF (pb : Problem) : res string :=
  let text :=
    cnfHeader (NbVars pb)
      (List.length (Clauses pb) + List.length (Units pb)) in
  let text := unitLines (Units pb) text in
  clauseLines (store pb) (Clauses pb) text.

End CNF.

(** The number of line feeds of a text. *)
Fixpoint countLines (s : String.string) : nat :=
  match s with
  | String.EmptyString => 0
  | String.String a s' =>
    (if Ascii.eqb a (Ascii.ascii_of_nat 10) then 1 else 0) + countLines s'
  end.

(** Modelled from the spec: the output is "DIMACS-CNF-compatible", where
    the variables count from 1 and a negated literal is a negative
    number. *)
Definition refLitInt (l : Lit) : Z :=
  if IsPositive l then Z.of_nat (Lit_Var l + 1)
  else (- Z.of_nat (Lit_Var l + 1))%Z.

Section RefRendering.
Import Stdlib.Strings.String.

(** Modelled from the spec: "one line per remaining clause rendering its
    literals terminated by [0]". *)
Definition refClauseCNF (c : Clause) : string :=
  foldr (λ l s, append (showInt (refLitInt l)) (append " " s)) "0"%string c.

End RefRendering.

Definition refRendering : Rendering := {|
  LitInt := refLitInt;
  ClauseCNF := refClauseCNF;
|}.

(** ** The weight of a database *)

(** One for the clause behind the pointer and one for each of its
    literals. *)
Definition clauseWeight (h : list (list nat)) (p : nat) : nat :=
  S (from_option length 0 (h !! p)).

(** The weight of the database, which every change of [SelfSub]
    lowers. *)
Definition weight (pb : Problem) : nat :=
  sum_list_with (clauseWeight (store pb)) (Clauses pb).

(** Modelled from the spec: the clause methods are missing from the
    repository's source. "self-subsumption test: decide whether
    resolving would let one clause be absorbed into a shrunken form of
    the other": when [c] self-subsumes [other] on the pivot, the
    resolvent that [Simplify] keeps is shorter than [other]. *)
Class ClauseOpsShrink (ops : ClauseOps) : Prop := {
  Generate_shrinks : ∀ c other v R,
    SelfSubsumes c other = true →
    (Var_Lit v ∈ c ∧ Negation (Var_Lit v) ∈ other) ∨
    (Negation (Var_Lit v) ∈ c ∧ Var_Lit v ∈ other) →
    Simplify (Generate c other v) = (false, R) →
    length R < length other;
}.

(* ================================================================== *)
(** * Properties *)

(** ** Reasoning about [res] *)

Lemma bind_Ok {A B} (m : res A) (f : A → res B) (b : B) :
  m ≫= f = Ok b ↔ ∃ a, m = Ok a ∧ f a = Ok b.
Proof.
  destruct m; simpl; split; try (intros (? & ? & ?)); try discriminate.
  - eauto.
  - by simplify_eq.
Qed.

Lemma idx_Ok {A} (l : list A) (i : nat) (x : A) :
  idx l i = Ok x ↔ l !! i = Some x.
Proof. unfold idx. destruct (l !! i); split; intros; by simplify_eq. Qed.

Lemma idx_lt {A} (l : list A) (i : nat) :
  i < length l → ∃ x, idx l i = Ok x ∧ l !! i = Some x.
Proof.
  intros Hi. destruct (lookup_lt_is_Some_2 l i Hi) as [x Hx].
  exists x. by rewrite idx_Ok.
Qed.

(** Splits the hypotheses [m ≫= f = Ok b] of the context. *)
Ltac res_inv :=
  repeat match goal with
  | H : _ ≫= _ = Ok _ |- _ =>
      apply bind_Ok in H; destruct H as (? & ? & H)
  | H : mbind _ _ = Ok _ |- _ =>
      apply bind_Ok in H; destruct H as (? & ? & H)
  | H : idx _ _ = Ok _ |- _ => apply idx_Ok in H
  | H : Ok _ = Ok _ |- _ => injection H as H
  | H : Panic = Ok _ |- _ => discriminate H
  | H : OutOfFuel = Ok _ |- _ => discriminate H
  | H : mret _ = Ok _ |- _ => injection H as H
  end.

(** ** addUnit *)

(** What [addUnit] does when the variable is not bound to the opposite
    value: it binds the variable and appends the literal, whatever
    [Units] holds. *)
Lemma addUnit_appends (lit : Lit) (pb pb' : Problem) (m : Z) :
  Model pb !! Lit_Var lit = Some m →
  m ≠ (if IsPositive lit then -1 else 1)%Z →
  addUnit lit pb = Ok pb' →
  Units pb' = Units pb ++ [lit] ∧
  Model pb' = <[Lit_Var lit := (if IsPositive lit then 1 else -1)%Z]> (Model pb) ∧
  status pb' = status pb ∧ Clauses pb' = Clauses pb ∧ store pb' = store pb.
Proof.
  intros Hm Hne. unfold addUnit, bind.
  rewrite (proj2 (idx_Ok _ _ _) Hm). simpl.
  destruct (IsPositive lit).
  - destruct (Z.eqb_spec m (-1)); [done|].
    case_decide; simpl; intros; by simplify_eq.
  - destruct (Z.eqb_spec m 1); [done|].
    case_decide; simpl; intros; by simplify_eq.
Qed.


(** ** The run-time panic of SelfSub *)

(** C2, at the failing input: the two clauses (x1 ∨ x2) and (¬x1 ∨ x2)
    of the specification's scenario C. Both directions of the test
    hold and the resolvent is the unit (x2), so no clause is appended;
    the first removal shortens the list to one clause and the second
    one writes at position 1: [SelfSub] stops with a panic. *)
Theorem SelfSub_panics_on_scenario_C `{ops : ClauseOps} (fuel : nat) :
  SelfSubsumes [0; 2] [1; 2] = true →
  SelfSubsumes [1; 2] [0; 2] = true →
  Simplify (Generate [0; 2] [1; 2] 0) = (false, [2]) →
  SelfSub (S fuel) (newProblem 2 [[0; 2]; [1; 2]]) = Panic.
Proof.
  intros HP HN HS.
  unfold SelfSub. cbn. unfold selfSubVar. cbn.
  unfold pairStep. cbn -[SelfSubsumes Generate Simplify addResolvent].
  rewrite HP, HN. unfold addResolvent. rewrite HS. reflexivity.
Qed.

Lemma SelfSub_panics_on_scenario_C_witness :
  @SelfSub refOps 1 (newProblem 2 [[0; 2]; [1; 2]]) = Panic.
Proof.
  apply (@SelfSub_panics_on_scenario_C refOps 0); reflexivity.
Defined.

(** ** Invariants of the loops of Simplify2 *)

Lemma moveClause_Ok (i nb : nat) (pb pb' : Problem) :
  moveClause i nb pb = Ok pb' →
  ∃ q, Clauses pb !! nb = Some q ∧ i < length (Clauses pb) ∧
       pb' = setClauses (<[i := q]> (Clauses pb)) pb.
Proof.
  unfold moveClause. intros H. res_inv. case_decide; [|done].
  simplify_eq. eauto.
Qed.

(** Every turn of the loop over the clauses lowers [nbClauses - i] by
    one and keeps [i] below or at [nbClauses]. *)
Lemma scanClause_measure pb i nb rs pb' i' nb' rs' :
  i < nb →
  scanClause pb i nb rs = Ok (ClauseNext pb' i' nb' rs') →
  nb' - i' = nb - i - 1 ∧ i' ≤ nb' ∧ nb' ≤ nb ∧
  (rs' = rs ∨ (rs' = true ∧ nb' < nb)).
Proof.
  intros Hi H. unfold scanClause in H. res_inv.
  destruct x1 as [[clauseSat nbLits] c'].
  repeat first [progress res_inv | case_match | case_decide]; simplify_eq;
    split_and!; try lia; first [by left | right; split; [done|lia]].
Qed.

Section SimplifyInvariant.
Variable P : Problem → nat → nat → bool → Prop.
Variable Q : Problem → Prop.
Hypothesis Hstep : ∀ pb i nb rs r,
  P pb i nb rs → i < nb → scanClause pb i nb rs = Ok r →
  match r with
  | ClauseReturn pb' => Q pb'
  | ClauseNext pb' i' nb' rs' => P pb' i' nb' rs'
  end.

Lemma scanClauses_inv k pb i nb rs r :
  k = nb - i → i ≤ nb → P pb i nb rs →
  scanClauses k pb i nb rs = Ok r →
  match r with
  | ScanReturn pb' => Q pb'
  | ScanDone pb' nb' rs' => P pb' nb' nb' rs'
  end.
Proof.
  revert pb i nb rs. induction k as [|k IH]; intros pb i nb rs Hk Hi HP H.
  - assert (i = nb) as -> by lia. simpl in H. by simplify_eq.
  - simpl in H. res_inv. assert (i < nb) as Hlt by lia.
    pose proof (Hstep _ _ _ _ _ HP Hlt H0) as Hs.
    destruct x as [pb'|pb' i' nb' rs']; [by simplify_eq|].
    destruct (scanClause_measure _ _ _ _ _ _ _ _ Hlt H0) as (? & ? & ? & ?).
    eapply IH; [| |exact Hs|exact H]; lia.
Qed.

Hypothesis Hrestart : ∀ pb nb, P pb nb nb true → P pb 0 nb false.
Hypothesis Hupdate : ∀ pb nb pb',
  P pb nb nb false → updateStatus nb pb = Ok pb' → Q pb'.

Lemma restartLoop_inv fuel pb nb pb' :
  P pb 0 nb false → restartLoop fuel pb nb = Ok pb' → Q pb'.
Proof.
  revert pb nb. induction fuel as [|fuel IH]; intros pb nb HP H; [done|].
  simpl in H. res_inv.
  pose proof (scanClauses_inv _ _ _ _ _ _ (eq_sym (Nat.sub_0_r nb))
                (Nat.le_0_l nb) HP H0) as Hs.
  destruct x as [pb1|pb1 nb1 [|]]; [by simplify_eq|..]; eauto.
Qed.

Lemma Simplify2_inv pb pb' :
  P pb 0 (length (Clauses pb)) false → Simplify2 pb = Ok pb' → Q pb'.
Proof. apply restartLoop_inv. Qed.

End SimplifyInvariant.

(** ** Status *)

Lemma addUnit_status lit pb pb' :
  addUnit lit pb = Ok pb' →
  status pb' = Unsat ∨ status pb' = status pb.
Proof.
  unfold addUnit, bind. intros H. res_inv.
  repeat (case_match || case_decide); res_inv; simplify_eq; auto.
Qed.

Lemma scanClause_status pb i nb rs r :
  scanClause pb i nb rs = Ok r →
  match r with
  | ClauseReturn pb' => status pb' = Unsat
  | ClauseNext pb' _ _ _ => status pb' = status pb
  end.
Proof.
  unfold scanClause. intros H. res_inv.
  destruct x1 as [[clauseSat nbLits] c'].
  repeat first [progress res_inv | case_match | case_decide];
    simplify_eq; try done;
    repeat match goal with
    | H : moveClause _ _ _ = Ok _ |- _ =>
        apply moveClause_Ok in H; destruct H as (? & ? & ? & ->)
    | H : addUnit _ _ = Ok _ |- _ => apply addUnit_status in H
    end; simpl in *; intuition congruence.
Qed.

Lemma updateStatus_status nb pb pb' :
  updateStatus nb pb = Ok pb' → statusStep pb pb'.
Proof.
  unfold updateStatus, statusStep. intros H.
  repeat case_decide; simplify_eq; simpl in *; auto.
  destruct_and!. subst. right; right. by rewrite take_0.
Qed.

Lemma Simplify2_status pb pb' : Simplify2 pb = Ok pb' → statusStep pb pb'.
Proof.
  apply (Simplify2_inv (λ pb1 _ _ _, status pb1 = status pb)
           (λ pb1, statusStep pb pb1)); try done.
  - intros pb1 i nb rs r HP _ Hr. apply scanClause_status in Hr.
    destruct r; unfold statusStep; [auto|congruence].
  - intros pb1 nb pb2 HP Hu. apply updateStatus_status in Hu.
    unfold statusStep in *. rewrite <- HP. exact Hu.
Qed.

(** ** Invariants of the loops of SelfSub *)

Section SelfSubInvariant.
Context `{ops : ClauseOps}.

Lemma removeAndRebuild_Ok lit removals occ nm pb r :
  removeAndRebuild lit removals occ nm pb = Ok r →
  ∃ o, occ !! Negation lit = Some o ∧
  ((0 < length o ∧ ∃ pb' occ',
      foldl (λ r i, pb ← r; swapRemove i pb) (Ok pb) removals = Ok pb' ∧
      buildOccurs pb' = Ok occ' ∧
      r = PairBreak (mkSelfSub pb' occ' true false)) ∨
   (length o = 0 ∧ r = PairNext (mkSelfSub pb occ false nm))).
Proof.
  unfold removeAndRebuild. intros H. res_inv. exists x. split; [done|].
  case_decide; res_inv; simplify_eq.
  - left. split; [done|]. eauto.
  - right. split; [lia|done].
Qed.

(** A turn that goes on to the next pair leaves the occurrence lists
    as they are. *)
Lemma pairStep_next_occurs v idx1 idx2 s s' :
  pairStep v idx1 idx2 s = Ok (PairNext s') → occurs s' = occurs s.
Proof.
  unfold pairStep. intros H. res_inv.
  repeat first [progress res_inv | case_match]; simplify_eq; try done;
    match goal with
    | H : removeAndRebuild _ _ _ _ _ = Ok _ |- _ =>
        apply removeAndRebuild_Ok in H;
        destruct H as (? & ? & [(? & ? & ? & ? & ? & ?)|(? & ?)])
    end; by simplify_eq.
Qed.

Lemma pairStep_break_modified v idx1 idx2 s s' :
  pairStep v idx1 idx2 s = Ok (PairBreak s') → modified s' = true.
Proof.
  unfold pairStep. intros H. res_inv.
  repeat first [progress res_inv | case_match]; simplify_eq; try done;
    match goal with
    | H : removeAndRebuild _ _ _ _ _ = Ok _ |- _ =>
        apply removeAndRebuild_Ok in H;
        destruct H as (? & ? & [(? & ? & ? & ? & ? & ?)|(? & ?)])
    end; by simplify_eq.
Qed.

Variable P : SelfSubState → Prop.
Variable Q : Problem → Prop.

Hypothesis Hpair : ∀ v idx1 idx2 s r o1 o2,
  P s →
  occurs s !! Var_Lit v = Some o1 → idx1 ∈ o1 →
  occurs s !! Negation (Var_Lit v) = Some o2 → idx2 ∈ o2 →
  pairStep v idx1 idx2 s = Ok r →
  match r with
  | PairNext s' | PairBreak s' => P s'
  | PairReturn pb => Q pb
  end.
Hypothesis Hlog : ∀ s l,
  P s →
  P (mkSelfSub (logEvent (EvExamining l) (problem s)) (occurs s)
       (modified s) (neverModified s)).
Hypothesis Hflag : ∀ s,
  P s → P (mkSelfSub (problem s) (occurs s) false (neverModified s)).

Lemma loopIdx2_inv v idx1 o1 o2 o2' s r :
  P s →
  occurs s !! Var_Lit v = Some o1 → idx1 ∈ o1 →
  occurs s !! Negation (Var_Lit v) = Some o2 → o2' ⊆ o2 →
  loopIdx2 v idx1 o2' s = Ok r →
  flowPost P Q r ∧
  match r with
  | Go s' => modified s' = false → occurs s' = occurs s
  | Ret _ => True
  end.
Proof.
  revert s. induction o2' as [|idx2 o2' IH]; intros s HP Ho1 Hi1 Ho2 Hsub H.
  - simpl in H. by simplify_eq.
  - simpl in H. res_inv.
    assert (idx2 ∈ o2) as Hi2 by (apply Hsub; left).
    pose proof (Hpair _ _ _ _ _ _ _ HP Ho1 Hi1 Ho2 Hi2 H0) as Hr.
    destruct x as [s'|s'|pb'].
    + pose proof (pairStep_next_occurs _ _ _ _ _ H0) as Hocc.
      destruct (IH s') as [? ?]; try done.
      * by rewrite Hocc.
      * by rewrite Hocc.
      * intros j Hj. apply Hsub. by right.
      * split; [done|]. destruct r; [|done]. by rewrite <- Hocc.
    + simplify_eq. split; [done|].
      intros Hm. apply pairStep_break_modified in H0. congruence.
    + by simplify_eq.
Qed.

Lemma loopIdx1_inv v o1 o1' s r :
  P s →
  occurs s !! Var_Lit v = Some o1 → o1' ⊆ o1 →
  loopIdx1 v o1' s = Ok r → flowPost P Q r.
Proof.
  revert s. induction o1' as [|idx1 o1' IH]; intros s HP Ho1 Hsub H.
  - simpl in H. by simplify_eq.
  - simpl in H. res_inv.
    assert (idx1 ∈ o1) as Hi1 by (apply Hsub; left).
    destruct (loopIdx2_inv v idx1 o1 x x s x0) as [Hr Hocc]; try done.
    destruct x0 as [s'|pb']; [|by simplify_eq].
    destruct (modified s') eqn:Hm; [by simplify_eq|].
    simpl in Hr. specialize (Hocc eq_refl).
    eapply IH; [exact Hr| |intros j Hj; apply Hsub; by right|exact H].
    by rewrite Hocc.
Qed.

Lemma selfSubVar_inv i s r : P s → selfSubVar i s = Ok r → flowPost P Q r.
Proof.
  intros HP H. unfold selfSubVar in H. res_inv.
  case_decide; [by simplify_eq|]. res_inv.
  case_decide; [|by simplify_eq].
  eapply loopIdx1_inv; [| |reflexivity|exact H]; [by apply Hlog|done].
Qed.

Lemma selfSubSweep_inv n i s r :
  P s → selfSubSweep n i s = Ok r → flowPost P Q r.
Proof.
  revert i s. induction n as [|n IH]; intros i s HP H; simpl in H.
  - by simplify_eq.
  - res_inv. pose proof (selfSubVar_inv _ _ _ HP H0) as Hr.
    destruct x; [|by simplify_eq]. by eapply IH.
Qed.

Lemma selfSubLoop_inv fuel s r :
  P s → selfSubLoop fuel s = Ok r → flowPost P Q r.
Proof.
  revert s. induction fuel as [|fuel IH]; intros s HP H; simpl in H; [done|].
  destruct (modified s); [|by simplify_eq]. res_inv.
  pose proof (selfSubSweep_inv _ _ _ _ (Hflag _ HP) H0) as Hr.
  destruct x; [|by simplify_eq]. by eapply IH.
Qed.

End SelfSubInvariant.

(** ** Invariants of the loops of Subsumption *)

Lemma setTrace_id pb : setTrace (trace pb) pb = pb.
Proof. by destruct pb. Qed.

Lemma extendsTrace_refl pb : extendsTrace pb pb.
Proof. exists []. by rewrite app_nil_r, setTrace_id. Qed.

Lemma extendsTrace_trans pb1 pb2 pb3 :
  extendsTrace pb1 pb2 → extendsTrace pb2 pb3 → extendsTrace pb1 pb3.
Proof.
  intros [e1 ->] [e2 ->]. exists (e1 ++ e2). simpl.
  by rewrite app_assoc.
Qed.

Lemma extendsTrace_log pb e : extendsTrace pb (logEvent e pb).
Proof. by exists [e]. Qed.

Section SubsumeInvariant.
Context `{ops : ClauseOps}.

Lemma subsumePair_extends idx1 idx2 a a' :
  subsumePair idx1 idx2 a = Ok a' → extendsTrace a.1 a'.1.
Proof.
  destruct a as [pb tr]. unfold subsumePair. intros H. res_inv.
  repeat case_decide; simplify_eq; simpl;
    eauto using extendsTrace_refl, extendsTrace_log, extendsTrace_trans.
Qed.

Variable occ : list (list nat).
Variable P : Problem * list nat → Prop.

Hypothesis Hpair : ∀ idx1 idx2 a a' v l o,
  P a → Model a.1 !! v = Some 0%Z →
  l = Var_Lit v ∨ l = Negation (Var_Lit v) →
  occ !! l = Some o → idx1 ∈ o → idx2 ∈ o →
  subsumePair idx1 idx2 a = Ok a' → P a'.
Hypothesis Hlog : ∀ a l, P a → P (logEvent (EvExamining l) a.1, a.2).

Lemma subsumeInner_inv idx1 o o' a a' v l :
  P a → Model a.1 !! v = Some 0%Z →
  l = Var_Lit v ∨ l = Negation (Var_Lit v) →
  occ !! l = Some o → idx1 ∈ o → o' ⊆ o →
  subsumeInner idx1 o' a = Ok a' → P a' ∧ extendsTrace a.1 a'.1.
Proof.
  revert a. induction o' as [|idx2 o' IH]; intros a HP Hm Hl Ho Hi1 Hsub H.
  - simpl in H. simplify_eq. eauto using extendsTrace_refl.
  - simpl in H. res_inv.
    assert (idx2 ∈ o) as Hi2 by (apply Hsub; left).
    pose proof (subsumePair_extends _ _ _ _ H0) as Hext.
    pose proof (Hpair _ _ _ _ _ _ _ HP Hm Hl Ho Hi1 Hi2 H0) as HPx.
    assert (Model x.1 !! v = Some 0%Z) as Hmx
      by (by destruct Hext as [evs ->]).
    assert (o' ⊆ o) as Hsub' by (intros j Hj; apply Hsub; by right).
    destruct (IH x HPx Hmx Hl Ho Hi1 Hsub' H) as [? ?].
    eauto using extendsTrace_trans.
Qed.

Lemma subsumeOuter_inv o o1 a a' v l :
  P a → Model a.1 !! v = Some 0%Z →
  l = Var_Lit v ∨ l = Negation (Var_Lit v) →
  occ !! l = Some o → o1 ⊆ o →
  subsumeOuter o1 o a = Ok a' → P a' ∧ extendsTrace a.1 a'.1.
Proof.
  revert a. induction o1 as [|idx1 o1 IH]; intros a HP Hm Hl Ho Hsub H.
  - simpl in H. simplify_eq. eauto using extendsTrace_refl.
  - simpl in H. res_inv.
    assert (idx1 ∈ o) as Hi1 by (apply Hsub; left).
    destruct (subsumeInner_inv idx1 o o a x v l) as [HPx Hext]; try done.
    assert (Model x.1 !! v = Some 0%Z) as Hmx
      by (by destruct Hext as [evs ->]).
    assert (o1 ⊆ o) as Hsub' by (intros j Hj; apply Hsub; by right).
    destruct (IH x HPx Hmx Hl Ho Hsub' H) as [? ?].
    eauto using extendsTrace_trans.
Qed.

Lemma subsumeVar_inv i a a' :
  P a → subsumeVar occ i a = Ok a' → P a' ∧ extendsTrace a.1 a'.1.
Proof.
  intros HP H. unfold subsumeVar in H. res_inv.
  case_decide as Hm; [simplify_eq; eauto using extendsTrace_refl|].
  subst x. res_inv.
  destruct (subsumeOuter_inv x x (logEvent (EvExamining (Var_Lit i)) a.1, a.2)
              x0 i (Var_Lit i)) as [HP1 He1]; auto.
  destruct (subsumeOuter_inv x1 x1 x0 a' i (Negation (Var_Lit i)))
    as [HP2 He2]; auto.
  { simpl in He1. by destruct He1 as [evs ->]. }
  split; [done|].
  eapply extendsTrace_trans; [|exact He2].
  eapply extendsTrace_trans; [|exact He1]. apply extendsTrace_log.
Qed.

Lemma subsumeSweep_inv n i a a' :
  P a → subsumeSweep occ n i a = Ok a' → P a' ∧ extendsTrace a.1 a'.1.
Proof.
  revert i a. induction n as [|n IH]; intros i a HP H; simpl in H.
  - simplify_eq. eauto using extendsTrace_refl.
  - res_inv. destruct (subsumeVar_inv _ _ _ HP H0) as [HP1 He1].
    destruct (IH _ _ HP1 H) as [HP2 He2].
    eauto using extendsTrace_trans.
Qed.

End SubsumeInvariant.

Lemma subsumeMark_extends `{ops : ClauseOps} pb pb' toRemove :
  subsumeMark pb = Ok (pb', toRemove) → extendsTrace pb pb'.
Proof.
  unfold subsumeMark. intros H. res_inv.
  by destruct (subsumeSweep_inv x (λ _, True)
                 (λ _ _ _ _ _ _ _ _ _ _ _ _ _ _, I)
                 (λ _ _ _, I) _ _ _ _ I H).
Qed.

(** ** The steps of SelfSub *)

Lemma bind_Ok_inv v b pb pb' :
  bind v b pb = Ok pb' →
  v < length (Model pb) ∧ pb' = setModel (<[v := b]> (Model pb)) pb.
Proof. unfold bind. case_decide; intros; by simplify_eq. Qed.

Lemma inferUnit_Ok lit2 pb r :
  inferUnit lit2 pb = Ok r →
  ∃ m, Model pb !! Lit_Var lit2 = Some m ∧
    let b := (if IsPositive lit2 then 1 else -1)%Z in
    (m = (- b)%Z ∧ r = Ret (setStatus Unsat pb)) ∨
    (m ≠ (- b)%Z ∧
     r = Go (let pb1 := setModel (<[Lit_Var lit2 := b]> (Model pb)) pb in
             if existsb (Nat.eqb lit2) (Units pb) then pb1
             else setUnits (Units pb ++ [lit2]) pb1)).
Proof.
  unfold inferUnit, bind. intros H. res_inv. exists x. split; [done|].
  destruct (IsPositive lit2); simpl.
  - destruct (Z.eqb_spec x (-1)); [simplify_eq; by left|].
    case_decide; simpl in H; simplify_eq. by right.
  - destruct (Z.eqb_spec x 1); [simplify_eq; by left|].
    case_decide; simpl in H; simplify_eq. by right.
Qed.

Lemma swapRemove_Ok i pb pb' :
  swapRemove i pb = Ok pb' →
  ∃ n last, length (Clauses pb) = S n ∧ Clauses pb !! n = Some last ∧
    i ≤ n ∧ pb' = setClauses (take n (<[i := last]> (Clauses pb))) pb.
Proof.
  unfold swapRemove. destruct (length (Clauses pb)) as [|n] eqn:Hn; [done|].
  intros H. res_inv. case_decide; [|done]. simplify_eq.
  exists n, x. split_and!; [done|done|lia|done].
Qed.

Section SelfSubSteps.
Context `{ops : ClauseOps}.

Lemma addResolvent_Ok newC pb r :
  addResolvent newC pb = Ok r →
  ∃ isSat c, Simplify newC = (isSat, c) ∧
    ((isSat = true ∧ r = Go pb) ∨
     (isSat = false ∧ c = [] ∧ r = Ret (setStatus Unsat pb)) ∨
     (isSat = false ∧ ∃ l, c = [l] ∧ inferUnit l pb = Ok r) ∨
     (isSat = false ∧ 2 ≤ length c ∧ r = Go (appendClause c pb))).
Proof.
  unfold addResolvent. destruct (Simplify newC) as [isSat c].
  intros H. exists isSat, c. split; [done|].
  destruct isSat; [simplify_eq; by left|].
  destruct c as [|l [|l' c]]; simpl in H.
  - simplify_eq. right; left. done.
  - right; right; left. split; [done|]. exists l. split; [done|].
    by res_inv.
  - simplify_eq. right; right; right. split; [done|]. simpl. split; [lia|done].
Qed.

(** What the resolvent step leaves alone. *)
Lemma addResolvent_status newC pb r :
  addResolvent newC pb = Ok r →
  match r with
  | Go pb' => status pb' = status pb
  | Ret pb' => status pb' = Unsat
  end.
Proof.
  intros H. apply addResolvent_Ok in H
    as (isSat & c & _ & [[_ ->]|[(_ & _ & ->)|[(_ & l & _ & H)|(_ & _ & ->)]]]);
    try done.
  apply inferUnit_Ok in H as (m & _ & [[_ ->]|[_ ->]]); [done|].
  simpl. by case_match.
Qed.

Lemma removals_status removals pb pb' :
  foldl (λ r i, pb ← r; swapRemove i pb) (Ok pb) removals = Ok pb' →
  status pb' = status pb ∧ Units pb' = Units pb ∧ Model pb' = Model pb ∧
  store pb' = store pb ∧ NbVars pb' = NbVars pb ∧ trace pb' = trace pb.
Proof.
  revert pb. induction removals as [|i removals IH]; intros pb H; simpl in H.
  - by simplify_eq.
  - destruct (swapRemove i pb) as [pb1| |] eqn:Hs; simpl in H.
    + apply IH in H. apply swapRemove_Ok in Hs as (n & last & _ & _ & _ & ->).
      done.
    + clear -H. exfalso. induction removals; simpl in H; [done|auto].
    + clear -H. exfalso. induction removals; simpl in H; [done|auto].
Qed.

Lemma pairStep_status v idx1 idx2 s r :
  pairStep v idx1 idx2 s = Ok r →
  match r with
  | PairNext s' | PairBreak s' => status (problem s') = status (problem s)
  | PairReturn pb' => status pb' = Unsat
  end.
Proof.
  unfold pairStep. intros H. res_inv.
  repeat first [progress res_inv | case_match]; simplify_eq; try done;
    repeat match goal with
    | H : addResolvent _ _ = Ok _ |- _ => apply addResolvent_status in H
    | H : removeAndRebuild _ _ _ _ _ = Ok _ |- _ =>
        apply removeAndRebuild_Ok in H;
        destruct H as (? & ? & [(? & ? & ? & H & ? & ?)|(? & ?)]);
        [apply removals_status in H|]
    end; simplify_eq; simpl in *; intuition congruence.
Qed.

Lemma selfSubLoop_status fuel s r :
  selfSubLoop fuel s = Ok r →
  flowPost (λ s', status (problem s') = status (problem s))
           (λ pb', status pb' = Unsat) r.
Proof.
  apply (selfSubLoop_inv (λ s', status (problem s') = status (problem s))
           (λ pb', status pb' = Unsat)); try done.
  intros v idx1 idx2 s1 r1 o1 o2 HP _ _ _ _ Hr.
  apply pairStep_status in Hr. destruct r1; congruence.
Qed.

Lemma SelfSub_status fuel pb pb' :
  SelfSub fuel pb = Ok pb' → statusStep pb pb'.
Proof.
  unfold SelfSub. intros H.
  apply bind_Ok in H as (occ & _ & H). apply bind_Ok in H as (r & Hl & H).
  apply selfSubLoop_status in Hl. destruct r as [s|pb1]; simpl in *.
  - destruct (neverModified s).
    + simplify_eq. by left.
    + apply Simplify2_status in H. unfold statusStep in *.
      rewrite <- Hl. exact H.
  - simplify_eq. right. by left.
Qed.

Lemma subsumeMark_clauses pb pb' toRemove :
  subsumeMark pb = Ok (pb', toRemove) →
  Clauses pb' = Clauses pb ∧ status pb' = status pb.
Proof. intros H. by apply subsumeMark_extends in H as [evs ->]. Qed.

Lemma Simplify2_nil pb pb' :
  Clauses pb = [] → Simplify2 pb = Ok pb' → Clauses pb' = [].
Proof.
  unfold Simplify2. intros ->. simpl. unfold updateStatus. simpl.
  repeat case_decide; intros; by simplify_eq.
Qed.

Lemma Subsumption_status pb pb' :
  Subsumption pb = Ok pb' →
  statusStep pb pb' ∧ (Clauses pb = [] → Clauses pb' = []).
Proof.
  unfold Subsumption. intros H.
  apply bind_Ok in H as ([pb1 toRemove] & Hm & H).
  apply bind_Ok in H as (occ & _ & H).
  apply subsumeMark_clauses in Hm as [Hc Hs].
  split.
  - apply Simplify2_status in H. unfold statusStep in *. simpl in *.
    by rewrite <- Hs.
  - intros Hnil. apply Simplify2_nil in H; [done|]. simpl.
    by rewrite Hc, Hnil.
Qed.

Lemma Preprocess_status fuel pb pb' :
  Preprocess fuel pb = Ok pb' → statusStep pb pb'.
Proof.
  unfold Preprocess. intros H. apply bind_Ok in H as (pb1 & H0 & H).
  apply SelfSub_status in H0. apply Subsumption_status in H as [H Hnil].
  unfold statusStep in *.
  destruct H0 as [H0|[H0|(H0 & H0' & H0'')]];
    destruct H as [H|[H|(H & H' & H'')]]; intuition congruence.
Qed.

End SelfSubSteps.

(** ** Simplify2 on a database in normal form *)

Lemma scanLits_unbound model c k j :
  j + k = length c → Forall (unboundLit model) c →
  scanLits model k c j (length c) = Ok (false, length c, c).
Proof.
  revert j. induction k as [|k IH]; intros j Hjk Hc; [done|].
  simpl. destruct (idx_lt c j ltac:(lia)) as (l & -> & Hl). simpl.
  assert (unboundLit model l) as Hu.
  { eapply Forall_forall; [exact Hc|]. by eapply list_elem_of_lookup_2. }
  unfold unboundLit in Hu. rewrite (proj2 (idx_Ok _ _ _) Hu). simpl.
  apply IH; [lia|done].
Qed.

Lemma setStore_id pb p c :
  store pb !! p = Some c → setStore (<[p := c]> (store pb)) pb = pb.
Proof. intros H. rewrite list_insert_id by done. by destruct pb. Qed.

Lemma scanClause_normal pb i nb rs p :
  normalized pb → Clauses pb !! i = Some p →
  scanClause pb i nb rs = Ok (ClauseNext pb (S i) nb rs).
Proof.
  intros Hn Hp. unfold scanClause.
  rewrite (proj2 (idx_Ok _ _ _) Hp). simpl.
  destruct (Hn p) as (c & Hc & Hlen & Hall);
    [by eapply list_elem_of_lookup_2|].
  rewrite (proj2 (idx_Ok _ _ _) Hc). simpl.
  rewrite (scanLits_unbound _ c (length c) 0) by done. simpl.
  rewrite setStore_id by done.
  repeat case_decide; try lia; done.
Qed.

Lemma scanClauses_normal k pb i nb rs :
  normalized pb → i + k ≤ length (Clauses pb) →
  scanClauses k pb i nb rs = Ok (ScanDone pb nb rs).
Proof.
  intros Hn. revert i. induction k as [|k IH]; intros i Hik; [done|].
  simpl. destruct (lookup_lt_is_Some_2 (Clauses pb) i ltac:(lia)) as [p Hp].
  rewrite (scanClause_normal _ _ _ _ p) by done. simpl.
  apply IH. lia.
Qed.

(** Propagation finds nothing to do: the database is left as it is, and
    [Status] becomes [Sat] if it was [Undetermined] with no clause. *)
Lemma Simplify2_normalized pb :
  normalized pb →
  Simplify2 pb =
    Ok (if decide (status pb = Undetermined ∧ Clauses pb = [])
        then setStatus Sat pb else pb).
Proof.
  intros Hn. unfold Simplify2. simpl.
  rewrite scanClauses_normal by (done || lia). simpl.
  unfold updateStatus. rewrite decide_True by lia.
  rewrite firstn_all. simpl.
  assert (setClauses (Clauses pb) pb = pb) as -> by (by destruct pb).
  destruct (decide (status pb = Undetermined ∧ length (Clauses pb) = 0))
    as [[H1 H2]|Hne].
  - apply length_zero_iff_nil in H2. by rewrite decide_True.
  - rewrite decide_False; [done|]. intros [H1 H2]. apply Hne.
    by rewrite H2.
Qed.

(** ** Status is monotone *)

Lemma statusStep_monotone pb pb' : statusStep pb pb' → statusMonotone pb pb'.
Proof. unfold statusStep, statusMonotone. intuition congruence. Qed.

(** C8. Whichever of [updateStatus], [addUnit], [Simplify2], [SelfSub],
    [Subsumption] and [Preprocess] takes [pb] to [pb']: if [Status] was
    [Unsat] it is still [Unsat], and if it went from [Undetermined] to
    [Sat] then the clause list of [pb'] is empty. *)
Theorem status_monotone `{ops : ClauseOps} (fuel nb : nat) (lit : Lit)
  (pb pb' : Problem) :
  updateStatus nb pb = Ok pb' ∨ addUnit lit pb = Ok pb' ∨
  Simplify2 pb = Ok pb' ∨ SelfSub fuel pb = Ok pb' ∨
  Subsumption pb = Ok pb' ∨ Preprocess fuel pb = Ok pb' →
  statusMonotone pb pb'.
Proof.
  intros [H|[H|[H|[H|[H|H]]]]]; apply statusStep_monotone.
  - by apply updateStatus_status in H.
  - apply addUnit_status in H. unfold statusStep. tauto.
  - by apply Simplify2_status.
  - by eapply SelfSub_status.
  - by apply Subsumption_status in H as [H _].
  - by eapply Preprocess_status.
Qed.

Lemma status_monotone_witness :
  ∃ pb', Simplify2 exPropagate = Ok pb' ∧ statusMonotone exPropagate pb'.
Proof.
  eexists. split; [vm_compute; reflexivity|].
  apply (@status_monotone refOps 0 0 0). right; right; left.
  vm_compute; reflexivity.
Defined.

(** ** Passes on a problem that is already Unsat *)

(** C3 fails: with [Status] already [Unsat], propagation still removes
    the satisfied clause of [exUnsatSatisfied]; and inside [Preprocess]
    on [exFour], [SelfSub] returns with [Unsat] and the [Subsumption]
    call that follows binds one more variable and records one more
    unit. *)
Lemma passes_after_Unsat_change_state :
  (status exUnsatSatisfied = Unsat ∧
   ∃ pb', Simplify2 exUnsatSatisfied = Ok pb' ∧
          Clauses pb' ≠ Clauses exUnsatSatisfied) ∧
  (∃ pb1 pb2, @SelfSub refOps 3 exFour = Ok pb1 ∧ status pb1 = Unsat ∧
     @Subsumption refOps pb1 = Ok pb2 ∧
     Units pb2 ≠ Units pb1 ∧ Model pb2 ≠ Model pb1).
Proof.
  split.
  - split; [done|]. eexists. split; [vm_compute; reflexivity|].
    simpl. discriminate.
  - eexists. eexists. split; [vm_compute; reflexivity|]. split; [done|].
    split; [vm_compute; reflexivity|]. simpl. split; discriminate.
Qed.

(** C3, amended. With [Status] already [Unsat], each of the passes
    leaves [Status] at [Unsat]; propagation changes nothing at all when
    the database is in normal form. *)
Theorem Unsat_is_kept `{ops : ClauseOps} (fuel : nat) (pb pb' : Problem) :
  status pb = Unsat →
  (SelfSub fuel pb = Ok pb' → status pb' = Unsat) ∧
  (Subsumption pb = Ok pb' → status pb' = Unsat) ∧
  (Simplify2 pb = Ok pb' → status pb' = Unsat ∧ (normalized pb → pb' = pb)).
Proof.
  intros Hu. split_and!.
  - intros H. apply SelfSub_status in H. unfold statusStep in H.
    intuition congruence.
  - intros H. apply Subsumption_status in H as [H _]. unfold statusStep in H.
    intuition congruence.
  - intros H. split.
    + apply Simplify2_status in H. unfold statusStep in H.
      intuition congruence.
    + intros Hn. rewrite (Simplify2_normalized _ Hn) in H.
      rewrite decide_False in H by (intros [? _]; congruence).
      by simplify_eq.
Qed.

Lemma Unsat_is_kept_witness :
  Simplify2 exUnsatNormal = Ok exUnsatNormal ∧ status exUnsatNormal = Unsat.
Proof.
  split; [vm_compute; reflexivity|].
  apply (proj2 (proj2 (@Unsat_is_kept refOps 0 exUnsatNormal exUnsatNormal
                         eq_refl))).
  vm_compute; reflexivity.
Defined.

(** ** Which variables SelfSub examines *)

Lemma traceGrows_refl pb : traceGrows pb pb.
Proof. exists []. by rewrite app_nil_r. Qed.

Lemma traceGrows_trans pb1 pb2 pb3 :
  traceGrows pb1 pb2 → traceGrows pb2 pb3 → traceGrows pb1 pb3.
Proof.
  intros [e1 H1] [e2 H2]. exists (e1 ++ e2). by rewrite H2, H1, app_assoc.
Qed.

Section Examined.
Context `{ops : ClauseOps}.

Lemma addResolvent_trace newC pb r :
  addResolvent newC pb = Ok r →
  match r with Go pb' | Ret pb' => trace pb' = trace pb end.
Proof.
  intros H. apply addResolvent_Ok in H
    as (isSat & c & _ & [[_ ->]|[(_ & _ & ->)|[(_ & l & _ & H)|(_ & _ & ->)]]]);
    try done.
  apply inferUnit_Ok in H as (m & _ & [[_ ->]|[_ ->]]); [done|].
  simpl. by case_match.
Qed.

Lemma pairStep_trace v idx1 idx2 s r :
  pairStep v idx1 idx2 s = Ok r →
  trace (pairProblem r) = trace (problem s) ++ [EvPair (Var_Lit v) idx1 idx2].
Proof.
  unfold pairStep. intros H. res_inv.
  repeat first [progress res_inv | case_match]; simplify_eq; try done;
    repeat match goal with
    | H : addResolvent _ _ = Ok _ |- _ => apply addResolvent_trace in H
    | H : removeAndRebuild _ _ _ _ _ = Ok _ |- _ =>
        apply removeAndRebuild_Ok in H;
        destruct H as (? & ? & [(? & ? & ? & H & ? & ?)|(? & ?)]);
        [apply removals_status in H|]
    end; simplify_eq; simpl in *; intuition congruence.
Qed.

(** With no clause holding the negated literal, the loop over [idx1]
    tests no pair. *)
Lemma loopIdx1_no_negative v o1 s :
  occurs s !! Negation (Var_Lit v) = Some [] →
  loopIdx1 v o1 s = Ok (Go s).
Proof.
  intros Ho. induction o1 as [|idx1 o1 IH]; [done|].
  simpl. rewrite (proj2 (idx_Ok _ _ _) Ho). simpl.
  by destruct (modified s).
Qed.

Lemma loopIdx1_trace v o1 o1' s r :
  occurs s !! Var_Lit v = Some o1 → o1' ⊆ o1 →
  loopIdx1 v o1' s = Ok r → traceGrows (problem s) (flowProblem r).
Proof.
  intros Ho Hsub H.
  assert (flowPost (λ s', traceGrows (problem s) (problem s'))
            (λ pb', traceGrows (problem s) pb') r) as Hr.
  { eapply (loopIdx1_inv (λ s', traceGrows (problem s) (problem s'))
              (λ pb', traceGrows (problem s) pb'));
      [|apply traceGrows_refl|exact Ho|exact Hsub|exact H].
    intros v' i1 i2 s1 r1 o3 o4 HP _ _ _ _ Hr.
    apply pairStep_trace in Hr.
    assert (traceGrows (problem s) (pairProblem r1))
      by (eapply traceGrows_trans; [exact HP|by eexists]).
    by destruct r1. }
  by destruct r.
Qed.

(** C5. When the turn of [SelfSub] for variable [i] tests a pair of
    clauses, the variable is unbound, one of the two occurrence lists
    has fewer than 10 entries and neither is empty; for any other
    variable the turn tests no pair. *)
Theorem pair_tests_only_for_examined_variables (i : nat) (s : SelfSubState)
  (r : flow SelfSubState) :
  selfSubVar i s = Ok r →
  ∃ evs, trace (flowProblem r) = trace (problem s) ++ evs ∧
    ((∃ l a b, EvPair l a b ∈ evs) →
     ∃ o1 o2, Model (problem s) !! i = Some 0%Z ∧
       occurs s !! Var_Lit i = Some o1 ∧
       occurs s !! Negation (Var_Lit i) = Some o2 ∧
       (length o1 < 10 ∨ length o2 < 10) ∧
       length o1 ≠ 0 ∧ length o2 ≠ 0).
Proof.
  intros H. unfold selfSubVar in H.
  apply bind_Ok in H as (m & Hm & H). apply idx_Ok in Hm.
  assert (∀ evs : list Event, evs = [] → ¬ ∃ l a b, EvPair l a b ∈ evs)
    as Hnone.
  { intros evs -> (l & a & b & Hin). by apply elem_of_nil in Hin. }
  case_decide as Hbound.
  { simplify_eq. exists []. rewrite app_nil_r. split; [done|].
    intros Hp. by destruct (Hnone [] eq_refl). }
  subst m.
  apply bind_Ok in H as (o1 & Ho1 & H). apply idx_Ok in Ho1.
  apply bind_Ok in H as (o2 & Ho2 & H). apply idx_Ok in Ho2.
  case_decide as Hguard.
  2:{ simplify_eq. exists []. rewrite app_nil_r. split; [done|].
      intros Hp. by destruct (Hnone [] eq_refl). }
  destruct Hguard as [Hsmall Hnz].
  set (s1 := mkSelfSub (logEvent (EvExamining (Var_Lit i)) (problem s))
               (occurs s) (modified s) (neverModified s)) in *.
  destruct o1 as [|a1 o1].
  { simpl in H. simplify_eq. exists [EvExamining (Var_Lit i)].
    split; [done|]. intros (l & a & b & Hin).
    apply list_elem_of_singleton in Hin. discriminate. }
  destruct o2 as [|a2 o2].
  { rewrite (loopIdx1_no_negative i _ s1) in H by done. simplify_eq.
    exists [EvExamining (Var_Lit i)].
    split; [done|]. intros (l & a & b & Hin).
    apply list_elem_of_singleton in Hin. discriminate. }
  apply (loopIdx1_trace i (a1 :: o1)) in H as [evs Hevs]; [|done|done].
  exists ([EvExamining (Var_Lit i)] ++ evs). split.
  { rewrite Hevs. simpl. by rewrite <- app_assoc. }
  intros _. exists (a1 :: o1), (a2 :: o2). simpl. split_and!; auto.
Qed.

End Examined.

(** ** The occurrence lists *)

Lemma addOccurrence_Ok i occ l occ' :
  addOccurrence i occ l = Ok occ' →
  ∃ o, occ !! l = Some o ∧ occ' = <[l := o ++ [i]]> occ.
Proof. unfold addOccurrence. intros H. res_inv. simplify_eq. eauto. Qed.

Lemma occursLits_Ok i c occ occ' :
  occursLits i c occ = Ok occ' →
  length occ' = length occ ∧ Forall (λ l, l < length occ) c ∧
  ∀ l o', occ' !! l = Some o' →
    ∃ o, occ !! l = Some o ∧ ∀ j, j ∈ o' ↔ j ∈ o ∨ (j = i ∧ l ∈ c).
Proof.
  revert occ. induction c as [|l0 c IH]; intros occ H; simpl in H.
  - simplify_eq. split_and!; [done|constructor|].
    intros l o' Ho. exists o'. split; [done|]. intros j.
    rewrite elem_of_nil. tauto.
  - apply bind_Ok in H as (occ1 & Ha & H).
    apply addOccurrence_Ok in Ha as (o0 & Ho0 & ->).
    apply IH in H as (Hlen & Hall & Hocc).
    rewrite length_insert in Hlen, Hall.
    split_and!; [done|constructor; [by eapply lookup_lt_Some|done]|].
    intros l o' Ho'. destruct (Hocc l o' Ho') as (o & Ho & Hj).
    destruct (decide (l = l0)) as [->|Hne].
    + rewrite list_lookup_insert_eq in Ho by (by eapply lookup_lt_Some).
      simplify_eq. exists o0. split; [done|]. intros j. rewrite Hj.
      rewrite elem_of_app, list_elem_of_singleton, elem_of_cons. tauto.
    + rewrite list_lookup_insert_ne in Ho by done.
      exists o. split; [done|]. intros j. rewrite Hj, elem_of_cons.
      intuition congruence.
Qed.

Lemma occursFrom_Ok h i0 cl occ occ' :
  occursFrom h i0 cl occ = Ok occ' →
  length occ' = length occ ∧
  ∀ l o', occ' !! l = Some o' →
    ∃ o, occ !! l = Some o ∧
      ∀ j, j ∈ o' ↔
        j ∈ o ∨ ∃ k p c, cl !! k = Some p ∧ j = i0 + k ∧
                         h !! p = Some c ∧ l ∈ c.
Proof.
  revert i0 occ. induction cl as [|p cl IH]; intros i0 occ H; simpl in H.
  - simplify_eq. split; [done|]. intros l o' Ho. exists o'. split; [done|].
    intros j. split; [auto|]. intros [?|(k & ? & ? & Hk & _)]; [done|].
    by rewrite lookup_nil in Hk.
  - apply bind_Ok in H as (c & Hc & H). apply idx_Ok in Hc.
    apply bind_Ok in H as (occ1 & H1 & H).
    apply occursLits_Ok in H1 as (Hlen1 & _ & Hocc1).
    apply IH in H as (Hlen & Hocc).
    split; [congruence|]. intros l o' Ho'.
    destruct (Hocc l o' Ho') as (o1 & Ho1 & Hj1).
    destruct (Hocc1 l o1 Ho1) as (o & Ho & Hj).
    exists o. split; [done|]. intros j. rewrite Hj1, Hj. split.
    + intros [[?|[-> Hl]]|(k & q & d & Hk & -> & Hq & Hd)]; [by left|..].
      * right. exists 0, p, c. split_and!; [done|lia|done|done].
      * right. exists (S k), q, d. split_and!; [done|lia|done|done].
    + intros [?|(k & q & d & Hk & -> & Hq & Hd)]; [by left; left|].
      destruct k as [|k]; simpl in Hk.
      * simplify_eq. left; right. split; [lia|done].
      * right. exists k, q, d. split_and!; [done|lia|done|done].
Qed.

Lemma buildOccurs_Ok pb occ : buildOccurs pb = Ok occ → occursOf pb occ.
Proof.
  unfold buildOccurs. intros H. apply occursFrom_Ok in H as (Hlen & Hocc).
  rewrite length_replicate in Hlen. split; [done|].
  intros l o Ho i. destruct (Hocc l o Ho) as (o0 & Ho0 & Hj).
  apply lookup_replicate in Ho0 as [-> _]. rewrite Hj.
  unfold clauseAt. split.
  - intros [Hnil|(k & p & c & Hk & -> & Hp & Hl)];
      [by apply elem_of_nil in Hnil|].
    exists c.
    simpl. rewrite Hk. simpl. by rewrite Hp.
  - intros (c & Hc & Hl). right.
    destruct (Clauses pb !! i) as [p|] eqn:Hp; simpl in Hc; [|done].
    exists i, p, c. split_and!; [done|lia|done|done].
Qed.

Lemma occursLits_total i c occ :
  Forall (λ l, l < length occ) c → ∃ occ', occursLits i c occ = Ok occ'.
Proof.
  revert occ. induction c as [|l c IH]; intros occ Hc; simpl; [eauto|].
  inversion Hc as [|? ? Hl Hc']; subst.
  unfold addOccurrence. destruct (idx_lt occ l Hl) as (o & -> & _). simpl.
  apply IH. by rewrite length_insert.
Qed.

Lemma occursFrom_total h i0 cl occ :
  (∀ p, p ∈ cl → ∃ c, h !! p = Some c ∧ Forall (λ l, l < length occ) c) →
  ∃ occ', occursFrom h i0 cl occ = Ok occ'.
Proof.
  revert i0 occ. induction cl as [|p cl IH]; intros i0 occ Hcl; simpl; [eauto|].
  destruct (Hcl p) as (c & Hc & Hall); [by left|].
  rewrite (proj2 (idx_Ok _ _ _) Hc). simpl.
  destruct (occursLits_total i0 c occ Hall) as (occ1 & H1). rewrite H1. simpl.
  apply occursLits_Ok in H1 as (Hlen & _). apply IH.
  intros q Hq. rewrite Hlen. apply Hcl. by right.
Qed.

Lemma buildOccurs_total pb : wfClauses pb → ∃ occ, buildOccurs pb = Ok occ.
Proof.
  intros Hwf. apply occursFrom_total. intros p Hp.
  rewrite length_replicate. by apply Hwf.
Qed.

(** ** Removal by swapping with the last clause *)

Lemma swap_take_Permutation {A} (l : list A) (n i : nat) (x last : A) :
  length l = S n → i ≤ n → l !! i = Some x → l !! n = Some last →
  x :: take n (<[i := last]> l) ≡ₚ l.
Proof.
  intros Hlen Hi Hx Hlast.
  assert (l = take n l ++ [last]) as Hl.
  { rewrite <- (take_drop n l) at 1. f_equal.
    rewrite (drop_S l last n Hlast). f_equal. apply drop_ge. lia. }
  assert (length (take n l) = n) as Hn by (rewrite length_take; lia).
  destruct (decide (i = n)) as [->|Hne].
  - rewrite list_insert_id by done. assert (x = last) as -> by congruence.
    rewrite Hl at 2. apply Permutation_cons_append.
  - assert (i < n) as Hlt by lia.
    assert (take n l !! i = Some x) as Hx'.
    { by rewrite lookup_take_lt. }
    rewrite Hl at 1. rewrite insert_app_l by lia.
    rewrite take_app_length' by (by rewrite length_insert).
    rewrite Hl at 2. rewrite <- Permutation_cons_append.
    rewrite insert_take_drop by lia.
    rewrite <- (take_drop_middle (take n l) i x Hx') at 3.
    rewrite <- !Permutation_middle. apply perm_swap.
Qed.

Lemma swapRemove_Permutation i pb pb' :
  swapRemove i pb = Ok pb' →
  ∃ x, Clauses pb !! i = Some x ∧ x :: Clauses pb' ≡ₚ Clauses pb ∧
    pb' = setClauses (Clauses pb') pb.
Proof.
  intros H. apply swapRemove_Ok in H as (n & last & Hlen & Hlast & Hi & ->).
  destruct (lookup_lt_is_Some_2 (Clauses pb) i ltac:(lia)) as [x Hx].
  exists x. split; [done|]. split; [|done]. simpl.
  by apply swap_take_Permutation.
Qed.

Lemma swapRemove_total i pb :
  i < length (Clauses pb) → ∃ pb', swapRemove i pb = Ok pb'.
Proof.
  intros Hi. unfold swapRemove.
  destruct (length (Clauses pb)) as [|n] eqn:Hn; [lia|].
  destruct (idx_lt (Clauses pb) n ltac:(lia)) as (last & -> & _). simpl.
  rewrite decide_True by lia. eauto.
Qed.

Lemma clauseAt_Some pb i c :
  clauseAt pb i = Some c ↔
  ∃ p, Clauses pb !! i = Some p ∧ store pb !! p = Some c.
Proof.
  unfold clauseAt. destruct (Clauses pb !! i) as [p|]; simpl.
  - split; [eauto|]. by intros (? & ? & ?); simplify_eq.
  - split; [done|]. by intros (? & ? & ?).
Qed.

(** Reading the pointers of a well-formed database reads a clause for
    each of them, also after other objects were added to the store. *)
Lemma omap_store_app (h h' : list (list nat)) (cl : list nat) :
  (∀ p, p ∈ cl → is_Some (h !! p)) →
  omap (λ p, (h ++ h') !! p) cl = omap (λ p, h !! p) cl.
Proof.
  intros Hcl. induction cl as [|p cl IH]; [done|]. simpl.
  destruct (Hcl p) as [c Hc]; [by left|].
  rewrite (lookup_app_l_Some _ _ _ _ Hc), Hc. f_equal.
  apply IH. intros q Hq. apply Hcl. by right.
Qed.

(** ** The branch of SelfSub where both directions hold *)

(** C4. The clauses [c1] and [c2] stand at two positions [idx1] and
    [idx2] of the database, each self-subsumes the other, and their
    resolvent [R] is no tautology and has two literals or more. Then the
    turn for this pair ends with a [break], and its database is the
    former one without [c1] and [c2] and with [R], as multisets; this
    holds wherever the two positions are, the last one included. *)
Theorem both_directions_replace_the_pair `{ops : ClauseOps}
  (v idx1 idx2 : nat) (s : SelfSubState) (c1 c2 R : list nat)
  (o2 : list nat) :
  wfClauses (problem s) →
  clauseAt (problem s) idx1 = Some c1 →
  clauseAt (problem s) idx2 = Some c2 →
  idx1 ≠ idx2 →
  occurs s !! Negation (Var_Lit v) = Some o2 → idx2 ∈ o2 →
  SelfSubsumes c1 c2 = true → SelfSubsumes c2 c1 = true →
  Simplify (Generate c1 c2 v) = (false, R) →
  2 ≤ length R → litsInRange (NbVars (problem s)) R →
  ∃ s', pairStep v idx1 idx2 s = Ok (PairBreak s') ∧
    c1 :: c2 :: clausesOf (problem s') ≡ₚ R :: clausesOf (problem s).
Proof.
  intros Hwf H1 H2 Hne Ho2 Hin HP HN HS HR HRr.
  apply clauseAt_Some in H1 as (p1 & Hp1 & Hc1).
  apply clauseAt_Some in H2 as (p2 & Hp2 & Hc2).
  pose proof (lookup_lt_Some _ _ _ Hp1) as Hlt1.
  pose proof (lookup_lt_Some _ _ _ Hp2) as Hlt2.
  set (pb := problem s) in *.
  set (pbA := appendClause R (logEvent (EvPair (Var_Lit v) idx1 idx2) pb)).
  destruct (swapRemove_total idx1 pbA) as [pbB HB].
  { simpl. rewrite length_app. simpl. lia. }
  pose proof HB as HB'.
  apply swapRemove_Ok in HB' as (n & last & Hlen & Hlast & _ & HpbB).
  simpl in Hlen, Hlast. rewrite length_app in Hlen. simpl in Hlen.
  assert (n = length (Clauses pb)) as -> by lia.
  rewrite lookup_app_r in Hlast by lia.
  rewrite Nat.sub_diag in Hlast. simpl in Hlast. injection Hlast as <-.
  assert (Clauses pbB = <[idx1 := length (store pb)]> (Clauses pb)) as HclB.
  { rewrite HpbB. simpl. rewrite insert_app_l by lia.
    by rewrite take_app_length' by (by rewrite length_insert). }
  destruct (swapRemove_total idx2 pbB) as [pbC HC].
  { rewrite HclB, length_insert. lia. }
  destruct (swapRemove_Permutation _ _ _ HB) as (x1 & Hx1 & Hperm1 & _).
  destruct (swapRemove_Permutation _ _ _ HC) as (x2 & Hx2 & Hperm2 & HpbC).
  simpl in Hx1. rewrite lookup_app_l in Hx1 by lia.
  assert (x1 = p1) as -> by congruence.
  rewrite HclB, list_lookup_insert_ne in Hx2 by done.
  assert (x2 = p2) as -> by congruence.
  assert (p1 :: p2 :: Clauses pbC ≡ₚ length (store pb) :: Clauses pb) as Hperm.
  { rewrite Hperm2, Hperm1. simpl. by rewrite <- Permutation_cons_append. }
  assert (store pbC = store pb ++ [R]) as Hst.
  { rewrite HpbC, HpbB. done. }
  assert (NbVars pbC = NbVars pb) as Hnv.
  { rewrite HpbC, HpbB. done. }
  assert (∀ p, p ∈ Clauses pb → is_Some (store pb !! p)) as Hvalid.
  { intros p Hp. destruct (Hwf p Hp) as (c & Hc & _). eauto. }
  destruct (buildOccurs_total pbC) as [occ Hocc].
  { intros p Hp. rewrite Hst, Hnv.
    assert (p ∈ length (store pb) :: Clauses pb) as Hp'.
    { rewrite <- Hperm. by do 2 right. }
    apply elem_of_cons in Hp' as [->|Hp'].
    - exists R. split; [|done]. rewrite lookup_app_r by lia.
      by rewrite Nat.sub_diag.
    - destruct (Hwf p Hp') as (c & Hc & Hr). exists c. split; [|done].
      by apply lookup_app_l_Some. }
  exists (mkSelfSub pbC occ true false). split.
  - unfold pairStep. fold pb. simpl.
    rewrite (proj2 (idx_Ok _ _ _) Hp1), (proj2 (idx_Ok _ _ _) Hp2). simpl.
    rewrite (proj2 (idx_Ok _ _ _) Hc1), (proj2 (idx_Ok _ _ _) Hc2). simpl.
    rewrite HP, HN. simpl. unfold addResolvent. rewrite HS.
    destruct R as [|l0 [|l1 R]]; simpl in HR; [lia|lia|]. simpl.
    unfold removeAndRebuild. rewrite (proj2 (idx_Ok _ _ _) Ho2). simpl.
    rewrite decide_True.
    2:{ destruct o2; [by apply elem_of_nil in Hin|simpl; lia]. }
    simpl. fold pbA. rewrite HB. simpl. rewrite HC. simpl.
    by rewrite Hocc.
  - simpl. unfold clausesOf. rewrite Hst.
    assert (omap (λ p, (store pb ++ [R]) !! p)
              (p1 :: p2 :: Clauses pbC) =
            c1 :: c2 :: omap (λ p, (store pb ++ [R]) !! p) (Clauses pbC))
      as <-.
    { simpl. by rewrite (lookup_app_l_Some _ _ _ _ Hc1),
                        (lookup_app_l_Some _ _ _ _ Hc2). }
    rewrite Hperm. simpl. rewrite lookup_app_r by lia.
    rewrite Nat.sub_diag. simpl. by rewrite omap_store_app.
Qed.

Lemma both_directions_replace_the_pair_witness :
  ∃ s', @pairStep refOps 0 0 1 exBoth = Ok (PairBreak s') ∧
    [0; 2; 4] :: [1; 2; 4] :: clausesOf (problem s') ≡ₚ
    [2; 4] :: clausesOf (problem exBoth).
Proof.
  apply (@both_directions_replace_the_pair refOps 0 0 1 exBoth
           [0; 2; 4] [1; 2; 4] [2; 4] [1]).
  - intros p Hp. simpl in Hp.
    repeat (apply elem_of_cons in Hp as [->|Hp]);
      [..|by apply elem_of_nil in Hp];
      eexists; (split; [reflexivity|]); repeat constructor; simpl; lia.
  - reflexivity.
  - reflexivity.
  - lia.
  - reflexivity.
  - by left.
  - reflexivity.
  - reflexivity.
  - reflexivity.
  - simpl. lia.
  - repeat constructor; simpl; lia.
Defined.

Lemma pair_tests_only_for_examined_variables_witness :
  ∃ r evs, @selfSubVar refOps 0 exBoth = Ok r ∧
    trace (flowProblem r) = trace (problem exBoth) ++ evs ∧
    ((∃ l a b, EvPair l a b ∈ evs) →
     ∃ o1 o2, Model (problem exBoth) !! 0 = Some 0%Z ∧
       occurs exBoth !! Var_Lit 0 = Some o1 ∧
       occurs exBoth !! Negation (Var_Lit 0) = Some o2 ∧
       (length o1 < 10 ∨ length o2 < 10) ∧
       length o1 ≠ 0 ∧ length o2 ≠ 0).
Proof.
  eexists.
  assert (∀ r (P : list Event → Prop),
            @selfSubVar refOps 0 exBoth = Ok r →
            (∃ evs, P evs) →
            ∃ evs, @selfSubVar refOps 0 exBoth = Ok r ∧ P evs) as Hex.
  { intros r P Hr [evs Hevs]. eauto. }
  apply Hex; [vm_compute; reflexivity|].
  apply (@pair_tests_only_for_examined_variables refOps 0 exBoth).
  vm_compute; reflexivity.
Defined.

(** ** Literals *)

Lemma Negation_Var_Lit v : Negation (Var_Lit v) = 2 * v + 1.
Proof.
  unfold Negation, Var_Lit. symmetry. apply Nat.add_nocarry_lxor.
  assert (Nat.land (2 * v) (Nat.ones 1) = 0) as H; [|exact H].
  rewrite Nat.land_ones, Nat.pow_1_r, Nat.mul_comm.
  apply Nat.Div0.mod_mul.
Qed.

Lemma Negation_involutive l : Negation (Negation l) = l.
Proof.
  unfold Negation. by rewrite Nat.lxor_assoc, Nat.lxor_nilpotent, Nat.lxor_0_r.
Qed.

Lemma Lit_cases l : l = Var_Lit (Lit_Var l) ∨ l = Negation (Var_Lit (Lit_Var l)).
Proof.
  rewrite Negation_Var_Lit. unfold Var_Lit, Lit_Var.
  pose proof (Nat.div_mod_eq l 2) as H.
  pose proof (Nat.mod_upper_bound l 2 ltac:(lia)) as H'. lia.
Qed.

Lemma Lit_Var_Var_Lit v : Lit_Var (Var_Lit v) = v.
Proof. unfold Lit_Var, Var_Lit. rewrite Nat.mul_comm. by apply Nat.div_mul. Qed.

Lemma Lit_Var_Negation l : Lit_Var (Negation l) = Lit_Var l.
Proof.
  destruct (Lit_cases l) as [H|H]; rewrite H at 1.
  - rewrite Negation_Var_Lit. unfold Lit_Var at 1.
    rewrite Nat.mul_comm, Nat.div_add_l by lia. simpl. lia.
  - rewrite Negation_involutive. apply Lit_Var_Var_Lit.
Qed.

Lemma IsPositive_Var_Lit v : IsPositive (Var_Lit v) = true.
Proof. unfold IsPositive, Var_Lit. rewrite Nat.even_mul. done. Qed.

Lemma IsPositive_Negation l : IsPositive (Negation l) = negb (IsPositive l).
Proof.
  assert (∀ v, IsPositive (2 * v + 1) = false) as Hodd.
  { intros v. unfold IsPositive. rewrite Nat.even_add, Nat.even_mul. done. }
  destruct (Lit_cases l) as [H|H]; rewrite H.
  - rewrite IsPositive_Var_Lit, Negation_Var_Lit. apply Hodd.
  - rewrite Negation_involutive, IsPositive_Var_Lit, Negation_Var_Lit.
    by rewrite Hodd.
Qed.

Lemma Negation_neq l : Negation l ≠ l.
Proof.
  intros H. pose proof (IsPositive_Negation l) as H'. rewrite H in H'.
  by destruct (IsPositive l).
Qed.

(** ** What the Subsumption pass marks *)

Lemma extendsTrace_clauseAt pb pb' i :
  extendsTrace pb pb' → clauseAt pb' i = clauseAt pb i.
Proof. by intros [evs ->]. Qed.

Section Marking.
Context `{ops : ClauseOps}.

Lemma subsumedBy_ext pb pb' k m :
  extendsTrace pb pb' → subsumedBy pb' k m ↔ subsumedBy pb k m.
Proof.
  intros He. unfold subsumedBy.
  by setoid_rewrite (extendsTrace_clauseAt _ _ _ He).
Qed.

Lemma pairMarks_ext pb pb' idx1 idx2 k :
  extendsTrace pb pb' → pairMarks pb' idx1 idx2 k ↔ pairMarks pb idx1 idx2 k.
Proof.
  intros He. unfold pairMarks. by rewrite !(subsumedBy_ext _ _ _ _ He).
Qed.

Lemma subsumePair_marks idx1 idx2 pb tr pb' tr' :
  subsumePair idx1 idx2 (pb, tr) = Ok (pb', tr') →
  ∀ k, k ∈ tr' ↔ k ∈ tr ∨ pairMarks pb idx1 idx2 k.
Proof.
  unfold subsumePair. intros H.
  apply bind_Ok in H as (p1 & Hp1 & H). apply idx_Ok in Hp1.
  apply bind_Ok in H as (p2 & Hp2 & H). apply idx_Ok in Hp2.
  apply bind_Ok in H as (c1 & Hc1 & H). apply idx_Ok in Hc1.
  apply bind_Ok in H as (c2 & Hc2 & H). apply idx_Ok in Hc2.
  assert (clauseAt pb idx1 = Some c1) as H1
    by (apply clauseAt_Some; eauto).
  assert (clauseAt pb idx2 = Some c2) as H2
    by (apply clauseAt_Some; eauto).
  assert (∀ a b ca cb, clauseAt pb a = Some ca → clauseAt pb b = Some cb →
            (subsumedBy pb a b ↔ length cb < length ca ∧ Subsumes cb ca = true))
    as Hsb.
  { intros a b ca cb Ha Hb. unfold subsumedBy. split.
    - intros (? & ? & ? & ? & ? & ?). by simplify_eq.
    - intros [? ?]. eauto 10. }
  intros k. unfold pairMarks.
  rewrite (Hsb _ _ _ _ H1 H2), (Hsb _ _ _ _ H2 H1).
  case_decide as Hle.
  { simplify_eq. split; [auto|]. intros [?|[? _]]; [done|lia]. }
  destruct (decide (length c2 < length c1)) as [Hl1|Hl1];
    destruct (decide (length c1 < length c2)) as [Hl2|Hl2];
    try lia; simplify_eq.
  - destruct (Subsumes c2 c1) eqn:Hs.
    + rewrite elem_of_app, list_elem_of_singleton. intuition (lia || auto).
    + intuition (lia || congruence).
  - destruct (Subsumes c1 c2) eqn:Hs.
    + rewrite elem_of_app, list_elem_of_singleton. intuition (lia || auto).
    + intuition (lia || congruence).
  - intuition (lia || congruence).
Qed.

Lemma subsumeInner_marks idx1 o pb tr pb' tr' :
  subsumeInner idx1 o (pb, tr) = Ok (pb', tr') →
  extendsTrace pb pb' ∧
  ∀ k, k ∈ tr' ↔ k ∈ tr ∨ ∃ idx2, idx2 ∈ o ∧ pairMarks pb idx1 idx2 k.
Proof.
  revert pb tr. induction o as [|idx2 o IH]; intros pb tr H; simpl in H.
  - simplify_eq. split; [apply extendsTrace_refl|]. intros k.
    split; [auto|]. intros [?|(? & Hin & _)]; [done|].
    by apply elem_of_nil in Hin.
  - apply bind_Ok in H as ([pb1 tr1] & H1 & H).
    pose proof (subsumePair_extends _ _ _ _ H1) as He1. simpl in He1.
    pose proof (subsumePair_marks _ _ _ _ _ _ H1) as Hm1.
    apply IH in H as [He Hm].
    split; [by eapply extendsTrace_trans|].
    intros k. rewrite Hm, Hm1. setoid_rewrite (pairMarks_ext _ _ _ _ _ He1).
    setoid_rewrite elem_of_cons. split.
    + intros [[?|?]|(j & ? & ?)]; eauto.
    + intros [?|(j & [->|?] & ?)]; eauto.
Qed.

Lemma subsumeOuter_marks o1 o pb tr pb' tr' :
  subsumeOuter o1 o (pb, tr) = Ok (pb', tr') →
  extendsTrace pb pb' ∧
  ∀ k, k ∈ tr' ↔
    k ∈ tr ∨ ∃ idx1 idx2, idx1 ∈ o1 ∧ idx2 ∈ o ∧ pairMarks pb idx1 idx2 k.
Proof.
  revert pb tr. induction o1 as [|idx1 o1 IH]; intros pb tr H; simpl in H.
  - simplify_eq. split; [apply extendsTrace_refl|]. intros k.
    split; [auto|]. intros [?|(? & ? & Hin & _)]; [done|].
    by apply elem_of_nil in Hin.
  - apply bind_Ok in H as ([pb1 tr1] & H1 & H).
    apply subsumeInner_marks in H1 as [He1 Hm1].
    apply IH in H as [He Hm].
    split; [by eapply extendsTrace_trans|].
    intros k. rewrite Hm, Hm1. setoid_rewrite (pairMarks_ext _ _ _ _ _ He1).
    setoid_rewrite elem_of_cons. split.
    + intros [[?|(j & ? & ?)]|(j1 & j2 & ? & ? & ?)]; eauto 10.
    + intros [?|(j1 & j2 & [->|?] & ? & ?)]; eauto 10.
Qed.

Lemma varMarks_ext pb pb' occ i k :
  extendsTrace pb pb' → varMarks pb' occ i k ↔ varMarks pb occ i k.
Proof.
  intros He. unfold varMarks.
  setoid_rewrite (pairMarks_ext _ _ _ _ _ He). by destruct He as [evs ->].
Qed.

Lemma subsumeVar_marks occ i pb tr pb' tr' :
  subsumeVar occ i (pb, tr) = Ok (pb', tr') →
  extendsTrace pb pb' ∧ ∀ k, k ∈ tr' ↔ k ∈ tr ∨ varMarks pb occ i k.
Proof.
  unfold subsumeVar. simpl. intros H.
  apply bind_Ok in H as (m & Hm & H). apply idx_Ok in Hm.
  unfold varMarks. case_decide as Hb.
  { simplify_eq. split; [apply extendsTrace_refl|]. intros k.
    split; [auto|]. intros [?|[? _]]; [done|congruence]. }
  subst m.
  apply bind_Ok in H as (o & Ho & H). apply idx_Ok in Ho.
  apply bind_Ok in H as ([pb1 tr1] & H1 & H).
  apply bind_Ok in H as (o' & Ho' & H). apply idx_Ok in Ho'.
  apply subsumeOuter_marks in H1 as [He1 Hm1].
  apply subsumeOuter_marks in H as [He2 Hm2].
  pose proof (extendsTrace_log pb (EvExamining (Var_Lit i))) as He0.
  pose proof (extendsTrace_trans _ _ _ He0 He1) as He01.
  split; [by eapply extendsTrace_trans|].
  intros k. rewrite Hm2, Hm1.
  setoid_rewrite (pairMarks_ext _ _ _ _ _ He01).
  setoid_rewrite (pairMarks_ext _ _ _ _ _ He0).
  split.
  - intros [[?|(j1 & j2 & ? & ? & ?)]|(j1 & j2 & ? & ? & ?)]; [by left|..];
      right; (split; [done|]).
    + exists (Var_Lit i), o, j1, j2. auto.
    + exists (Negation (Var_Lit i)), o', j1, j2. auto.
  - intros [?|(_ & l & ol & j1 & j2 & [-> | ->] & Hol & ? & ? & ?)];
      [by left; left|..]; simplify_eq.
    + left; right. eauto.
    + right. eauto.
Qed.

Lemma subsumeSweep_marks occ n i0 pb tr pb' tr' :
  subsumeSweep occ n i0 (pb, tr) = Ok (pb', tr') →
  extendsTrace pb pb' ∧
  ∀ k, k ∈ tr' ↔ k ∈ tr ∨ ∃ i, i0 ≤ i < i0 + n ∧ varMarks pb occ i k.
Proof.
  revert i0 pb tr. induction n as [|n IH]; intros i0 pb tr H; simpl in H.
  - simplify_eq. split; [apply extendsTrace_refl|]. intros k.
    split; [auto|]. intros [?|(? & ? & _)]; [done|lia].
  - apply bind_Ok in H as ([pb1 tr1] & H1 & H).
    apply subsumeVar_marks in H1 as [He1 Hm1].
    apply IH in H as [He Hm].
    split; [by eapply extendsTrace_trans|].
    intros k. rewrite Hm, Hm1. setoid_rewrite (varMarks_ext _ _ _ _ _ He1).
    split.
    + intros [[?|?]|(i & ? & ?)]; [by left|..]; right.
      * exists i0. split; [lia|done].
      * exists i. split; [lia|done].
    + intros [?|(i & ? & ?)]; [by left; left|].
      destruct (decide (i = i0)) as [->|?]; [by left; right|].
      right. exists i. split; [lia|done].
Qed.

(** The positions marked by the pass are those of the clauses that a
    strictly shorter clause subsumes, the two sharing a literal of an
    unbound variable. *)
Lemma subsumeMark_marks pb pb' toRemove :
  subsumeMark pb = Ok (pb', toRemove) →
  ∀ k, k ∈ toRemove ↔ markable pb k.
Proof.
  unfold subsumeMark. intros H.
  apply bind_Ok in H as (occ & Hocc & H).
  apply buildOccurs_Ok in Hocc as [Hlen Hocc].
  apply subsumeSweep_marks in H as [_ Hm].
  intros k. rewrite Hm, elem_of_nil. unfold markable, varMarks, pairMarks.
  split.
  - intros [[]|(i & Hi & Hmod & l & o & j1 & j2 & Hl & Ho & H1 & H2 & Hlt & Hk)].
    apply (Hocc l o Ho) in H1 as (d1 & Hd1 & Hl1).
    apply (Hocc l o Ho) in H2 as (d2 & Hd2 & Hl2).
    destruct Hk as [[-> (ck & cm & Hck & Hcm & ? & ?)]
                   |[-> (ck & cm & Hck & Hcm & ? & ?)]].
    + assert (d1 = ck) as -> by congruence.
      assert (d2 = cm) as -> by congruence.
      exists i, l, j2, ck, cm. split_and!; auto; lia.
    + assert (d2 = ck) as -> by congruence.
      assert (d1 = cm) as -> by congruence.
      exists i, l, j1, ck, cm. split_and!; auto; lia.
  - intros (i & l & m & ck & cm & Hi & Hmod & Hl & Hck & Hcm & Hlk & Hlm
            & Hlen' & Hs).
    right. exists i. split; [lia|]. split; [done|].
    assert (l < length occ) as Hlt.
    { rewrite Hlen. destruct Hl as [-> | ->];
        [|rewrite Negation_Var_Lit]; unfold Var_Lit; lia. }
    destruct (lookup_lt_is_Some_2 _ _ Hlt) as [o Ho].
    assert (k ∈ o) as Hko by (apply (Hocc l o Ho); eauto).
    assert (m ∈ o) as Hmo by (apply (Hocc l o Ho); eauto).
    assert (k ≠ m) as Hne.
    { intros ->. rewrite Hck in Hcm. simplify_eq. lia. }
    destruct (decide (m < k)).
    + exists l, o, k, m. split_and!; auto. left. split; [done|].
      exists ck, cm. auto.
    + exists l, o, m, k. split_and!; auto; [lia|]. right. split; [done|].
      exists ck, cm. auto.
Qed.

End Marking.

(** ** The clauses the Subsumption pass keeps *)

Lemma existsb_eqb_elem_of (i : nat) (l : list nat) :
  existsb (Nat.eqb i) l = true ↔ i ∈ l.
Proof.
  rewrite existsb_exists, list_elem_of_In. split.
  - intros (x & Hx & Heq). apply Nat.eqb_eq in Heq. by subst.
  - intros H. exists i. split; [done|]. apply Nat.eqb_refl.
Qed.

Lemma keepClauses_lookup toRemove i cl k' p :
  keepClauses toRemove i cl !! k' = Some p →
  ∃ k, cl !! k = Some p ∧ i + k ∉ toRemove.
Proof.
  revert i k'. induction cl as [|q cl IH]; intros i k' H; simpl in H.
  - by rewrite lookup_nil in H.
  - destruct (existsb (Nat.eqb i) toRemove) eqn:He.
    + apply IH in H as (k & Hk & Hn). exists (S k). split; [done|].
      by replace (i + S k) with (S i + k) by lia.
    + destruct k' as [|k']; simpl in H.
      * simplify_eq. exists 0. split; [done|]. rewrite Nat.add_0_r.
        rewrite <- existsb_eqb_elem_of. by rewrite He.
      * apply IH in H as (k & Hk & Hn). exists (S k). split; [done|].
        by replace (i + S k) with (S i + k) by lia.
Qed.

Lemma keepClauses_elem_of toRemove i cl k p :
  cl !! k = Some p → i + k ∉ toRemove → p ∈ keepClauses toRemove i cl.
Proof.
  revert i k. induction cl as [|q cl IH]; intros i k H Hn; simpl.
  - by rewrite lookup_nil in H.
  - destruct k as [|k]; simpl in H.
    + simplify_eq. rewrite Nat.add_0_r in Hn.
      destruct (existsb (Nat.eqb i) toRemove) eqn:He.
      * by apply existsb_eqb_elem_of in He.
      * by left.
    + assert (p ∈ keepClauses toRemove (S i) cl) as Hp.
      { apply (IH (S i) k); [done|]. by replace (S i + k) with (i + S k) by lia. }
      destruct (existsb (Nat.eqb i) toRemove); [done|by right].
Qed.

Lemma keepClauses_nil i cl : keepClauses [] i cl = cl.
Proof. revert i. induction cl as [|q cl IH]; intros i; simpl; by f_equal. Qed.

Lemma keepClauses_subseteq toRemove i cl : keepClauses toRemove i cl ⊆ cl.
Proof.
  intros p Hp. apply list_elem_of_lookup in Hp as [k' Hk'].
  apply keepClauses_lookup in Hk' as (k & Hk & _).
  by eapply list_elem_of_lookup_2.
Qed.

Section MarkingTheorem.
Context `{ops : ClauseOps}.




End MarkingTheorem.



(** ** The loop over the literals of a clause *)

Lemma take_insert_last {A} (c : list A) (j n : nat) (y : A) :
  j < S n → S n ≤ length c → c !! n = Some y →
  ∀ x, x ∈ take (S n) c ↔ x ∈ take n (<[j := y]> c) ∨ c !! j = Some x.
Proof.
  intros Hj Hn Hy x.
  destruct (decide (j = n)) as [->|Hne].
  - rewrite take_insert_ge by lia.
    rewrite (take_S_r c n y Hy), elem_of_app, list_elem_of_singleton.
    rewrite Hy. split; [intros [?| ->]; auto|intros [?|?]; auto].
    right. congruence.
  - assert (j < n) as Hlt by lia.
    destruct (lookup_lt_is_Some_2 c j ltac:(lia)) as [z Hz].
    rewrite (take_S_r c n y Hy), elem_of_app, list_elem_of_singleton.
    rewrite take_insert_lt by lia.
    assert (take n c !! j = Some z) as Hz' by (by rewrite lookup_take_lt).
    rewrite Hz. split.
    + intros [Hx| ->].
      * apply list_elem_of_lookup in Hx as [i Hi].
        destruct (decide (i = j)) as [->|Hij].
        -- right. congruence.
        -- left. apply list_elem_of_lookup. exists i.
           by rewrite list_lookup_insert_ne.
      * left. apply list_elem_of_lookup. exists j.
        apply list_lookup_insert_eq. rewrite length_take. lia.
    + intros [Hx|Hx].
      * apply list_elem_of_lookup in Hx as [i Hi].
        destruct (decide (i = j)) as [->|Hij].
        -- rewrite list_lookup_insert_eq in Hi
             by (rewrite length_take; lia).
           right. congruence.
        -- rewrite list_lookup_insert_ne in Hi by done.
           left. by eapply list_elem_of_lookup_2.
      * left. simplify_eq. by eapply list_elem_of_lookup_2.
Qed.

(** What the loop over the literals returns. The first [nbLits]
    literals of the clause are those still in it. *)
Lemma scanLits_spec model k c j nbLits clauseSat n' c' :
  scanLits model k c j nbLits = Ok (clauseSat, n', c') →
  j + k = nbLits → nbLits ≤ length c →
  Forall (unboundLit model) (take j c) →
  length c' = length c ∧ n' ≤ nbLits ∧
  (∀ l, l ∈ c' → l ∈ c) ∧
  (∀ l, l ∈ take n' c' → l ∈ take nbLits c) ∧
  (clauseSat = false →
     Forall (unboundLit model) (take n' c') ∧
     ∀ l, l ∈ take nbLits c → l ∈ take n' c' ∨ falsifiedLit model l) ∧
  (clauseSat = true → ∃ l, l ∈ c' ∧ satisfiedLit model l).
Proof.
  revert c j nbLits.
  induction k as [|k IH]; intros c j nbLits H Hjk Hn Hun; simpl in H.
  - simplify_eq. rewrite Nat.add_0_r in *.
    split_and!; [done|done|done|done|intros _; split; [done|auto]|done].
  - apply bind_Ok in H as (lit & Hlit & H). apply idx_Ok in Hlit.
    apply bind_Ok in H as (m & Hm & H). apply idx_Ok in Hm.
    destruct (Z.eqb_spec m 0) as [->|Hm0].
    { apply IH in H; [done|lia|done|].
      rewrite (take_S_r c j lit Hlit). apply Forall_app. split; [done|].
      by repeat constructor. }
    destruct (eqb (m =? 1)%Z (IsPositive lit)) eqn:Hpol.
    { simplify_eq.
      split_and!; [done|done|done|done|done|]. intros _. exists lit. split.
      - by eapply list_elem_of_lookup_2.
      - exists m. auto. }
    apply bind_Ok in H as (last & Hlast & H). apply idx_Ok in Hlast.
    case_decide as Hjlen; [|done].
    assert (S (nbLits - 1) = nbLits) as HS by lia.
    apply IH in H; [|lia|rewrite length_insert; lia|].
    2:{ by rewrite take_insert_ge by lia. }
    destruct H as (Hlen & Hle & Hsub & Hsub' & Hf & Ht).
    rewrite length_insert in Hlen.
    pose proof (take_insert_last c j (nbLits - 1) last ltac:(lia) ltac:(lia)
                  Hlast) as Hti.
    rewrite HS in Hti.
    split_and!; [done|lia|..].
    + intros l Hl. apply Hsub in Hl.
      apply list_elem_of_lookup in Hl as [i Hi].
      destruct (decide (i = j)) as [->|Hij].
      * rewrite list_lookup_insert_eq in Hi by lia. simplify_eq.
        by eapply list_elem_of_lookup_2.
      * rewrite list_lookup_insert_ne in Hi by done.
        by eapply list_elem_of_lookup_2.
    + intros l Hl. apply Hti. left. by apply Hsub'.
    + intros Hs. destruct (Hf Hs) as [Hall Hcov]. split; [done|].
      intros l Hl. apply Hti in Hl as [Hl|Hl]; [by apply Hcov|].
      right. assert (l = lit) as -> by congruence. exists m. auto.
    + done.
Qed.

(** ** The turn of Simplify2 for one clause *)

Lemma scanClause_Ok pb i nb rs r :
  scanClause pb i nb rs = Ok r →
  ∃ p c clauseSat nbLits c',
    Clauses pb !! i = Some p ∧ store pb !! p = Some c ∧
    scanLits (Model pb) (length c) c 0 (length c)
      = Ok (clauseSat, nbLits, c') ∧
    let pb1 := setStore (<[p := c']> (store pb)) pb in
    (clauseSat = true ∧
     ∃ pb2, moveClause i (nb - 1) pb1 = Ok pb2 ∧
            r = ClauseNext pb2 i (nb - 1) rs) ∨
    (clauseSat = false ∧ nbLits = 0 ∧ r = ClauseReturn (setStatus Unsat pb1)) ∨
    (clauseSat = false ∧ nbLits = 1 ∧
     ∃ first pb2, c' !! 0 = Some first ∧ addUnit first pb1 = Ok pb2 ∧
       ((status pb2 = Unsat ∧ r = ClauseReturn pb2) ∨
        (status pb2 ≠ Unsat ∧
         ∃ pb3, moveClause i (nb - 1) pb2 = Ok pb3 ∧
                r = ClauseNext pb3 i (nb - 1) true))) ∨
    (clauseSat = false ∧ 2 ≤ nbLits ∧
     r = ClauseNext (setStore (<[p := take nbLits c']> (store pb)) pb)
                    (S i) nb rs).
Proof.
  unfold scanClause. intros H.
  apply bind_Ok in H as (p & Hp & H). apply idx_Ok in Hp.
  apply bind_Ok in H as (c & Hc & H). apply idx_Ok in Hc.
  apply bind_Ok in H as ([[clauseSat nbLits] c'] & Hs & H).
  exists p, c, clauseSat, nbLits, c'. split_and!; [done..|]. simpl.
  destruct clauseSat.
  { apply bind_Ok in H as (pb2 & Hmv & H). simplify_eq. left. eauto. }
  right. case_decide as H0; [simplify_eq; by left|].
  right. case_decide as H1.
  { apply bind_Ok in H as (first & Hf & H). apply idx_Ok in Hf.
    apply bind_Ok in H as (pb2 & Hau & H). left.
    split_and!; [done..|]. exists first, pb2. split_and!; [done..|].
    case_decide; [simplify_eq; by left|].
    apply bind_Ok in H as (pb3 & Hmv & H). simplify_eq. right. eauto. }
  right. split_and!; [done|lia|].
  pose proof (scanLits_spec _ _ _ _ _ _ _ _ Hs eq_refl (le_n _) (Forall_nil_2 _))
    as (Hlen & _).
  case_decide; simplify_eq; simpl.
  - by rewrite list_insert_insert_eq.
  - by rewrite firstn_all.
Qed.

(** ** The database after propagation *)

Lemma normalClause_take model (c' : list nat) n :
  2 ≤ n → n ≤ length c' → Forall (unboundLit model) (take n c') →
  normalClause model (take n c').
Proof. intros ? ? ?. split; [|done]. rewrite length_take. lia. Qed.

Lemma scanLits_normal model c r :
  normalClause model c →
  scanLits model (length c) c 0 (length c) = Ok r →
  r = (false, length c, c).
Proof.
  intros [_ Hall] H. rewrite (scanLits_unbound model c (length c) 0) in H
    by done. by simplify_eq.
Qed.

(** When propagation returns with a status other than [Unsat], every
    clause left has two literals or more, all unbound. *)
Lemma Simplify2_normalizes pb pb' :
  Simplify2 pb = Ok pb' → status pb' ≠ Unsat → normalized pb'.
Proof.
  pose (P := λ (pb1 : Problem) (i nb : nat) (rs : bool),
          nb ≤ length (Clauses pb1) ∧
          (rs = false → ∀ j p, j < i → Clauses pb1 !! j = Some p →
             ∃ c, store pb1 !! p = Some c ∧ normalClause (Model pb1) c)).
  apply (Simplify2_inv P (λ pb1, status pb1 ≠ Unsat → normalized pb1)).
  - intros pb1 i nb rs r [Hnb Hnorm] Hi Hr.
    pose proof (scanClause_status _ _ _ _ _ Hr) as Hst.
    apply scanClause_Ok in Hr
      as (p & c & clauseSat & nbLits & c' & Hp & Hc & Hs & Hr).
    pose proof (scanLits_spec _ _ _ _ _ _ _ _ Hs eq_refl (le_n _)
                  (Forall_nil_2 _)) as (Hlen & Hle & _ & _ & Hf & _).
    assert (∀ j q, rs = false → j < i → Clauses pb1 !! j = Some q →
              q = p → (clauseSat, nbLits, c') = (false, length c, c))
      as Halias.
    { intros j q Hrs Hj Hq ->. destruct (Hnorm Hrs j p Hj Hq) as (d & Hd & Hn).
      assert (d = c) as -> by congruence. by eapply scanLits_normal. }
    simpl in Hr.
    destruct Hr as [(-> & pb2 & Hmv & ->)|[(-> & -> & ->)
      |[(-> & -> & first & pb2 & Hfirst & Hau & Hr)|(-> & Hn2 & ->)]]].
    + apply moveClause_Ok in Hmv as (q & Hq & Hil & ->).
      unfold P; simpl in *.
      split; [rewrite length_insert; lia|].
      intros Hrs j pj Hj Hpj.
      rewrite list_lookup_insert_ne in Hpj by lia.
      destruct (decide (pj = p)) as [->|Hne].
      { by specialize (Halias j p Hrs Hj Hpj eq_refl). }
      rewrite list_lookup_insert_ne by done. by eapply Hnorm.
    + simpl. intros Hu. by destruct Hu.
    + destruct Hr as [[Hu ->]|(Hu & pb3 & Hmv & ->)]; [done|].
      apply moveClause_Ok in Hmv as (q & Hq & Hil & ->).
      unfold P; simpl in *.
      split; [|done]. rewrite length_insert.
      apply addUnit_status in Hau. apply lookup_lt_Some in Hq. lia.
    + unfold P; simpl. split; [done|]. intros Hrs j pj Hj Hpj.
      destruct (Hf eq_refl) as [Hall _].
      assert (normalClause (Model pb1) (take nbLits c')) as Hnc.
      { apply normalClause_take; [done|lia|done]. }
      destruct (decide (pj = p)) as [->|Hne].
      { rewrite list_lookup_insert_eq by (by eapply lookup_lt_Some). eauto. }
      rewrite list_lookup_insert_ne by done.
      destruct (decide (j = i)) as [->|Hji]; [congruence|].
      eapply Hnorm; [done| |done]. lia.
  - intros pb1 nb [Hnb _]. split; [done|]. intros _ j p Hj. lia.
  - intros pb1 nb pb2 [Hnb Hnorm] Hu Hst.
    unfold updateStatus in Hu. case_decide; [|done].
    assert (normalized (setClauses (take nb (Clauses pb1)) pb1)) as Hn.
    { intros p Hp. simpl in *.
      apply list_elem_of_lookup in Hp as [j Hj].
      pose proof (lookup_lt_Some _ _ _ Hj) as Hlt.
      rewrite length_take in Hlt.
      rewrite lookup_take_lt in Hj by lia.
      eapply (Hnorm eq_refl j); [lia|done]. }
    case_decide; by simplify_eq.
  - split; [done|]. intros _ j p Hj. lia.
Qed.

(** ** The turn of SelfSub for one pair *)

Section PairStep.
Context `{ops : ClauseOps}.

Lemma pairStep_Ok v idx1 idx2 s r :
  pairStep v idx1 idx2 s = Ok r →
  ∃ c1 c2,
    clauseAt (problem s) idx1 = Some c1 ∧
    clauseAt (problem s) idx2 = Some c2 ∧
    let pb0 := logEvent (EvPair (Var_Lit v) idx1 idx2) (problem s) in
    (SelfSubsumes c1 c2 = false ∧ SelfSubsumes c2 c1 = false ∧
     r = PairNext (mkSelfSub pb0 (occurs s) (modified s) (neverModified s))) ∨
    ∃ newC removals r1,
      ((SelfSubsumes c1 c2 = true ∧ SelfSubsumes c2 c1 = true ∧
        newC = Generate c1 c2 v ∧ removals = [idx1; idx2]) ∨
       (SelfSubsumes c1 c2 = true ∧ SelfSubsumes c2 c1 = false ∧
        newC = Generate c1 c2 v ∧ removals = [idx2]) ∨
       (SelfSubsumes c1 c2 = false ∧ SelfSubsumes c2 c1 = true ∧
        newC = Generate c2 c1 v ∧ removals = [idx1])) ∧
      addResolvent newC pb0 = Ok r1 ∧
      match r1 with
      | Ret pb1 => r = PairReturn pb1
      | Go pb1 =>
        removeAndRebuild (Var_Lit v) removals (occurs s) (neverModified s) pb1
          = Ok r
      end.
Proof.
  unfold pairStep. intros H.
  apply bind_Ok in H as (p1 & Hp1 & H). apply idx_Ok in Hp1.
  apply bind_Ok in H as (p2 & Hp2 & H). apply idx_Ok in Hp2.
  apply bind_Ok in H as (c1 & Hc1 & H). apply idx_Ok in Hc1.
  apply bind_Ok in H as (c2 & Hc2 & H). apply idx_Ok in Hc2.
  exists c1, c2. split; [apply clauseAt_Some; eauto|].
  split; [apply clauseAt_Some; eauto|]. simpl.
  destruct (SelfSubsumes c1 c2) eqn:HP; destruct (SelfSubsumes c2 c1) eqn:HN;
    simpl in H.
  - apply bind_Ok in H as (r1 & Hr1 & H). right.
    exists (Generate c1 c2 v), [idx1; idx2], r1.
    split; [by left|]. split; [done|]. destruct r1; [done|by simplify_eq].
  - apply bind_Ok in H as (r1 & Hr1 & H). right.
    exists (Generate c1 c2 v), [idx2], r1.
    split; [by right; left|]. split; [done|].
    destruct r1; [done|by simplify_eq].
  - apply bind_Ok in H as (r1 & Hr1 & H). right.
    exists (Generate c2 c1 v), [idx1], r1.
    split; [by right; right|]. split; [done|].
    destruct r1; [done|by simplify_eq].
  - simplify_eq. by left.
Qed.

(** While [neverModified] holds, [SelfSub] has only written to the
    log. *)
Lemma selfSubLoop_neverModified fuel pb occ r :
  selfSubLoop fuel (mkSelfSub pb occ true true) = Ok r →
  flowPost (λ s, neverModified s = true → extendsTrace pb (problem s))
           (λ _, True) r.
Proof.
  apply (selfSubLoop_inv
           (λ s, neverModified s = true → extendsTrace pb (problem s))
           (λ _, True)).
  - intros v idx1 idx2 s r1 o1 o2 HP _ _ Ho2 Hi2 Hr.
    apply pairStep_Ok in Hr as (c1 & c2 & _ & _ & Hr). simpl in Hr.
    destruct Hr as [(_ & _ & ->)|(newC & removals & r2 & _ & _ & Hr)].
    + simpl. intros Hnm. eapply extendsTrace_trans; [by apply HP|].
      apply extendsTrace_log.
    + destruct r2 as [pb1|pb1]; [|by subst].
      apply removeAndRebuild_Ok in Hr
        as (o & Ho & [(_ & pb2 & occ2 & _ & _ & ->)|(Hlen & _)]); [done|].
      assert (o = o2) as -> by congruence.
      destruct o2; [by apply elem_of_nil in Hi2|done].
  - intros s l HP. simpl. intros Hnm.
    eapply extendsTrace_trans; [by apply HP|]. apply extendsTrace_log.
  - intros s HP. exact HP.
  - intros _. apply extendsTrace_refl.
Qed.

End PairStep.

Lemma extendsTrace_normalized pb pb' :
  extendsTrace pb pb' → normalized pb → normalized pb'.
Proof. by intros [evs ->]. Qed.

Lemma keepClauses_normalized toRemove pb :
  normalized pb →
  normalized (setClauses (keepClauses toRemove 0 (Clauses pb)) pb).
Proof.
  intros Hn p Hp. simpl in *. apply Hn. by eapply keepClauses_subseteq.
Qed.

(** ** The database after a pass *)

Lemma wfInput_exFour : wfInput exFour.
Proof.
  split_and!; try reflexivity.
  - intros p Hp. simpl in Hp.
    repeat (apply elem_of_cons in Hp as [->|Hp]);
      [..|by apply elem_of_nil in Hp];
      eexists; (split; [reflexivity|]); repeat constructor; simpl; lia.
  - intros p c Hp Hc. simpl in Hp.
    repeat (apply elem_of_cons in Hp as [->|Hp]);
      [..|by apply elem_of_nil in Hp]; simpl in Hc; simplify_eq; simpl; lia.
Qed.

(** C7 fails when the run ends with [Unsat]: on the four clauses of
    [exFour], a well-formed input, [Preprocess] returns with the
    clauses (¬x0 ∨ ¬x1) and (x0 ∨ ¬x1) in the database and both
    variables bound. *)
Lemma Preprocess_leaves_bound_literals_when_Unsat :
  wfInput exFour ∧
  ∃ pb', @Preprocess refOps 3 exFour = Ok pb' ∧ status pb' = Unsat ∧
    ¬ normalized pb'.
Proof.
  split; [apply wfInput_exFour|].
  eexists. split; [vm_compute; reflexivity|]. split; [reflexivity|].
  intros Hn. destruct (Hn 3) as (c & Hc & _ & Hall); [by left|].
  simpl in Hc. simplify_eq.
  apply Forall_cons in Hall as [Hu _]. unfold unboundLit in Hu.
  simpl in Hu. discriminate.
Qed.

Section Normalizes.
Context `{ops : ClauseOps}.

Lemma Subsumption_normalizes pb pb' :
  Subsumption pb = Ok pb' → status pb' ≠ Unsat → normalized pb'.
Proof.
  unfold Subsumption. intros H Hst.
  apply bind_Ok in H as ([pb1 toRemove] & _ & H).
  apply bind_Ok in H as (occ & _ & H).
  by apply Simplify2_normalizes in H.
Qed.

Lemma SelfSub_normalizes fuel pb pb' :
  SelfSub fuel pb = Ok pb' → normalized pb → status pb' ≠ Unsat →
  normalized pb'.
Proof.
  unfold SelfSub. intros H Hnorm Hst. apply bind_Ok in H as (occ & _ & H).
  apply bind_Ok in H as (r & Hl & H).
  pose proof (selfSubLoop_status _ _ _ Hl) as Hs.
  apply selfSubLoop_neverModified in Hl.
  destruct r as [s|pb1]; simpl in *; [|by simplify_eq].
  destruct (neverModified s).
  - simplify_eq. eapply extendsTrace_normalized; [by apply Hl|done].
  - by apply Simplify2_normalizes in H.
Qed.

Lemma normalized_not_satisfied pb p c l :
  normalized pb → p ∈ Clauses pb → store pb !! p = Some c → l ∈ c →
  ¬ satisfiedLit (Model pb) l.
Proof.
  intros Hn Hp Hc Hl (m & Hm & Hm0 & _).
  destruct (Hn p Hp) as (c0 & Hc0 & _ & Hall).
  assert (c0 = c) as -> by congruence.
  rewrite Forall_forall in Hall. specialize (Hall l Hl).
  unfold unboundLit in Hall. congruence.
Qed.

(** C7, amended. When [Simplify2], [Subsumption] or [Preprocess]
    returns with a status other than [Unsat] (and [SelfSub] too, run on
    a database in normal form), every clause of the database has two
    literals or more and no literal of a bound variable; so none of its
    literals is satisfied under the model. *)
Theorem clauses_normal_unless_Unsat (fuel : nat) (pb pb' : Problem) :
  status pb' ≠ Unsat →
  Simplify2 pb = Ok pb' ∨ Subsumption pb = Ok pb' ∨
  Preprocess fuel pb = Ok pb' ∨ (normalized pb ∧ SelfSub fuel pb = Ok pb') →
  normalized pb' ∧
  ∀ p c l, p ∈ Clauses pb' → store pb' !! p = Some c → l ∈ c →
    ¬ satisfiedLit (Model pb') l.
Proof.
  intros Hst H.
  assert (normalized pb') as Hn.
  { destruct H as [H|[H|[H|[Hnorm H]]]].
    - by apply Simplify2_normalizes in H.
    - by eapply Subsumption_normalizes.
    - unfold Preprocess in H. apply bind_Ok in H as (pb1 & _ & H).
      by eapply Subsumption_normalizes.
    - by eapply SelfSub_normalizes. }
  split; [done|]. intros p c l. by apply normalized_not_satisfied.
Qed.

End Normalizes.

Lemma clauses_normal_unless_Unsat_witness :
  ∃ pb', @Preprocess refOps 3 exChain = Ok pb' ∧ normalized pb'.
Proof.
  eexists. split; [vm_compute; reflexivity|].
  eapply (@clauses_normal_unless_Unsat refOps 3 exChain).
  - vm_compute. discriminate.
  - right; right; left. vm_compute; reflexivity.
Defined.

(** ** What the passes leave alone: the number of variables and the
    size of the model *)

Lemma addUnit_Ok lit pb pb' :
  addUnit lit pb = Ok pb' →
  ∃ m, Model pb !! Lit_Var lit = Some m ∧
    let b := (if IsPositive lit then 1 else -1)%Z in
    (m = (- b)%Z ∧ pb' = setStatus Unsat pb) ∨
    (m ≠ (- b)%Z ∧
     pb' = setUnits (Units pb ++ [lit])
             (setModel (<[Lit_Var lit := b]> (Model pb)) pb)).
Proof.
  unfold addUnit, bind. intros H.
  apply bind_Ok in H as (m & Hm & H). apply idx_Ok in Hm.
  exists m. split; [done|].
  destruct (IsPositive lit); simpl.
  - destruct (Z.eqb_spec m (-1)); [simplify_eq; by left|].
    case_decide; simpl in H; simplify_eq. by right.
  - destruct (Z.eqb_spec m 1); [simplify_eq; by left|].
    case_decide; simpl in H; simplify_eq. by right.
Qed.

Lemma sameSize_refl pb : sameSize pb pb.
Proof. by split. Qed.

Lemma sameSize_trans pb1 pb2 pb3 :
  sameSize pb1 pb2 → sameSize pb2 pb3 → sameSize pb1 pb3.
Proof. unfold sameSize. intros [? ?] [? ?]. split; congruence. Qed.

Lemma extendsTrace_sameSize pb pb' : extendsTrace pb pb' → sameSize pb pb'.
Proof. by intros [evs ->]. Qed.

Lemma addUnit_sameSize lit pb pb' : addUnit lit pb = Ok pb' → sameSize pb pb'.
Proof.
  intros H. apply addUnit_Ok in H as (m & _ & [[_ ->]|[_ ->]]); [done|].
  split; [done|]. simpl. by rewrite length_insert.
Qed.

Lemma scanClause_sameSize pb i nb rs r :
  scanClause pb i nb rs = Ok r →
  match r with
  | ClauseReturn pb' | ClauseNext pb' _ _ _ => sameSize pb pb'
  end.
Proof.
  intros H. apply scanClause_Ok in H
    as (p & c & clauseSat & nbLits & c' & _ & _ & _ & Hr). simpl in Hr.
  destruct Hr as [(_ & pb2 & Hmv & ->)|[(_ & _ & ->)
    |[(_ & _ & first & pb2 & _ & Hau & Hr)|(_ & _ & ->)]]]; try done.
  - by apply moveClause_Ok in Hmv as (q & _ & _ & ->).
  - apply addUnit_sameSize in Hau.
    destruct Hr as [[_ ->]|(_ & pb3 & Hmv & ->)]; [done|].
    by apply moveClause_Ok in Hmv as (q & _ & _ & ->).
Qed.

Lemma Simplify2_sameSize pb pb' : Simplify2 pb = Ok pb' → sameSize pb pb'.
Proof.
  apply (Simplify2_inv (λ pb1 _ _ _, sameSize pb pb1) (sameSize pb)).
  - intros pb1 i nb rs r HP _ Hr. apply scanClause_sameSize in Hr.
    destruct r; by eapply sameSize_trans.
  - done.
  - intros pb1 nb pb2 HP Hu. unfold updateStatus in Hu.
    repeat case_decide; by simplify_eq.
  - apply sameSize_refl.
Qed.

Section SameSize.
Context `{ops : ClauseOps}.

Lemma addResolvent_sameSize newC pb r :
  addResolvent newC pb = Ok r →
  match r with Go pb' | Ret pb' => sameSize pb pb' end.
Proof.
  intros H. apply addResolvent_Ok in H
    as (isSat & c & _ & [[_ ->]|[(_ & _ & ->)|[(_ & l & _ & H)|(_ & _ & ->)]]]);
    try done.
  apply inferUnit_Ok in H as (m & _ & [[_ ->]|[_ ->]]); [done|].
  simpl. case_match; split; simpl; by rewrite ?length_insert.
Qed.

Lemma removeAndRebuild_sameSize lit removals occ nm pb r :
  removeAndRebuild lit removals occ nm pb = Ok r →
  sameSize pb (pairProblem r).
Proof.
  intros H. apply removeAndRebuild_Ok in H
    as (o & _ & [(_ & pb2 & occ2 & Hrm & _ & ->)|(_ & ->)]); [|done].
  apply removals_status in Hrm as (_ & _ & Hm & _ & Hn & _). simpl.
  split; congruence.
Qed.

Lemma pairStep_sameSize v idx1 idx2 s r :
  pairStep v idx1 idx2 s = Ok r → sameSize (problem s) (pairProblem r).
Proof.
  intros H. apply pairStep_Ok in H as (c1 & c2 & _ & _ & Hr). simpl in Hr.
  destruct Hr as [(_ & _ & ->)|(newC & removals & r1 & _ & Hadd & Hr)];
    [done|].
  apply addResolvent_sameSize in Hadd.
  destruct r1 as [pb1|pb1]; [|by subst].
  apply removeAndRebuild_sameSize in Hr.
  eapply sameSize_trans; [|exact Hr]. exact Hadd.
Qed.

Lemma selfSubLoop_sameSize fuel s r :
  selfSubLoop fuel s = Ok r → sameSize (problem s) (flowProblem r).
Proof.
  intros H.
  assert (flowPost (λ s', sameSize (problem s) (problem s'))
            (sameSize (problem s)) r) as Hr; [|by destruct r].
  eapply (selfSubLoop_inv (λ s', sameSize (problem s) (problem s'))
            (sameSize (problem s))); [| | | |exact H]; try done.
  intros v idx1 idx2 s1 r1 o1 o2 HP _ _ _ _ Hr.
  apply pairStep_sameSize in Hr.
  destruct r1; by eapply sameSize_trans.
Qed.

Lemma SelfSub_sameSize fuel pb pb' :
  SelfSub fuel pb = Ok pb' → sameSize pb pb'.
Proof.
  unfold SelfSub. intros H. apply bind_Ok in H as (occ & _ & H).
  apply bind_Ok in H as (r & Hl & H). apply selfSubLoop_sameSize in Hl.
  destruct r as [s|pb1]; simpl in *; [|by simplify_eq].
  destruct (neverModified s); [by simplify_eq|].
  apply Simplify2_sameSize in H. by eapply sameSize_trans.
Qed.

Lemma Subsumption_sameSize pb pb' :
  Subsumption pb = Ok pb' → sameSize pb pb'.
Proof.
  unfold Subsumption. intros H.
  apply bind_Ok in H as ([pb1 toRemove] & Hm & H).
  apply bind_Ok in H as (occ & _ & H).
  apply subsumeMark_extends in Hm as [evs ->].
  by apply Simplify2_sameSize in H.
Qed.

End SameSize.

(** ** A pass that finds nothing to do *)

Lemma Simplify2_Undetermined pb pb' :
  Simplify2 pb = Ok pb' → status pb' = Undetermined → Clauses pb' ≠ [].
Proof.
  apply (Simplify2_inv (λ pb1 _ nb _, nb ≤ length (Clauses pb1))
           (λ pb1, status pb1 = Undetermined → Clauses pb1 ≠ [])).
  - intros pb1 i nb rs r HP Hi Hr.
    pose proof (scanClause_status _ _ _ _ _ Hr) as Hst.
    apply scanClause_Ok in Hr
      as (p & c & clauseSat & nbLits & c' & _ & _ & _ & Hr). simpl in Hr.
    destruct Hr as [(_ & pb2 & Hmv & ->)|[(_ & _ & ->)
      |[(_ & _ & first & pb2 & _ & Hau & Hr)|(_ & _ & ->)]]].
    + apply moveClause_Ok in Hmv as (q & _ & _ & ->). simpl.
      rewrite length_insert. lia.
    + simpl. congruence.
    + destruct Hr as [[Hu ->]|(_ & pb3 & Hmv & ->)]; [congruence|].
      apply moveClause_Ok in Hmv as (q & Hq & _ & ->). simpl.
      rewrite length_insert. apply lookup_lt_Some in Hq. lia.
    + done.
  - done.
  - intros pb1 nb pb2 HP Hu Hst. unfold updateStatus in Hu.
    case_decide; [|done]. case_decide as Hd.
    + simplify_eq.
    + simplify_eq. simpl in *. intros Hnil.
      apply (f_equal length) in Hnil. rewrite length_take in Hnil.
      simpl in Hnil. apply Hd. split; [done|lia].
  - done.
Qed.

Lemma extendsTrace_clausesOf pb pb' :
  extendsTrace pb pb' → clausesOf pb' = clausesOf pb.
Proof. by intros [evs ->]. Qed.

Lemma clauseAt_clausesOf pb i c : clauseAt pb i = Some c → c ∈ clausesOf pb.
Proof.
  intros H. apply clauseAt_Some in H as (p & Hp & Hc).
  unfold clausesOf. apply list_elem_of_omap. exists p.
  split; [by eapply list_elem_of_lookup_2|done].
Qed.

Lemma readable_ext pb pb' occ :
  extendsTrace pb pb' → readable pb occ → readable pb' occ.
Proof.
  intros He (Hlen & Hm & Hocc). pose proof He as [evs ->].
  split_and!; [done..|]. intros l o i Ho Hi.
  rewrite (extendsTrace_clauseAt _ _ _ He). eauto.
Qed.

Lemma occursOf_readable pb occ :
  occursOf pb occ → NbVars pb ≤ length (Model pb) → readable pb occ.
Proof.
  intros [Hlen Hocc] Hm. split_and!; [done..|].
  intros l o i Ho Hi. apply (Hocc l o Ho) in Hi as (c & Hc & _). eauto.
Qed.

Lemma quietStep_refl s : quietStep s s.
Proof. split_and!; [apply extendsTrace_refl|done..]. Qed.

Lemma quietStep_trans s1 s2 s3 :
  quietStep s1 s2 → quietStep s2 s3 → quietStep s1 s3.
Proof.
  intros (? & ? & ? & ?) (? & ? & ? & ?).
  split_and!; [by eapply extendsTrace_trans|congruence..].
Qed.

Section Quiet.
Context `{ops : ClauseOps}.

Lemma noSelfSubsumption_ext pb pb' :
  extendsTrace pb pb' → noSelfSubsumption pb → noSelfSubsumption pb'.
Proof.
  intros He Hn c1 c2. rewrite (extendsTrace_clausesOf _ _ He). apply Hn.
Qed.

Lemma pairStep_quiet v idx1 idx2 s :
  noSelfSubsumption (problem s) →
  is_Some (clauseAt (problem s) idx1) →
  is_Some (clauseAt (problem s) idx2) →
  ∃ s', pairStep v idx1 idx2 s = Ok (PairNext s') ∧ quietStep s s'.
Proof.
  intros Hn [c1 H1] [c2 H2].
  pose proof (Hn _ _ (clauseAt_clausesOf _ _ _ H1) (clauseAt_clausesOf _ _ _ H2))
    as HP.
  pose proof (Hn _ _ (clauseAt_clausesOf _ _ _ H2) (clauseAt_clausesOf _ _ _ H1))
    as HN.
  apply clauseAt_Some in H1 as (p1 & Hp1 & Hc1).
  apply clauseAt_Some in H2 as (p2 & Hp2 & Hc2).
  eexists. split.
  - unfold pairStep. simpl.
    rewrite (proj2 (idx_Ok _ _ _) Hp1), (proj2 (idx_Ok _ _ _) Hp2). simpl.
    rewrite (proj2 (idx_Ok _ _ _) Hc1), (proj2 (idx_Ok _ _ _) Hc2). simpl.
    rewrite HP, HN. simpl. reflexivity.
  - split_and!; [apply extendsTrace_log|done..].
Qed.

Lemma loopIdx2_quiet v idx1 o2 s :
  noSelfSubsumption (problem s) →
  is_Some (clauseAt (problem s) idx1) →
  (∀ i, i ∈ o2 → is_Some (clauseAt (problem s) i)) →
  ∃ s', loopIdx2 v idx1 o2 s = Ok (Go s') ∧ quietStep s s'.
Proof.
  revert s. induction o2 as [|idx2 o2 IH]; intros s Hn H1 H2; simpl.
  - exists s. split; [done|apply quietStep_refl].
  - destruct (pairStep_quiet v idx1 idx2 s Hn H1) as (s1 & -> & Hq);
      [apply H2; by left|]. simpl.
    pose proof Hq as (He & _).
    destruct (IH s1) as (s' & -> & Hq').
    + by eapply noSelfSubsumption_ext.
    + by rewrite (extendsTrace_clauseAt _ _ _ He).
    + intros i Hi. rewrite (extendsTrace_clauseAt _ _ _ He).
      apply H2. by right.
    + exists s'. split; [done|]. by eapply quietStep_trans.
Qed.

Lemma loopIdx1_quiet v o1 o2 s :
  noSelfSubsumption (problem s) →
  occurs s !! Negation (Var_Lit v) = Some o2 →
  (∀ i, i ∈ o1 → is_Some (clauseAt (problem s) i)) →
  (∀ i, i ∈ o2 → is_Some (clauseAt (problem s) i)) →
  ∃ s', loopIdx1 v o1 s = Ok (Go s') ∧ quietStep s s'.
Proof.
  revert s. induction o1 as [|idx1 o1 IH]; intros s Hn Ho2 H1 H2; simpl.
  - exists s. split; [done|apply quietStep_refl].
  - rewrite (proj2 (idx_Ok _ _ _) Ho2). simpl.
    destruct (loopIdx2_quiet v idx1 o2 s Hn) as (s1 & -> & Hq);
      [apply H1; by left|done|]. simpl.
    destruct (modified s1); [by exists s1|].
    pose proof Hq as (He & Hocc & _).
    destruct (IH s1) as (s' & -> & Hq').
    + by eapply noSelfSubsumption_ext.
    + by rewrite Hocc.
    + intros i Hi. rewrite (extendsTrace_clauseAt _ _ _ He).
      apply H1. by right.
    + intros i Hi. rewrite (extendsTrace_clauseAt _ _ _ He). by apply H2.
    + exists s'. split; [done|]. by eapply quietStep_trans.
Qed.

Lemma lit_lookup (occ : list (list nat)) n i :
  length occ = n * 2 → i < n →
  (∃ o, occ !! Var_Lit i = Some o) ∧
  (∃ o, occ !! Negation (Var_Lit i) = Some o).
Proof.
  intros Hlen Hi. split; apply lookup_lt_is_Some_2;
    rewrite ?Negation_Var_Lit; unfold Var_Lit; lia.
Qed.

Lemma selfSubVar_quiet i s :
  noSelfSubsumption (problem s) → readable (problem s) (occurs s) →
  i < NbVars (problem s) →
  ∃ s', selfSubVar i s = Ok (Go s') ∧ quietStep s s'.
Proof.
  intros Hn (Hlen & Hm & Hocc) Hi. unfold selfSubVar.
  destruct (idx_lt (Model (problem s)) i ltac:(lia)) as (m & -> & _). simpl.
  case_decide; [exists s; split; [done|apply quietStep_refl]|].
  destruct (lit_lookup _ _ _ Hlen Hi) as [[o1 Ho1] [o2 Ho2]].
  rewrite (proj2 (idx_Ok _ _ _) Ho1), (proj2 (idx_Ok _ _ _) Ho2). simpl.
  case_decide; [|exists s; split; [done|apply quietStep_refl]].
  set (s1 := mkSelfSub _ _ _ _).
  assert (quietStep s s1) as Hq1.
  { split_and!; [apply extendsTrace_log|done..]. }
  destruct (loopIdx1_quiet i o1 o2 s1) as (s' & -> & Hq); try done.
  - intros j Hj. exact (Hocc _ _ _ Ho1 Hj).
  - intros j Hj. exact (Hocc _ _ _ Ho2 Hj).
  - exists s'. split; [done|]. by eapply quietStep_trans.
Qed.

Lemma quietStep_readable s s' :
  quietStep s s' → readable (problem s) (occurs s) →
  readable (problem s') (occurs s').
Proof. intros (He & -> & _) Hr. by eapply readable_ext. Qed.

Lemma selfSubSweep_quiet n i s :
  noSelfSubsumption (problem s) → readable (problem s) (occurs s) →
  i + n ≤ NbVars (problem s) →
  ∃ s', selfSubSweep n i s = Ok (Go s') ∧ quietStep s s'.
Proof.
  revert i s. induction n as [|n IH]; intros i s Hn Hr Hi; simpl.
  - exists s. split; [done|apply quietStep_refl].
  - destruct (selfSubVar_quiet i s Hn Hr ltac:(lia)) as (s1 & -> & Hq). simpl.
    pose proof Hq as (He & _).
    destruct (IH (S i) s1) as (s' & -> & Hq').
    + by eapply noSelfSubsumption_ext.
    + by eapply quietStep_readable.
    + destruct He as [evs ->]. simpl. lia.
    + exists s'. split; [done|]. by eapply quietStep_trans.
Qed.

(** With no clause that self-subsumes another, [SelfSub] only writes to
    the log. *)
Lemma SelfSub_quiet fuel pb :
  2 ≤ fuel → wfClauses pb → NbVars pb ≤ length (Model pb) →
  noSelfSubsumption pb →
  ∃ pb', SelfSub fuel pb = Ok pb' ∧ extendsTrace pb pb'.
Proof.
  intros Hf Hwf Hm Hn. unfold SelfSub.
  destruct (buildOccurs_total pb Hwf) as [occ Hocc]. rewrite Hocc. simpl.
  apply buildOccurs_Ok in Hocc.
  destruct fuel as [|[|fuel]]; [lia..|]. simpl.
  set (s0 := mkSelfSub pb occ false true).
  destruct (selfSubSweep_quiet (NbVars pb) 0 s0) as (s' & -> & Hq);
    [done|by apply occursOf_readable|simpl; lia|].
  simpl. destruct Hq as (He & _ & Hmod & Hnm). simpl in *.
  rewrite Hmod. simpl. rewrite Hnm. eauto.
Qed.

End Quiet.

Section MarkTotal.
Context `{ops : ClauseOps}.

Lemma subsumePair_total idx1 idx2 a :
  is_Some (clauseAt a.1 idx1) → is_Some (clauseAt a.1 idx2) →
  ∃ a', subsumePair idx1 idx2 a = Ok a'.
Proof.
  destruct a as [pb tr]. simpl. intros [c1 H1] [c2 H2].
  apply clauseAt_Some in H1 as (p1 & Hp1 & Hc1).
  apply clauseAt_Some in H2 as (p2 & Hp2 & Hc2).
  unfold subsumePair.
  rewrite (proj2 (idx_Ok _ _ _) Hp1), (proj2 (idx_Ok _ _ _) Hp2). simpl.
  rewrite (proj2 (idx_Ok _ _ _) Hc1), (proj2 (idx_Ok _ _ _) Hc2). simpl.
  repeat case_decide; eauto.
Qed.

Lemma subsumeInner_total idx1 o a :
  is_Some (clauseAt a.1 idx1) →
  (∀ i, i ∈ o → is_Some (clauseAt a.1 i)) →
  ∃ a', subsumeInner idx1 o a = Ok a' ∧ extendsTrace a.1 a'.1.
Proof.
  revert a. induction o as [|idx2 o IH]; intros a H1 H2; simpl.
  - exists a. split; [done|apply extendsTrace_refl].
  - destruct (subsumePair_total idx1 idx2 a H1) as [a1 Ha1];
      [apply H2; by left|].
    rewrite Ha1. simpl. apply subsumePair_extends in Ha1.
    destruct (IH a1) as (a' & -> & He).
    + by rewrite (extendsTrace_clauseAt _ _ _ Ha1).
    + intros i Hi. rewrite (extendsTrace_clauseAt _ _ _ Ha1).
      apply H2. by right.
    + exists a'. split; [done|]. by eapply extendsTrace_trans.
Qed.

Lemma subsumeOuter_total o1 o a :
  (∀ i, i ∈ o1 → is_Some (clauseAt a.1 i)) →
  (∀ i, i ∈ o → is_Some (clauseAt a.1 i)) →
  ∃ a', subsumeOuter o1 o a = Ok a' ∧ extendsTrace a.1 a'.1.
Proof.
  revert a. induction o1 as [|idx1 o1 IH]; intros a H1 H2; simpl.
  - exists a. split; [done|apply extendsTrace_refl].
  - destruct (subsumeInner_total idx1 o a) as (a1 & -> & He1);
      [apply H1; by left|done|]. simpl.
    destruct (IH a1) as (a' & -> & He).
    + intros i Hi. rewrite (extendsTrace_clauseAt _ _ _ He1).
      apply H1. by right.
    + intros i Hi. rewrite (extendsTrace_clauseAt _ _ _ He1). by apply H2.
    + exists a'. split; [done|]. by eapply extendsTrace_trans.
Qed.

Lemma subsumeVar_total occ i a :
  readable a.1 occ → i < NbVars a.1 →
  ∃ a', subsumeVar occ i a = Ok a' ∧ extendsTrace a.1 a'.1.
Proof.
  intros (Hlen & Hm & Hocc) Hi. unfold subsumeVar.
  destruct (idx_lt (Model a.1) i ltac:(lia)) as (m & -> & _). simpl.
  case_decide; [exists a; split; [done|apply extendsTrace_refl]|].
  destruct (lit_lookup _ _ _ Hlen Hi) as [[o1 Ho1] [o2 Ho2]].
  rewrite (proj2 (idx_Ok _ _ _) Ho1). simpl.
  destruct (subsumeOuter_total o1 o1
              (logEvent (EvExamining (Var_Lit i)) a.1, a.2))
    as (a1 & -> & He1).
  { intros j Hj. exact (Hocc _ _ _ Ho1 Hj). }
  { intros j Hj. exact (Hocc _ _ _ Ho1 Hj). }
  simpl. rewrite (proj2 (idx_Ok _ _ _) Ho2). simpl.
  simpl in He1.
  pose proof (extendsTrace_trans _ _ _
                (extendsTrace_log a.1 (EvExamining (Var_Lit i))) He1) as He.
  destruct (subsumeOuter_total o2 o2 a1) as (a' & -> & He2).
  { intros j Hj. rewrite (extendsTrace_clauseAt _ _ _ He).
    exact (Hocc _ _ _ Ho2 Hj). }
  { intros j Hj. rewrite (extendsTrace_clauseAt _ _ _ He).
    exact (Hocc _ _ _ Ho2 Hj). }
  exists a'. split; [done|]. by eapply extendsTrace_trans.
Qed.

Lemma subsumeSweep_total occ n i a :
  readable a.1 occ → i + n ≤ NbVars a.1 →
  ∃ a', subsumeSweep occ n i a = Ok a'.
Proof.
  revert i a. induction n as [|n IH]; intros i a Hr Hi; simpl; [eauto|].
  destruct (subsumeVar_total occ i a Hr ltac:(lia)) as (a1 & -> & He). simpl.
  apply IH.
  - by eapply readable_ext.
  - destruct He as [evs ->]. simpl. lia.
Qed.

Lemma subsumeMark_total pb :
  wfClauses pb → NbVars pb ≤ length (Model pb) →
  ∃ pb' toRemove, subsumeMark pb = Ok (pb', toRemove).
Proof.
  intros Hwf Hm. unfold subsumeMark.
  destruct (buildOccurs_total pb Hwf) as [occ Hocc]. rewrite Hocc. simpl.
  apply buildOccurs_Ok in Hocc.
  destruct (subsumeSweep_total occ (NbVars pb) 0 (pb, [])) as [[pb' tr] H].
  - by apply occursOf_readable.
  - simpl. lia.
  - eauto.
Qed.

End MarkTotal.

Lemma normalized_wfClauses pb :
  normalized pb → length (Model pb) ≤ NbVars pb → wfClauses pb.
Proof.
  intros Hn Hm p Hp. destruct (Hn p Hp) as (c & Hc & _ & Hall).
  exists c. split; [done|]. unfold litsInRange.
  eapply Forall_impl; [exact Hall|]. intros l Hl. unfold unboundLit in Hl.
  apply lookup_lt_Some in Hl. unfold Lit_Var in Hl.
  pose proof (Nat.div_mod_eq l 2) as Hd.
  pose proof (Nat.mod_upper_bound l 2 ltac:(lia)) as Hd'. lia.
Qed.

Lemma wfInput_normalized pb : wfInput pb → normalized pb.
Proof.
  intros (_ & _ & Hm & Hwf & Hlen) p Hp.
  destruct (Hwf p Hp) as (c & Hc & Hr). exists c. split; [done|].
  split; [by eapply Hlen|].
  eapply Forall_impl; [exact Hr|]. intros l Hl. unfold unboundLit.
  rewrite Hm. apply lookup_replicate. split; [done|].
  unfold Lit_Var. apply Nat.Div0.div_lt_upper_bound. simpl in Hl. lia.
Qed.

(** ** A second run of Preprocess *)

Section SecondRun.
Context `{ops : ClauseOps}.

Lemma markable_ext pb pb' k :
  extendsTrace pb pb' → markable pb' k ↔ markable pb k.
Proof.
  intros He. unfold markable.
  setoid_rewrite (extendsTrace_clauseAt _ _ _ He). by destruct He as [evs ->].
Qed.

(** After a run that does not end with [Unsat], the database is in
    normal form and holds no clause that the Subsumption pass would
    mark. *)
Lemma first_run_facts fuel pb pb1 :
  wfInput pb → Preprocess fuel pb = Ok pb1 → status pb1 ≠ Unsat →
  normalized pb1 ∧ sameSize pb pb1 ∧ (∀ k, ¬ markable pb1 k) ∧
  (status pb1 = Undetermined → Clauses pb1 ≠ []).
Proof.
  intros Hwf H Hst. unfold Preprocess in H.
  apply bind_Ok in H as (pbA & HA & HB).
  pose proof (Subsumption_normalizes _ _ HB Hst) as Hn1.
  pose proof (sameSize_trans _ _ _ (SelfSub_sameSize _ _ _ HA)
                (Subsumption_sameSize _ _ HB)) as Hsz.
  assert (status pbA ≠ Unsat) as HstA.
  { pose proof (Subsumption_status _ _ HB) as [Hs _].
    unfold statusStep in Hs. intros Hu. intuition congruence. }
  pose proof (SelfSub_normalizes _ _ _ HA (wfInput_normalized _ Hwf) HstA)
    as HnA.
  unfold Subsumption in HB.
  apply bind_Ok in HB as ([pbM toRemove] & Hm & HB).
  apply bind_Ok in HB as (occ & _ & HB).
  pose proof (subsumeMark_marks _ _ _ Hm) as Hmarks.
  pose proof (subsumeMark_extends _ _ _ Hm) as He.
  split_and!; [done|done| |by eapply Simplify2_Undetermined].
  set (pbB := setClauses (keepClauses toRemove 0 (Clauses pbM)) pbM) in *.
  assert (normalized pbB) as HnB.
  { apply keepClauses_normalized. by eapply extendsTrace_normalized. }
  rewrite (Simplify2_normalized _ HnB) in HB.
  assert (∀ i, clauseAt pb1 i = clauseAt pbB i) as Hat.
  { intros i. case_decide; by simplify_eq. }
  assert (Model pb1 = Model pbA ∧ NbVars pb1 = NbVars pbA) as [HM HN].
  { destruct He as [evs ->]. case_decide; by simplify_eq. }
  assert (∀ i c, clauseAt pb1 i = Some c →
            ∃ k, clauseAt pbA k = Some c ∧ k ∉ toRemove) as Hback.
  { intros i c Hc. rewrite Hat in Hc.
    apply clauseAt_Some in Hc as (p & Hp & Hc). simpl in Hp, Hc.
    apply keepClauses_lookup in Hp as (k & Hk & Hnot).
    exists k. split; [|done].
    rewrite <- (extendsTrace_clauseAt _ _ k He).
    apply clauseAt_Some. eauto. }
  intros k' (i & l & m' & ck & cm & Hi & Hmod & Hl & Hck & Hcm & Hlk & Hlm
             & Hlen & Hs).
  apply Hback in Hck as (k & Hck & Hnot).
  apply Hback in Hcm as (m & Hcm & _).
  apply Hnot, Hmarks. exists i, l, m, ck, cm.
  split_and!; try done; congruence.
Qed.

(** On a database in normal form with nothing to mark and no clause
    that self-subsumes another, [Preprocess] only writes to the log. *)
Lemma quiet_run fuel pb1 :
  2 ≤ fuel → normalized pb1 → length (Model pb1) = NbVars pb1 →
  (∀ k, ¬ markable pb1 k) →
  (status pb1 = Undetermined → Clauses pb1 ≠ []) →
  noSelfSubsumption pb1 →
  ∃ pb2, Preprocess fuel pb1 = Ok pb2 ∧ extendsTrace pb1 pb2.
Proof.
  intros Hf Hn Hm Hmark Hne Hself.
  assert (wfClauses pb1) as Hwf by (apply normalized_wfClauses; [done|lia]).
  destruct (SelfSub_quiet fuel pb1 Hf Hwf ltac:(lia) Hself) as (pbA & HA & HeA).
  unfold Preprocess. rewrite HA. simpl.
  assert (wfClauses pbA ∧ NbVars pbA ≤ length (Model pbA)) as [HwfA HmA].
  { destruct HeA as [evs ->]. split; [done|simpl; lia]. }
  destruct (subsumeMark_total pbA HwfA HmA) as (pbM & toRemove & HM).
  unfold Subsumption. rewrite HM. simpl.
  pose proof (subsumeMark_marks _ _ _ HM) as Hmarks.
  pose proof (subsumeMark_extends _ _ _ HM) as HeM.
  assert (toRemove = []) as ->.
  { destruct toRemove as [|k tr]; [done|]. exfalso.
    apply (Hmark k). apply (markable_ext _ _ _ HeA). apply Hmarks. by left. }
  rewrite keepClauses_nil.
  assert (setClauses (Clauses pbM) pbM = pbM) as -> by (by destruct pbM).
  pose proof (extendsTrace_trans _ _ _ HeA HeM) as He.
  assert (wfClauses pbM) as HwfM by (by destruct HeM as [evs ->]).
  destruct (buildOccurs_total pbM HwfM) as [occ ->]. simpl.
  rewrite Simplify2_normalized by (by eapply extendsTrace_normalized).
  rewrite decide_False.
  - eauto.
  - intros [Hs Hc]. destruct He as [evs ->]. simpl in *. by apply Hne.
Qed.

(** C9, amended. After a run of [Preprocess] on a well-formed input that
    does not end with [Unsat], a second run leaves the clauses, the
    units, the model and the status as they are, provided that no
    clause of the database self-subsumes another, so that the
    self-subsumption pass of the second run finds no pair. *)
Theorem second_run_changes_nothing (fuel fuel' : nat) (pb pb1 : Problem) :
  wfInput pb → Preprocess fuel pb = Ok pb1 → status pb1 ≠ Unsat →
  noSelfSubsumption pb1 → 2 ≤ fuel' →
  ∃ pb2, Preprocess fuel' pb1 = Ok pb2 ∧ sameState pb1 pb2.
Proof.
  intros Hwf H Hst Hself Hf.
  destruct (first_run_facts _ _ _ Hwf H Hst) as (Hn & [HN HM] & Hmark & Hne).
  destruct (quiet_run fuel' pb1 Hf Hn) as (pb2 & H2 & He); try done.
  - destruct Hwf as (_ & _ & Hmod & _). rewrite HM, HN, Hmod.
    apply length_replicate.
  - exists pb2. split; [done|]. by destruct He as [evs ->].
Qed.

End SecondRun.

Lemma wfInput_newProblem nbVars clauses :
  Forall (λ c, 2 ≤ length c ∧ litsInRange nbVars c) clauses →
  wfInput (newProblem nbVars clauses).
Proof.
  intros Hall. rewrite Forall_forall in Hall.
  split_and!; try reflexivity.
  - intros p Hp. simpl in *. apply elem_of_seq in Hp.
    destruct (lookup_lt_is_Some_2 clauses p ltac:(lia)) as [c Hc].
    exists c. split; [done|]. apply Hall. by eapply list_elem_of_lookup_2.
  - intros p c Hp Hc. simpl in *.
    apply Hall. by eapply list_elem_of_lookup_2.
Qed.

(** C9 fails: on the well-formed input [exChain] the first run ends with
    (x3 ∨ x2) and (¬x2 ∨ x3 ∨ x4), which propagation made
    self-subsuming after the self-subsumption pass was over; the second
    run replaces the second clause by (x3 ∨ x4). *)
Lemma second_run_shortens_a_clause :
  wfInput exChain ∧
  ∃ pb1 pb2,
    @Preprocess refOps 3 exChain = Ok pb1 ∧
    @Preprocess refOps 3 pb1 = Ok pb2 ∧
    status pb1 = Undetermined ∧
    [5; 6; 8] ∈ clausesOf pb1 ∧ ∀ c, c ∈ clausesOf pb2 → 5 ∉ c.
Proof.
  split.
  { apply wfInput_newProblem. repeat constructor; simpl; lia. }
  eexists. eexists. split; [vm_compute; reflexivity|].
  split; [vm_compute; reflexivity|]. split; [reflexivity|].
  split.
  - vm_compute. right. left.
  - intros c Hc. vm_compute in Hc.
    repeat (apply elem_of_cons in Hc as [->|Hc]);
      [..|by apply elem_of_nil in Hc];
      intros H; repeat (apply elem_of_cons in H as [H|H]; [lia|]);
      by apply elem_of_nil in H.
Qed.

Lemma second_run_changes_nothing_witness :
  ∃ pb2, @Preprocess refOps 2 exSubsumedResult = Ok pb2 ∧
         sameState exSubsumedResult pb2.
Proof.
  apply (@second_run_changes_nothing refOps 2 2 exSubsumed).
  - apply wfInput_newProblem. repeat constructor; simpl; lia.
  - vm_compute; reflexivity.
  - vm_compute. discriminate.
  - intros c1 c2 H1 H2. vm_compute in H1, H2.
    repeat (apply elem_of_cons in H1 as [->|H1]);
      [..|by apply elem_of_nil in H1];
      repeat (apply elem_of_cons in H2 as [->|H2]);
      [..|by apply elem_of_nil in H2]; reflexivity.
  - lia.
Defined.

(** ** Truth under an assignment *)

Lemma litTrue_Negation σ l : litTrue σ (Negation l) = negb (litTrue σ l).
Proof.
  unfold litTrue. rewrite IsPositive_Negation, Lit_Var_Negation.
  destruct (IsPositive l); simpl; [done|by rewrite negb_involutive].
Qed.

Lemma Lit_positive l : IsPositive l = true → l = Var_Lit (Lit_Var l).
Proof.
  intros H. destruct (Lit_cases l) as [Hl|Hl]; [done|].
  rewrite Hl, IsPositive_Negation, IsPositive_Var_Lit in H. done.
Qed.

Lemma Lit_negative l :
  IsPositive l = false → l = Negation (Var_Lit (Lit_Var l)).
Proof.
  intros H. destruct (Lit_cases l) as [Hl|Hl]; [|done].
  rewrite Hl, IsPositive_Var_Lit in H. done.
Qed.

Lemma clauseTrue_subseteq σ (c c' : list nat) :
  c ⊆ c' → clauseTrue σ c → clauseTrue σ c'.
Proof. intros Hsub (l & Hl & Ht). exists l. split; [by apply Hsub|done]. Qed.

Lemma clauseTrue_nil σ : ¬ clauseTrue σ [].
Proof. intros (l & Hl & _). by apply elem_of_nil in Hl. Qed.

Lemma clauseTrue_singleton σ l : clauseTrue σ [l] ↔ litTrue σ l = true.
Proof.
  split.
  - intros (l' & Hl' & Ht). apply list_elem_of_singleton in Hl'. by subst.
  - intros Ht. exists l. split; [by left|done].
Qed.

Section Sync.
Variable pb : Problem.
Hypothesis Hsync : ∀ v m, Model pb !! v = Some m →
  m = 0%Z ∨ (m = 1%Z ∧ Var_Lit v ∈ Units pb) ∨
  (m = (-1)%Z ∧ Negation (Var_Lit v) ∈ Units pb).

Lemma satisfiedLit_units l : satisfiedLit (Model pb) l → l ∈ Units pb.
Proof.
  intros (m & Hm & Hm0 & Hpol).
  destruct (Hsync _ _ Hm) as [->|[[-> Hu]|[-> Hu]]]; [done|..];
    simpl in Hpol; destruct (IsPositive l) eqn:Hp; try done.
  - by rewrite (Lit_positive l Hp).
  - by rewrite (Lit_negative l Hp).
Qed.

Lemma falsifiedLit_units l :
  falsifiedLit (Model pb) l → Negation l ∈ Units pb.
Proof.
  intros (m & Hm & Hm0 & Hpol).
  destruct (Hsync _ _ Hm) as [->|[[-> Hu]|[-> Hu]]]; [done|..];
    simpl in Hpol; destruct (IsPositive l) eqn:Hp; try done.
  - by rewrite (Lit_negative l Hp), Negation_involutive.
  - by rewrite (Lit_positive l Hp) at 1.
Qed.

Lemma satisfiedLit_true σ l :
  unitsTrue σ (Units pb) → satisfiedLit (Model pb) l → litTrue σ l = true.
Proof. intros Hu Hs. by apply Hu, satisfiedLit_units. Qed.

Lemma falsifiedLit_false σ l :
  unitsTrue σ (Units pb) → falsifiedLit (Model pb) l → litTrue σ l = false.
Proof.
  intros Hu Hf. apply falsifiedLit_units, Hu in Hf.
  rewrite litTrue_Negation in Hf. by destruct (litTrue σ l).
Qed.

End Sync.

Lemma equivalent_refl pb : equivalent pb pb.
Proof. by intros σ. Qed.

Lemma equivalent_trans pb1 pb2 pb3 :
  equivalent pb1 pb2 → equivalent pb2 pb3 → equivalent pb1 pb3.
Proof. intros H1 H2 σ. by rewrite (H1 σ). Qed.

Lemma extendsTrace_equivalent pb pb' : extendsTrace pb pb' → equivalent pb pb'.
Proof. by intros [evs ->] σ. Qed.

Lemma extendsTrace_consistent pb pb' :
  extendsTrace pb pb' → consistent pb → consistent pb'.
Proof. by intros [evs ->]. Qed.

(** ** Propagation keeps the models *)

Lemma polarity_cases l :
  (IsPositive l = true ∧ polarity l = 1%Z ∧ l = Var_Lit (Lit_Var l)) ∨
  (IsPositive l = false ∧ polarity l = (-1)%Z ∧
   l = Negation (Var_Lit (Lit_Var l))).
Proof.
  unfold polarity. destruct (IsPositive l) eqn:Hp.
  - left. split_and!; [done..|by apply Lit_positive].
  - right. split_and!; [done..|by apply Lit_negative].
Qed.

(** Under the units, the clause the loop over the literals leaves has
    the truth value of the clause it was given; so have its first
    [nbLits] literals when no literal was satisfied. *)
Lemma scanLits_equiv pb c clauseSat n c' σ :
  synced pb →
  scanLits (Model pb) (length c) c 0 (length c) = Ok (clauseSat, n, c') →
  unitsTrue σ (Units pb) →
  (clauseTrue σ c' ↔ clauseTrue σ c) ∧
  (clauseSat = true → clauseTrue σ c') ∧
  (clauseSat = false → (clauseTrue σ (take n c') ↔ clauseTrue σ c)).
Proof.
  intros [Hs2 _] H Hu.
  apply scanLits_spec in H as (Hlen & Hle & Hsub & Hsub' & Hf & Ht);
    [|done|done|by apply Forall_nil_2].
  rewrite firstn_all in Hsub', Hf.
  assert (clauseSat = false → clauseTrue σ c → clauseTrue σ (take n c'))
    as Hfw.
  { intros Hsat (l & Hl & Hlt). destruct (Hf Hsat) as [_ Hcov].
    destruct (Hcov l Hl) as [Hin|Hfl]; [by exists l|].
    apply (falsifiedLit_false pb Hs2 σ) in Hfl; [congruence|done]. }
  pose proof (subseteq_take n c') as Htake.
  split_and!.
  - split; [by apply clauseTrue_subseteq|].
    destruct clauseSat.
    + intros _. destruct (Ht eq_refl) as (l & Hl & Hsat). exists l.
      split; [done|]. by eapply (satisfiedLit_true pb).
    + intros Hc. eapply clauseTrue_subseteq; [exact Htake|]. by apply Hfw.
  - intros Hsat. destruct (Ht Hsat) as (l & Hl & Hsl). exists l.
    split; [done|]. by eapply (satisfiedLit_true pb).
  - intros Hsat. split; [|by apply Hfw].
    apply clauseTrue_subseteq. intros l Hl. by apply Hsub'.
Qed.

(** Forcing a literal whose variable is unbound. *)
Lemma addUnit_unbound l pb pb' :
  Model pb !! Lit_Var l = Some 0%Z → addUnit l pb = Ok pb' →
  pb' = setUnits (Units pb ++ [l])
          (setModel (<[Lit_Var l := polarity l]> (Model pb)) pb) ∧
  (synced pb → synced pb').
Proof.
  intros Hm H. apply addUnit_Ok in H as (m & Hm' & H).
  assert (m = 0%Z) as -> by congruence. simpl in H.
  assert (pb' = setUnits (Units pb ++ [l])
            (setModel (<[Lit_Var l := polarity l]> (Model pb)) pb)) as Hpb'.
  { unfold polarity. destruct H as [[H _]|[_ ->]]; [|done].
    destruct (IsPositive l); lia. }
  split; [done|]. intros [Hs2 Hs3]. subst pb'. split; simpl.
  - intros v m Hv. destruct (decide (v = Lit_Var l)) as [->|Hne].
    + rewrite list_lookup_insert_eq in Hv by (by eapply lookup_lt_Some).
      injection Hv as <-.
      destruct (polarity_cases l) as [(_ & -> & Hl)|(_ & -> & Hl)].
      * right; left. split; [done|]. rewrite <- Hl.
        apply elem_of_app. right. by left.
      * right; right. split; [done|]. rewrite <- Hl.
        apply elem_of_app. right. by left.
    + rewrite list_lookup_insert_ne in Hv by done.
      destruct (Hs2 v m Hv) as [?|[[? ?]|[? ?]]]; [by left|..].
      * right; left. split; [done|]. apply elem_of_app. by left.
      * right; right. split; [done|]. apply elem_of_app. by left.
  - intros l' Hl'. apply elem_of_app in Hl' as [Hl'|Hl'].
    + pose proof (Hs3 l' Hl') as Hml'.
      rewrite list_lookup_insert_ne; [done|]. intros Heq.
      rewrite Heq, Hml' in Hm. unfold polarity in Hm.
      destruct (IsPositive l'); discriminate.
    + apply list_elem_of_singleton in Hl' as ->.
      apply list_lookup_insert_eq. by eapply lookup_lt_Some.
Qed.

Lemma unsat_equivalent pb pb1 :
  (∀ σ, ¬ formulaTrue σ pb) → (∀ σ, ¬ formulaTrue σ pb1) →
  equivalent pb pb1.
Proof. intros H H1 σ. split; intros Hf; [by apply H in Hf|by apply H1 in Hf]. Qed.

Lemma formulaTrueN_all σ pb :
  formulaTrueN σ pb (length (Clauses pb)) ↔ formulaTrue σ pb.
Proof.
  unfold formulaTrueN, formulaTrue, dbTrue. split; intros [Hc Hu]; split;
    try done.
  - intros p c Hp Hs. apply list_elem_of_lookup in Hp as [j Hj].
    eapply Hc; [|done..]. by eapply lookup_lt_Some.
  - intros j p c _ Hp Hs. eapply Hc; [|done]. by eapply list_elem_of_lookup_2.
Qed.

Lemma formulaTrueN_take σ pb nb :
  nb ≤ length (Clauses pb) →
  formulaTrue σ (setClauses (take nb (Clauses pb)) pb) ↔ formulaTrueN σ pb nb.
Proof.
  intros Hnb. unfold formulaTrueN, formulaTrue, dbTrue. simpl.
  split; intros [Hc Hu]; split; try done.
  - intros j p c Hj Hp Hs. eapply Hc; [|done].
    apply list_elem_of_lookup. exists j. by rewrite lookup_take_lt.
  - intros p c Hp Hs. apply list_elem_of_lookup in Hp as [j Hj].
    pose proof (lookup_lt_Some _ _ _ Hj) as Hlt. rewrite length_take in Hlt.
    rewrite lookup_take_lt in Hj by lia. eapply Hc; [|done..]. lia.
Qed.

(** Writing a clause of the same truth value at [p]. *)
Lemma formulaTrueN_store σ pb p c c' nb :
  store pb !! p = Some c →
  (unitsTrue σ (Units pb) → clauseTrue σ c' ↔ clauseTrue σ c) →
  formulaTrueN σ (setStore (<[p := c']> (store pb)) pb) nb ↔
  formulaTrueN σ pb nb.
Proof.
  intros Hp Heq. unfold formulaTrueN. simpl.
  pose proof (lookup_lt_Some _ _ _ Hp) as Hlt.
  split; intros [Hc Hu]; (split; [|done]); intros j q d Hj Hq Hd.
  - destruct (decide (q = p)) as [->|Hne].
    + assert (d = c) as -> by congruence. apply Heq; [done|].
      eapply (Hc j p c'); [done..|]. by apply list_lookup_insert_eq.
    + eapply (Hc j q d); [done..|]. by rewrite list_lookup_insert_ne.
  - destruct (decide (q = p)) as [->|Hne].
    + rewrite list_lookup_insert_eq in Hd by done. injection Hd as <-.
      apply Heq; [done|]. by eapply (Hc j p c).
    + rewrite list_lookup_insert_ne in Hd by done. by eapply (Hc j q d).
Qed.

(** Overwriting position [i], whose clause is true, by the last of the
    first [nb] pointers. *)
Lemma formulaTrueN_move σ pb i nb q :
  i < nb → Clauses pb !! (nb - 1) = Some q →
  (unitsTrue σ (Units pb) →
   ∀ p c, Clauses pb !! i = Some p → store pb !! p = Some c →
     clauseTrue σ c) →
  formulaTrueN σ (setClauses (<[i := q]> (Clauses pb)) pb) (nb - 1) ↔
  formulaTrueN σ pb nb.
Proof.
  intros Hi Hq Htrue. unfold formulaTrueN. simpl.
  pose proof (lookup_lt_Some _ _ _ Hq) as Hlt.
  split; intros [Hc Hu]; (split; [|done]); intros j p c Hj Hp Hs.
  - destruct (decide (j = i)) as [->|Hji]; [by eapply Htrue|].
    destruct (decide (j = nb - 1)) as [->|Hjn].
    + assert (p = q) as -> by congruence.
      eapply (Hc i q c); [lia| |done].
      apply list_lookup_insert_eq. lia.
    + eapply (Hc j p c); [lia| |done]. by rewrite list_lookup_insert_ne.
  - destruct (decide (j = i)) as [->|Hji].
    + rewrite list_lookup_insert_eq in Hp by lia. injection Hp as <-.
      eapply (Hc (nb - 1) q c); [lia|done..].
    + rewrite list_lookup_insert_ne in Hp by done.
      eapply (Hc j p c); [lia|done..].
Qed.

(** One more unit, which the formula implies. *)
Lemma formulaTrueN_unit σ pb l m nb :
  (formulaTrueN σ pb nb → litTrue σ l = true) →
  formulaTrueN σ (setUnits (Units pb ++ [l]) (setModel m pb)) nb ↔
  formulaTrueN σ pb nb.
Proof.
  intros Himp. unfold formulaTrueN in *. simpl. split.
  - intros [Hc Hu]. split; [done|]. intros l' Hl'. apply Hu.
    apply elem_of_app. by left.
  - intros [Hc Hu]. split; [done|]. intros l' Hl'.
    apply elem_of_app in Hl' as [Hl'|Hl']; [by apply Hu|].
    apply list_elem_of_singleton in Hl' as ->. by apply Himp.
Qed.

(** Propagation keeps the models of the formula, the agreement of the
    model with the units, and the justification of [Unsat]. *)
Lemma Simplify2_sound pb pb' :
  consistent pb → Simplify2 pb = Ok pb' →
  consistent pb' ∧ equivalent pb pb'.
Proof.
  intros [Hsync Hunsat].
  pose (P := λ (pb1 : Problem) (i nb : nat) (rs : bool),
          synced pb1 ∧ status pb1 = status pb ∧ i ≤ nb ∧
          nb ≤ length (Clauses pb1) ∧
          ∀ σ, formulaTrueN σ pb1 nb ↔ formulaTrue σ pb).
  apply (Simplify2_inv P (λ pb1, consistent pb1 ∧ equivalent pb pb1)).
  - intros pb1 i nb rs r (Hs1 & Hst1 & Hinb & Hnb & Heq) Hi Hr.
    apply scanClause_Ok in Hr
      as (p & c & clauseSat & nbLits & c' & Hp & Hc & Hscan & Hr).
    pose proof (λ σ, scanLits_equiv pb1 c clauseSat nbLits c' σ Hs1 Hscan)
      as Hcl.
    pose proof (scanLits_spec _ _ _ _ _ _ _ _ Hscan eq_refl (le_n _)
                  (Forall_nil_2 _)) as (Hlen & Hle & _ & _ & Hfalse & _).
    set (pb1' := setStore (<[p := c']> (store pb1)) pb1) in *.
    assert (∀ σ, formulaTrueN σ pb1' nb ↔ formulaTrue σ pb) as Heq'.
    { intros σ. rewrite <- Heq. apply (formulaTrueN_store σ pb1 p c c');
        [done|]. intros Hu. by apply Hcl. }
    assert (store pb1' !! p = Some c') as Hc'.
    { simpl. apply list_lookup_insert_eq. by eapply lookup_lt_Some. }
    simpl in Hr.
    destruct Hr as [(-> & pb2 & Hmv & ->)|[(-> & -> & ->)
      |[(-> & -> & first & pb2 & Hfirst & Hau & Hr)|(-> & Hn2 & ->)]]].
    + (* the clause is satisfied *)
      apply moveClause_Ok in Hmv as (q & Hq & Hil & ->).
      unfold P. simpl. split_and!; [done|done|lia|rewrite length_insert; lia|].
      intros σ. rewrite <- Heq'.
      apply (formulaTrueN_move σ pb1' i nb q); [done|done|].
      intros Hu p0 c0 Hp0 Hc0. simpl in Hp0.
      assert (p0 = p) as Hpp by congruence. rewrite Hpp in Hc0.
      assert (c0 = c') as Hcc by congruence. rewrite Hcc.
      destruct (Hcl σ Hu) as (_ & Hsat & _). by apply Hsat.
    + (* no literal is left *)
      assert (∀ σ, unitsTrue σ (Units pb1) → ¬ clauseTrue σ c') as Hno.
      { intros σ Hu Hc0. destruct (Hcl σ Hu) as (Hcc & _ & Hft).
        apply (proj1 Hcc) in Hc0. apply (proj2 (Hft eq_refl)) in Hc0.
        simpl in Hc0. by apply clauseTrue_nil in Hc0. }
      assert (∀ σ, ¬ formulaTrue σ pb) as Hpb.
      { intros σ Hf. apply Heq' in Hf as [Hdb Hu].
        apply (Hno σ Hu). by eapply (Hdb i p c'). }
      assert (∀ σ, ¬ formulaTrue σ (setStatus Unsat pb1')) as Hpb1.
      { intros σ [Hdb Hu]. apply (Hno σ Hu). eapply (Hdb p c'); [|done].
        simpl. by eapply list_elem_of_lookup_2. }
      split; [split; [done|by intros _]|by apply unsat_equivalent].
    + (* one literal is left *)
      destruct (Hfalse eq_refl) as [Hunb Hcov].
      assert (take 1 c' = [first]) as Htake.
      { destruct c' as [|l0 c0]; [done|]. simpl in Hfirst.
        injection Hfirst as ->. done. }
      rewrite Htake in Hunb. apply Forall_cons in Hunb as [Hunb _].
      destruct (addUnit_unbound first pb1' pb2 Hunb Hau) as [-> Hs2].
      specialize (Hs2 Hs1).
      set (pb2 := setUnits _ _) in *.
      assert (∀ σ, formulaTrueN σ pb1' nb → litTrue σ first = true) as Himp.
      { intros σ [Hdb Hu]. apply clauseTrue_singleton. rewrite <- Htake.
        destruct (Hcl σ Hu) as (Hcc & _ & Hft).
        apply (proj2 (Hft eq_refl)), (proj1 Hcc). by eapply (Hdb i p c'). }
      assert (∀ σ, formulaTrueN σ pb2 nb ↔ formulaTrue σ pb) as Heq2.
      { intros σ. rewrite <- Heq'. apply formulaTrueN_unit. apply Himp. }
      destruct Hr as [[Hu2 ->]|(Hu2 & pb3 & Hmv & ->)].
      * (* the status was [Unsat] before *)
        assert (status pb = Unsat) as Hu0 by (rewrite <- Hst1; exact Hu2).
        assert (∀ σ, ¬ formulaTrue σ pb2) as Hpb2.
        { intros σ Hf. apply (Hunsat Hu0 σ), Heq2.
          destruct Hf as [Hdb Hu]. split; [|done].
          intros j p0 c0 _ Hp0 Hc0. eapply (Hdb p0 c0); [|done].
          by eapply list_elem_of_lookup_2. }
        split; [split; [done|by intros _]|].
        apply unsat_equivalent; [by apply Hunsat|done].
      * apply moveClause_Ok in Hmv as (q & Hq & Hil & ->).
        unfold P. simpl.
        split_and!; [done|done|lia|rewrite length_insert; lia|].
        intros σ. rewrite <- Heq2.
        apply (formulaTrueN_move σ pb2 i nb q); [done|done|].
        intros Hu p0 c0 Hp0 Hc0. simpl in Hp0, Hc0.
        assert (p0 = p) as Hpp by congruence. rewrite Hpp in Hc0.
        assert (c0 = c') as Hcc by (simpl in Hc'; congruence). rewrite Hcc.
        exists first. split; [by eapply list_elem_of_lookup_2|].
        apply Hu. simpl. apply elem_of_app. right. by left.
    + (* two literals or more are left *)
      unfold P. simpl. split_and!; [done|done|lia|done|].
      intros σ. rewrite <- Heq.
      apply (formulaTrueN_store σ pb1 p c (take nbLits c')); [done|].
      intros Hu. destruct (Hcl σ Hu) as (_ & _ & Hft). by apply Hft.
  - intros pb1 nb (? & ? & ? & ? & ?). unfold P. split_and!; auto. lia.
  - intros pb1 nb pb2 (Hs1 & Hst1 & _ & Hnb & Heq) Hu.
    unfold updateStatus in Hu. case_decide; [|done].
    assert (equivalent pb (setClauses (take nb (Clauses pb1)) pb1)) as He.
    { intros σ. by rewrite formulaTrueN_take, Heq. }
    case_decide; simplify_eq.
    + split; [split; [done|done]|]. intros σ. rewrite (He σ). done.
    + split; [|done]. split; [done|]. simpl. intros Hu2 σ Hf.
      apply He in Hf. apply (Hunsat ltac:(congruence) σ Hf).
  - unfold P. split_and!; [done|done|lia|done|].
    intros σ. apply formulaTrueN_all.
Qed.

(** ** Self-subsumption keeps the models *)

Lemma consistent_equivalent pb pb' :
  consistent pb → equivalent pb pb' → synced pb' →
  (status pb' = Unsat → status pb = Unsat) → consistent pb'.
Proof.
  intros [_ Hu] He Hs Hst. split; [done|]. intros Hu' σ Hf.
  apply He in Hf. by apply (Hu (Hst Hu') σ).
Qed.

Lemma appendClause_formula σ R pb :
  formulaTrue σ (appendClause R pb) ↔ formulaTrue σ pb ∧ clauseTrue σ R.
Proof.
  unfold formulaTrue, dbTrue, appendClause. simpl. split.
  - intros [Hdb Hu]. split_and!; [|done|].
    + intros p c Hp Hc. eapply (Hdb p c).
      * apply elem_of_app. by left.
      * by apply lookup_app_l_Some.
    + eapply (Hdb (length (store pb)) R).
      * apply elem_of_app. right. by left.
      * rewrite lookup_app_r by lia. by rewrite Nat.sub_diag.
  - intros [[Hdb Hu] HR]. split; [|done]. intros p c Hp Hc.
    destruct (decide (p < length (store pb))) as [Hlt|Hge].
    + rewrite lookup_app_l in Hc by done.
      apply elem_of_app in Hp as [Hp|Hp]; [by eapply Hdb|].
      apply list_elem_of_singleton in Hp. lia.
    + rewrite lookup_app_r in Hc by lia.
      destruct (p - length (store pb)) as [|k] eqn:Hk; simpl in Hc.
      * by injection Hc as <-.
      * by rewrite lookup_nil in Hc.
Qed.

Lemma swapRemove_elem i pb pb' :
  swapRemove i pb = Ok pb' →
  ∃ x, Clauses pb !! i = Some x ∧
    (∀ p, p ∈ Clauses pb ↔ p = x ∨ p ∈ Clauses pb') ∧
    (∀ j, j ≠ i → j < length (Clauses pb') →
       Clauses pb' !! j = Clauses pb !! j) ∧
    pb' = setClauses (Clauses pb') pb.
Proof.
  intros H. destruct (swapRemove_Permutation _ _ _ H) as (x & Hx & Hperm & Hpb').
  exists x. split_and!; [done| |  |done].
  - intros p. rewrite <- Hperm. apply elem_of_cons.
  - apply swapRemove_Ok in H as (n & last & Hlen & Hlast & Hi & ->).
    simpl. intros j Hj Hlt. rewrite length_take, length_insert in Hlt.
    rewrite lookup_take_lt by lia. by rewrite list_lookup_insert_ne.
Qed.

(** Removing a clause that the remaining formula implies. *)
Lemma swapRemove_equivalent i pb pb' p c :
  swapRemove i pb = Ok pb' →
  Clauses pb !! i = Some p → store pb !! p = Some c →
  (∀ σ, formulaTrue σ pb' → clauseTrue σ c) →
  equivalent pb pb'.
Proof.
  intros H Hp Hc Himp.
  apply swapRemove_elem in H as (x & Hx & Hel & _ & Hpb').
  assert (x = p) as -> by congruence.
  assert (store pb' = store pb ∧ Units pb' = Units pb) as [Hst Hun]
    by (by rewrite Hpb').
  intros σ. split.
  - intros [Hdb Hu]. split; [|by rewrite Hun].
    intros q d Hq Hd. rewrite Hst in Hd. eapply Hdb; [|done].
    apply Hel. by right.
  - intros Hf. pose proof (Himp σ Hf) as Hcl. destruct Hf as [Hdb Hu].
    split; [|by rewrite <- Hun]. intros q d Hq Hd.
    apply Hel in Hq as [->|Hq].
    + by assert (d = c) as -> by congruence.
    + eapply Hdb; [done|]. by rewrite Hst.
Qed.

(** The unit case of the switch. *)
Lemma inferUnit_sound lit2 pb r :
  synced pb → inferUnit lit2 pb = Ok r →
  match r with
  | Ret pb' => pb' = setStatus Unsat pb ∧ falsifiedLit (Model pb) lit2
  | Go pb' =>
    synced pb' ∧ status pb' = status pb ∧ Clauses pb' = Clauses pb ∧
    store pb' = store pb ∧ lit2 ∈ Units pb' ∧
    ∀ σ, unitsTrue σ (Units pb') ↔
         unitsTrue σ (Units pb) ∧ litTrue σ lit2 = true
  end.
Proof.
  intros [Hs2 Hs3] H. apply inferUnit_Ok in H as (m & Hm & H).
  fold (polarity lit2) in H. simpl in H.
  destruct H as [[Hmb ->]|[Hmb ->]].
  - split; [done|]. exists m. split; [done|].
    destruct (polarity_cases lit2) as [(Hp & Hpol & _)|(Hp & Hpol & _)];
      rewrite Hpol in Hmb; subst m; rewrite Hp; done.
  - set (pb1 := setModel _ pb).
    assert (m = 0%Z ∨ m = polarity lit2) as Hm'.
    { destruct (Hs2 _ _ Hm) as [?|[[? _]|[? _]]]; [by left|..]; right;
        unfold polarity in *; destruct (IsPositive lit2); lia. }
    assert (∀ units, lit2 ∈ units → (∀ l, l ∈ Units pb → l ∈ units) →
              (∀ l, l ∈ units → l ∈ Units pb ∨ l = lit2) →
              synced (setUnits units pb1) ∧
              ∀ σ, unitsTrue σ units ↔
                   unitsTrue σ (Units pb) ∧ litTrue σ lit2 = true) as Hgen.
    { intros units Hin Hsub Hsup. split; [split|]; simpl.
      - intros v m0 Hv. destruct (decide (v = Lit_Var lit2)) as [->|Hne].
        + rewrite list_lookup_insert_eq in Hv by (by eapply lookup_lt_Some).
          injection Hv as <-.
          destruct (polarity_cases lit2) as [(_ & -> & Hl)|(_ & -> & Hl)].
          * right; left. split; [done|]. by rewrite <- Hl.
          * right; right. split; [done|]. by rewrite <- Hl.
        + rewrite list_lookup_insert_ne in Hv by done.
          destruct (Hs2 v m0 Hv) as [?|[[? ?]|[? ?]]]; auto.
      - intros l Hl. destruct (decide (Lit_Var l = Lit_Var lit2)) as [Heq|Hne].
        + rewrite Heq.
          rewrite list_lookup_insert_eq by (by eapply lookup_lt_Some).
          f_equal. apply Hsup in Hl as [Hl| ->]; [|done].
          apply Hs3 in Hl. rewrite Heq, Hm in Hl. injection Hl as Hl.
          destruct Hm' as [->| ->]; [|done].
          unfold polarity in Hl. destruct (IsPositive l); discriminate.
        + rewrite list_lookup_insert_ne by done.
          apply Hsup in Hl as [Hl| ->]; [by apply Hs3|done].
      - intros σ. unfold unitsTrue. split.
        + intros Hu. split; [intros l Hl; by apply Hu, Hsub|by apply Hu].
        + intros [Hu Hl] l Hl'. apply Hsup in Hl' as [Hl'| ->]; auto. }
    destruct (existsb (Nat.eqb lit2) (Units pb)) eqn:Hex.
    + apply existsb_eqb_elem_of in Hex.
      destruct (Hgen (Units pb)) as [Hsy Hun]; [done|done|by left|].
      assert (setUnits (Units pb) pb1 = pb1) as Heq by done.
      rewrite Heq in Hsy. split_and!; done.
    + destruct (Hgen (Units pb ++ [lit2])) as [Hsy Hun].
      * apply elem_of_app. right. by left.
      * intros l Hl. apply elem_of_app. by left.
      * intros l Hl. apply elem_of_app in Hl as [?|Hl]; [by left|].
        apply list_elem_of_singleton in Hl. by right.
      * split_and!; try done. simpl. apply elem_of_app. right. by left.
Qed.

Section SelfSubSound.
Context `{ops : ClauseOps} `{!ClauseOpsSound ops}.

Lemma addResolvent_sound newC pb r :
  consistent pb → (∀ σ, formulaTrue σ pb → clauseTrue σ newC) →
  addResolvent newC pb = Ok r →
  match r with
  | Ret pb' => consistent pb' ∧ equivalent pb pb'
  | Go pb' =>
    synced pb' ∧ status pb' = status pb ∧ equivalent pb pb' ∧
    (∀ p c, store pb !! p = Some c → store pb' !! p = Some c) ∧
    (∃ extra, Clauses pb' = Clauses pb ++ extra) ∧
    derivable newC pb pb'
  end.
Proof.
  intros [Hsy Hun] Himp H.
  apply addResolvent_Ok in H as (isSat & c & HS & H).
  destruct H as [[-> ->]|[(-> & -> & ->)|[(-> & l & -> & H)|(-> & Hlen & ->)]]].
  - (* a tautology: nothing is added *)
    split_and!; [done|done|apply equivalent_refl|done|exists []|].
    + by rewrite app_nil_r.
    + intros pbX _ σ _. by eapply Simplify_valid.
  - (* the empty clause *)
    assert (∀ σ, ¬ formulaTrue σ pb) as Hno.
    { intros σ Hf. apply Himp in Hf. apply (Simplify_equiv σ _ _ HS) in Hf.
      by apply clauseTrue_nil in Hf. }
    split; [split; [done|intros _; apply Hno]|by apply unsat_equivalent].
  - (* a unit *)
    assert (∀ σ, formulaTrue σ pb → litTrue σ l = true) as Hl.
    { intros σ Hf. apply clauseTrue_singleton.
      apply (Simplify_equiv σ _ _ HS). by apply Himp. }
    apply (inferUnit_sound l pb r Hsy) in H.
    destruct r as [pb'|pb'].
    + destruct H as (Hsy' & Hst & Hcl & Hsto & Hin & Hu).
      assert (equivalent pb pb') as He.
      { intros σ. unfold formulaTrue, dbTrue. rewrite Hcl, Hsto, (Hu σ).
        split; [|tauto]. intros [Hdb Hun']. split_and!; [done..|].
        by apply Hl. }
      split_and!; [done|done|done|by rewrite Hsto|exists []|].
      * by rewrite Hcl, app_nil_r.
      * intros pbX (HuX & _ & _) σ [_ Hut]. apply (Simplify_equiv σ _ _ HS).
        apply clauseTrue_singleton. apply Hut. by rewrite HuX.
    + destruct H as [-> Hfl].
      assert (∀ σ, ¬ formulaTrue σ pb) as Hno.
      { intros σ Hf. pose proof (Hl σ Hf) as Ht. destruct Hf as [_ Hu].
        destruct Hsy as [Hs2 _].
        rewrite (falsifiedLit_false pb Hs2 σ l Hu Hfl) in Ht. done. }
      split; [split; [done|intros _; apply Hno]|by apply unsat_equivalent].
  - (* a clause *)
    assert (equivalent pb (appendClause c pb)) as He.
    { intros σ. rewrite appendClause_formula. split; [|tauto].
      intros Hf. split; [done|]. apply (Simplify_equiv σ _ _ HS).
      by apply Himp. }
    split_and!; [done|done|done| |by eexists|].
    + intros p d Hp. simpl. by apply lookup_app_l_Some.
    + intros pbX (_ & HsX & HcX) σ [Hdb _].
      apply (Simplify_equiv σ _ _ HS).
      destruct (HcX (length (store pb))) as [Hin|[d Hd]].
      * simpl. apply elem_of_app. right. by left.
      * eapply Hdb; [done|]. rewrite HsX. simpl.
        rewrite lookup_app_r by lia. by rewrite Nat.sub_diag.
      * apply lookup_lt_Some in Hd. lia.
Qed.

(** One removal after the resolvent step: the clause removed is one of
    [pb], which [newC] implies. *)
Lemma removal_sound newC pb pb' pbA pbB i p c :
  derivable newC pb pb' → keepsAdded pb pb' pbA →
  (∀ q d, store pb !! q = Some d → store pb' !! q = Some d) →
  swapRemove i pbA = Ok pbB →
  Clauses pbA !! i = Some p → store pb !! p = Some c →
  (∀ σ, clauseTrue σ newC → clauseTrue σ c) →
  equivalent pbA pbB ∧ keepsAdded pb pb' pbB.
Proof.
  intros Hder (HuA & HsA & HcA) Hfr H Hp Hc Himp.
  pose proof (swapRemove_elem _ _ _ H) as (x & Hx & Hel & _ & HpbB).
  assert (x = p) as -> by congruence.
  assert (keepsAdded pb pb' pbB) as Hk.
  { split_and!; [by rewrite HpbB|by rewrite HpbB|].
    intros q Hq. destruct (HcA q Hq) as [Hin|?]; [|by right].
    apply Hel in Hin as [->|?]; [right; eauto|by left]. }
  split; [|done].
  eapply (swapRemove_equivalent i pbA pbB p c); [done|done| |].
  - rewrite HsA. by apply Hfr.
  - intros σ Hf. apply Himp. by eapply Hder.
Qed.

Lemma occursOf_ext pb pb' occ :
  extendsTrace pb pb' → occursOf pb occ → occursOf pb' occ.
Proof.
  intros He [Hlen Hocc]. pose proof He as [evs ->]. split; [done|].
  intros l o Ho i. rewrite (extendsTrace_clauseAt _ _ _ He). by apply Hocc.
Qed.

Lemma clauseAt_dbTrue σ pb i c :
  clauseAt pb i = Some c → dbTrue σ pb → clauseTrue σ c.
Proof.
  intros H Hdb. apply clauseAt_Some in H as (p & Hp & Hc).
  eapply Hdb; [|done]. by eapply list_elem_of_lookup_2.
Qed.

(** The turn for one pair keeps the models of the formula. *)
Lemma pairStep_sound pbI v idx1 idx2 s r o1 o2 :
  consistent (problem s) → equivalent pbI (problem s) →
  occursOf (problem s) (occurs s) →
  occurs s !! Var_Lit v = Some o1 → idx1 ∈ o1 →
  occurs s !! Negation (Var_Lit v) = Some o2 → idx2 ∈ o2 →
  pairStep v idx1 idx2 s = Ok r →
  consistent (pairProblem r) ∧ equivalent pbI (pairProblem r) ∧
  match r with
  | PairNext s' | PairBreak s' => occursOf (problem s') (occurs s')
  | PairReturn _ => True
  end.
Proof.
  intros Hcons HeI Hocc Ho1 Hi1 Ho2 Hi2 H.
  apply pairStep_Ok in H as (c1 & c2 & H1 & H2 & H).
  assert (Var_Lit v ∈ c1) as Hv1.
  { destruct Hocc as [_ Hocc]. apply (Hocc _ _ Ho1) in Hi1 as (c & Hc & Hl).
    by assert (c = c1) as <- by congruence. }
  assert (Negation (Var_Lit v) ∈ c2) as Hv2.
  { destruct Hocc as [_ Hocc]. apply (Hocc _ _ Ho2) in Hi2 as (c & Hc & Hl).
    by assert (c = c2) as <- by congruence. }
  set (pb0 := logEvent (EvPair (Var_Lit v) idx1 idx2) (problem s)) in *.
  pose proof (extendsTrace_log (problem s) (EvPair (Var_Lit v) idx1 idx2))
    as Hext. fold pb0 in Hext.
  pose proof (extendsTrace_consistent _ _ Hext Hcons) as Hcons0.
  pose proof (equivalent_trans _ _ _ HeI (extendsTrace_equivalent _ _ Hext))
    as HeI0.
  pose proof (occursOf_ext _ _ _ Hext Hocc) as Hocc0.
  simpl in H.
  destruct H as [(_ & _ & ->)|(newC & removals & r1 & Hbr & Hadd & Hr)];
    [done|].
  assert (clauseAt pb0 idx1 = Some c1) as H1' by done.
  assert (clauseAt pb0 idx2 = Some c2) as H2' by done.
  assert (∀ σ, formulaTrue σ pb0 →
            clauseTrue σ (Generate c1 c2 v) ∧
            clauseTrue σ (Generate c2 c1 v)) as Hgen.
  { intros σ [Hdb _]. apply Generate_sound; try done.
    - by eapply clauseAt_dbTrue.
    - by eapply clauseAt_dbTrue. }
  assert (∀ σ, formulaTrue σ pb0 → clauseTrue σ newC) as Himp.
  { intros σ Hf. destruct (Hgen σ Hf) as [Hg1 Hg2].
    by destruct Hbr as [(_ & _ & -> & _)|[(_ & _ & -> & _)
      |(_ & _ & -> & _)]]. }
  apply (addResolvent_sound newC pb0 r1 Hcons0 Himp) in Hadd.
  destruct r1 as [pb1|pb1].
  2:{ subst r. destruct Hadd as [Hc1 He1]. simpl.
      split_and!; [done|by eapply equivalent_trans|done]. }
  destruct Hadd as (Hsy1 & Hst1 & He1 & Hfr & [extra Hextra] & Hder).
  apply removeAndRebuild_Ok in Hr
    as (o & Ho & [(_ & pbX & occX & Hrm & HoccX & ->)|(Hlen & _)]).
  2:{ assert (o = o2) as -> by congruence.
      destruct o2; [by apply elem_of_nil in Hi2|done]. }
  apply clauseAt_Some in H1' as (p1 & Hp1 & Hc1).
  apply clauseAt_Some in H2' as (p2 & Hp2 & Hc2).
  assert (Clauses pb1 !! idx1 = Some p1) as Hp1'.
  { rewrite Hextra. by apply lookup_app_l_Some. }
  assert (Clauses pb1 !! idx2 = Some p2) as Hp2'.
  { rewrite Hextra. by apply lookup_app_l_Some. }
  assert (keepsAdded pb0 pb1 pb1) as Hk1.
  { split_and!; [done|done|]. intros p Hp. by left. }
  assert (SelfSubsumes c1 c2 = true →
          ∀ σ, clauseTrue σ (Generate c1 c2 v) → clauseTrue σ c2) as HP.
  { intros HS σ Hg. eapply (SelfSubsumes_sound σ c1 c2 v); [done| |by left].
    by left. }
  assert (SelfSubsumes c2 c1 = true →
          ∀ σ, clauseTrue σ (Generate c2 c1 v) ∨
               clauseTrue σ (Generate c1 c2 v) → clauseTrue σ c1) as HN.
  { intros HS σ Hg. eapply (SelfSubsumes_sound σ c2 c1 v); [done| |done].
    by right. }
  assert (equivalent pb1 pbX) as HeX.
  { destruct Hbr as [(HSP & HSN & -> & ->)|[(HSP & _ & -> & ->)
      |(_ & HSN & -> & ->)]]; simpl in Hrm.
    - (* both clauses are removed *)
      apply bind_Ok in Hrm as (pbB & HB & HX).
      assert (idx1 ≠ idx2) as Hne.
      { intros ->. assert (c1 = c2) as -> by congruence.
        by rewrite SelfSubsumes_irrefl in HSP. }
      destruct (removal_sound _ pb0 pb1 pb1 pbB idx1 p1 c1 Hder Hk1 Hfr HB
                  Hp1' Hc1) as [HeB HkB].
      { intros σ Hg. apply (HN HSN). by right. }
      assert (Clauses pbB !! idx2 = Some p2) as Hp2B.
      { apply swapRemove_elem in HB as (x & _ & _ & Hsame & _).
        rewrite Hsame; [done|done|].
        apply swapRemove_Ok in HX as (n & last & Hl & _ & Hi & _). lia. }
      destruct (removal_sound _ pb0 pb1 pbB pbX idx2 p2 c2 Hder HkB Hfr HX
                  Hp2B Hc2) as [HeX _]; [by apply HP|].
      by eapply equivalent_trans.
    - by destruct (removal_sound _ pb0 pb1 pb1 pbX idx2 p2 c2 Hder Hk1 Hfr Hrm
                     Hp2' Hc2 (HP HSP)) as [HeX _].
    - destruct (removal_sound _ pb0 pb1 pb1 pbX idx1 p1 c1 Hder Hk1 Hfr Hrm
                  Hp1' Hc1) as [HeX _]; [|done].
      intros σ Hg. apply (HN HSN). by left. }
  apply removals_status in Hrm as (HstX & HuX & HmX & _).
  pose proof (equivalent_trans _ _ _ He1 HeX) as He0X.
  simpl. split_and!.
  - apply (consistent_equivalent pb0); [done|done| |congruence].
    destruct Hsy1 as [Ha Hb]. split; rewrite HuX, HmX; done.
  - by eapply equivalent_trans.
  - by apply buildOccurs_Ok.
Qed.

(** The self-subsumption pass keeps the models of the formula. *)
Lemma SelfSub_sound fuel pb pb' :
  consistent pb → SelfSub fuel pb = Ok pb' →
  consistent pb' ∧ equivalent pb pb'.
Proof.
  intros Hcons H. unfold SelfSub in H.
  apply bind_Ok in H as (occ & Hocc & H). apply buildOccurs_Ok in Hocc.
  apply bind_Ok in H as (r & Hl & H).
  pose (P := λ s, consistent (problem s) ∧ equivalent pb (problem s) ∧
                  occursOf (problem s) (occurs s)).
  pose (Q := λ pb1, consistent pb1 ∧ equivalent pb pb1).
  assert (flowPost P Q r) as Hr.
  { eapply (selfSubLoop_inv P Q); [| | | |exact Hl].
    - intros v idx1 idx2 s r1 o1 o2 (Hc & He & Ho) Ho1 Hi1 Ho2 Hi2 Hp.
      destruct (pairStep_sound pb v idx1 idx2 s r1 o1 o2 Hc He Ho Ho1 Hi1
                  Ho2 Hi2 Hp) as (Hc' & He' & Ho').
      destruct r1; unfold P, Q; simpl in *; by split_and!.
    - intros s l (Hc & He & Ho). unfold P. simpl.
      pose proof (extendsTrace_log (problem s) (EvExamining l)) as Hext.
      split_and!.
      + by eapply extendsTrace_consistent.
      + eapply equivalent_trans; [exact He|].
        by apply extendsTrace_equivalent.
      + by eapply occursOf_ext.
    - intros s HP. exact HP.
    - unfold P. simpl. split_and!; [done|apply equivalent_refl|done]. }
  destruct r as [s|pb1]; simpl in Hr.
  - destruct Hr as (Hc & He & _).
    destruct (neverModified s); [by simplify_eq|].
    destruct (Simplify2_sound _ _ Hc H) as [Hc' He'].
    split; [done|]. by eapply equivalent_trans.
  - by simplify_eq.
Qed.

End SelfSubSound.

(** ** Subsumption keeps the models *)

Section SubsumptionSound.
Context `{ops : ClauseOps} `{!ClauseOpsSound ops}.

(** Every clause of the database follows from the clauses the pass
    keeps: a marked clause has a strictly shorter subsumer. *)
Lemma kept_imply_marked σ pb pbM toRemove :
  subsumeMark pb = Ok (pbM, toRemove) →
  dbTrue σ (setClauses (keepClauses toRemove 0 (Clauses pbM)) pbM) →
  dbTrue σ pbM.
Proof.
  intros Hm Hdb.
  pose proof (subsumeMark_marks _ _ _ Hm) as Hmarks.
  pose proof (subsumeMark_extends _ _ _ Hm) as He.
  assert (∀ n k c, length c < n → clauseAt pbM k = Some c → clauseTrue σ c)
    as Hind.
  { induction n as [|n IH]; intros k c Hlen Hk; [lia|].
    destruct (decide (k ∈ toRemove)) as [Hin|Hnot].
    - apply Hmarks in Hin
        as (i & l & m & ck & cm & _ & _ & _ & Hck & Hcm & _ & _ & Hlt & Hs).
      rewrite <- (extendsTrace_clauseAt _ _ k He) in Hck.
      rewrite <- (extendsTrace_clauseAt _ _ m He) in Hcm.
      assert (ck = c) as -> by congruence.
      eapply Subsumes_sound; [exact Hs|]. eapply (IH m); [lia|done].
    - apply clauseAt_Some in Hk as (p & Hp & Hc).
      eapply (Hdb p c); [|done]. simpl.
      by apply (keepClauses_elem_of _ 0 _ k). }
  intros p c Hp Hc. apply list_elem_of_lookup in Hp as [k Hk].
  eapply (Hind (S (length c)) k); [lia|]. apply clauseAt_Some. eauto.
Qed.

Lemma Subsumption_sound pb pb' :
  consistent pb → Subsumption pb = Ok pb' →
  consistent pb' ∧ equivalent pb pb'.
Proof.
  intros Hcons H. unfold Subsumption in H.
  apply bind_Ok in H as ([pbM toRemove] & Hm & H).
  apply bind_Ok in H as (occ & _ & H).
  pose proof (subsumeMark_extends _ _ _ Hm) as He.
  set (pbK := setClauses (keepClauses toRemove 0 (Clauses pbM)) pbM) in *.
  assert (equivalent pbM pbK) as HeK.
  { intros σ. split.
    - intros [Hdb Hu]. split; [|done]. intros p c Hp Hc.
      eapply Hdb; [|done]. exact (keepClauses_subseteq _ _ _ p Hp).
    - intros [Hdb Hu]. split; [|done]. by eapply kept_imply_marked. }
  pose proof (equivalent_trans _ _ _ (extendsTrace_equivalent _ _ He) HeK)
    as He0.
  assert (consistent pbK) as HcK.
  { apply (consistent_equivalent pb); [done|done| |].
    - destruct Hcons as [Hsy _]. by destruct He as [evs ->].
    - by destruct He as [evs ->]. }
  destruct (Simplify2_sound _ _ HcK H) as [Hc' He'].
  split; [done|]. by eapply equivalent_trans.
Qed.

Lemma Preprocess_sound fuel pb pb' :
  consistent pb → Preprocess fuel pb = Ok pb' →
  consistent pb' ∧ equivalent pb pb'.
Proof.
  intros Hcons H. unfold Preprocess in H.
  apply bind_Ok in H as (pb1 & H1 & H2).
  destruct (SelfSub_sound _ _ _ Hcons H1) as [Hc1 He1].
  destruct (Subsumption_sound _ _ Hc1 H2) as [Hc2 He2].
  split; [done|]. by eapply equivalent_trans.
Qed.

Lemma wfInput_consistent pb : wfInput pb → consistent pb.
Proof.
  intros (Hst & Hu & Hm & _). split; [split|].
  - intros v m Hv. rewrite Hm in Hv. apply lookup_replicate in Hv as [-> _].
    by left.
  - intros l Hl. rewrite Hu in Hl. by apply elem_of_nil in Hl.
  - congruence.
Qed.

Lemma extendsModel_units σ pb :
  synced pb → extendsModel σ (Model pb) → unitsTrue σ (Units pb).
Proof.
  intros [_ Hs3] Hext l Hl. apply Hs3 in Hl.
  destruct (Hext (Lit_Var l)) as [Hpos Hneg]. unfold litTrue, polarity in *.
  destruct (IsPositive l); [by apply Hpos|]. by rewrite (Hneg Hl).
Qed.

(** C1. For a well-formed input on which [Preprocess] returns, with
    clause operations that meet their contracts: the formula after
    [Preprocess], its clauses and its units, has a model if and only if
    the clauses of the input have one; an assignment that extends the
    final model (or makes the final units true) and satisfies the
    remaining clauses satisfies the clauses of the input; and a final
    status [Unsat] means that the input has no model. *)
Theorem Preprocess_preserves_satisfiability (fuel : nat) (pb pb' : Problem) :
  wfInput pb → Preprocess fuel pb = Ok pb' →
  ((∃ σ, formulaTrue σ pb') ↔ (∃ σ, dbTrue σ pb)) ∧
  (∀ σ, extendsModel σ (Model pb') → dbTrue σ pb' → dbTrue σ pb) ∧
  (∀ σ, unitsTrue σ (Units pb') → dbTrue σ pb' → dbTrue σ pb) ∧
  (status pb' = Unsat → ∀ σ, ¬ dbTrue σ pb).
Proof.
  intros Hwf H.
  destruct (Preprocess_sound _ _ _ (wfInput_consistent _ Hwf) H)
    as [[Hsy Hun] He].
  assert (∀ σ, formulaTrue σ pb ↔ dbTrue σ pb) as Hin.
  { intros σ. destruct Hwf as (_ & Hu & _). unfold formulaTrue.
    rewrite Hu. split; [by intros [? _]|]. intros Hdb. split; [done|].
    intros l Hl. by apply elem_of_nil in Hl. }
  split_and!.
  - split; intros [σ Hf]; exists σ.
    + by apply Hin, He.
    + by apply He, Hin.
  - intros σ Hext Hdb. apply Hin, He. split; [done|].
    by apply extendsModel_units.
  - intros σ Hu Hdb. apply Hin, He. by split.
  - intros Hu σ Hdb. apply (Hun Hu σ). by apply He, Hin.
Qed.

End SubsumptionSound.

(** ** Fuel

    [Simplify2] never uses up the fuel its loop is given, and the result
    of a pass that returns or panics is the same with more fuel. *)

Lemma bind_in_time {A B} (m : res A) (f : A → res B) :
  m ≠ OutOfFuel → (∀ a, m = Ok a → f a ≠ OutOfFuel) → m ≫= f ≠ OutOfFuel.
Proof. destruct m; simpl; [eauto|done..]. Qed.

Lemma idx_in_time {A} (l : list A) i : idx l i ≠ OutOfFuel.
Proof. unfold idx. by case_match. Qed.

Lemma scanLits_in_time model k c j nb :
  scanLits model k c j nb ≠ OutOfFuel.
Proof.
  revert c j nb. induction k as [|k IH]; intros c j nb; simpl; [done|].
  apply bind_in_time; [apply idx_in_time|intros lit _].
  apply bind_in_time; [apply idx_in_time|intros m _].
  destruct (m =? 0)%Z; [apply IH|].
  destruct (eqb _ _); [done|].
  apply bind_in_time; [apply idx_in_time|intros last _].
  case_decide; [apply IH|done].
Qed.

Lemma moveClause_in_time i nb pb : moveClause i nb pb ≠ OutOfFuel.
Proof.
  unfold moveClause. apply bind_in_time; [apply idx_in_time|intros q _].
  by case_decide.
Qed.

Lemma addUnit_in_time lit pb : addUnit lit pb ≠ OutOfFuel.
Proof.
  unfold addUnit, bind.
  apply bind_in_time; [apply idx_in_time|intros m _].
  repeat first [case_match | case_decide]; simpl; done.
Qed.

Lemma scanClause_in_time pb i nb rs : scanClause pb i nb rs ≠ OutOfFuel.
Proof.
  unfold scanClause.
  apply bind_in_time; [apply idx_in_time|intros p _].
  apply bind_in_time; [apply idx_in_time|intros c _].
  apply bind_in_time; [apply scanLits_in_time|intros [[sat nbLits] c'] _].
  destruct sat.
  { apply bind_in_time; [apply moveClause_in_time|done]. }
  case_decide; [done|]. case_decide; [|done].
  apply bind_in_time; [apply idx_in_time|intros first _].
  apply bind_in_time; [apply addUnit_in_time|intros pb1 _].
  case_decide; [done|].
  apply bind_in_time; [apply moveClause_in_time|done].
Qed.

Lemma scanClauses_in_time k pb i nb rs :
  scanClauses k pb i nb rs ≠ OutOfFuel.
Proof.
  revert pb i nb rs. induction k as [|k IH]; intros pb i nb rs; simpl; [done|].
  apply bind_in_time; [apply scanClause_in_time|intros [pb1|pb1 i1 nb1 rs1] _];
    [done|apply IH].
Qed.

(** A scan that asks for another one has taken a clause out. *)
Lemma scanClauses_restart k pb i nb rs pb' nb' rs' :
  k = nb - i → i ≤ nb →
  scanClauses k pb i nb rs = Ok (ScanDone pb' nb' rs') →
  nb' ≤ nb ∧ (rs' = rs ∨ nb' < nb).
Proof.
  revert pb i nb rs. induction k as [|k IH]; intros pb i nb rs Hk Hi H.
  - simpl in H. simplify_eq. auto.
  - simpl in H. apply bind_Ok in H as (r & Hr & H).
    destruct r as [pb1|pb1 i1 nb1 rs1]; [done|].
    assert (i < nb) as Hlt by lia.
    destruct (scanClause_measure _ _ _ _ _ _ _ _ Hlt Hr)
      as (Hm & Hle & Hnb & Hrs).
    assert (k = nb1 - i1) as Hk1 by lia.
    destruct (IH _ _ _ _ Hk1 Hle H) as [Hle' Hrs'].
    split; [lia|]. destruct Hrs as [->|[-> ?]]; [|right; lia].
    destruct Hrs' as [->|?]; [by left|right; lia].
Qed.

Lemma updateStatus_in_time nb pb : updateStatus nb pb ≠ OutOfFuel.
Proof. unfold updateStatus. by repeat case_decide. Qed.

Lemma restartLoop_in_time fuel pb nb :
  nb < fuel → restartLoop fuel pb nb ≠ OutOfFuel.
Proof.
  revert pb nb. induction fuel as [|fuel IH]; intros pb nb Hnb; [lia|].
  simpl. apply bind_in_time; [apply scanClauses_in_time|].
  intros [pb1|pb1 nb1 [|]] Hr; [done| |apply updateStatus_in_time].
  destruct (scanClauses_restart _ _ _ _ _ _ _ _
              (eq_sym (Nat.sub_0_r nb)) (Nat.le_0_l nb) Hr) as [? [?|?]];
    [done|].
  apply IH. lia.
Qed.

(** The loop [for restart] of [Simplify2] ends within the scans the
    model allows it. *)
Lemma Simplify2_total pb : Simplify2 pb ≠ OutOfFuel.
Proof. apply restartLoop_in_time. lia. Qed.

Section FuelMonotone.
Context `{ops : ClauseOps}.

Lemma selfSubLoop_fuel fuel fuel' s r :
  fuel ≤ fuel' → selfSubLoop fuel s = r → r ≠ OutOfFuel →
  selfSubLoop fuel' s = r.
Proof.
  revert fuel' s. induction fuel as [|fuel IH]; intros fuel' s Hle H Hr.
  - simpl in H. by subst.
  - destruct fuel' as [|fuel']; [lia|]. simpl in *.
    destruct (modified s); [|done].
    destruct (selfSubSweep _ _ _) as [[s1|pb1]| |]; simpl in *; try done.
    apply IH; [lia|done..].
Qed.

Lemma SelfSub_fuel fuel fuel' pb r :
  fuel ≤ fuel' → SelfSub fuel pb = r → r ≠ OutOfFuel → SelfSub fuel' pb = r.
Proof.
  unfold SelfSub. intros Hle H Hr.
  destruct (buildOccurs pb) as [occ| |]; simpl in *; try done.
  destruct (selfSubLoop fuel _) as [f| |] eqn:Hl; simpl in *.
  - by rewrite (selfSubLoop_fuel _ _ _ _ Hle Hl).
  - by rewrite (selfSubLoop_fuel _ _ _ _ Hle Hl).
  - by subst.
Qed.

(** More fuel does not change what [Preprocess] returns. *)
Lemma Preprocess_fuel fuel fuel' pb r :
  fuel ≤ fuel' → Preprocess fuel pb = r → r ≠ OutOfFuel →
  Preprocess fuel' pb = r.
Proof.
  unfold Preprocess. intros Hle H Hr.
  destruct (SelfSub fuel pb) as [pb1| |] eqn:Hs; simpl in *.
  - by rewrite (SelfSub_fuel _ _ _ _ Hle Hs).
  - by rewrite (SelfSub_fuel _ _ _ _ Hle Hs).
  - by subst.
Qed.

End FuelMonotone.

(** ** The reference operations meet the contracts *)

Lemma elem_of_refGenerate x c other v :
  x ∈ refGenerate c other v ↔
  if decide (Var_Lit v ∈ c)
  then (x ∈ c ∧ x ≠ Var_Lit v) ∨ (x ∈ other ∧ x ≠ Negation (Var_Lit v))
  else (x ∈ c ∧ x ≠ Negation (Var_Lit v)) ∨ (x ∈ other ∧ x ≠ Var_Lit v).
Proof.
  unfold refGenerate.
  destruct (existsb (Nat.eqb (Var_Lit v)) c) eqn:He.
  - apply existsb_eqb_elem_of in He. rewrite decide_True by done.
    rewrite elem_of_app, !list_elem_of_filter. tauto.
  - rewrite decide_False.
    + rewrite elem_of_app, !list_elem_of_filter. tauto.
    + intros Hin. apply existsb_eqb_elem_of in Hin. congruence.
Qed.

Lemma refSelfSubsumes_true c other :
  refSelfSubsumes c other = true →
  ∃ l, l ∈ c ∧ Negation l ∈ other ∧
    ∀ l', l' ∈ c → l' = l ∨ (l' ≠ Negation l ∧ l' ∈ other).
Proof.
  unfold refSelfSubsumes. intros H.
  apply existsb_exists in H as (l & Hl & H).
  apply andb_true_iff in H as [Hneg Hall].
  exists l. split_and!.
  - by apply list_elem_of_In.
  - by apply existsb_eqb_elem_of.
  - intros l' Hl'. rewrite forallb_forall in Hall.
    specialize (Hall l' (proj1 (list_elem_of_In _ _) Hl')).
    apply orb_true_iff in Hall as [Heq|Hin].
    + left. by apply Nat.eqb_eq.
    + right. apply andb_true_iff in Hin as [Hne Hin]. split.
      * apply negb_true_iff, Nat.eqb_neq in Hne. done.
      * by apply existsb_eqb_elem_of.
Qed.

Lemma tautology_true σ (c : list nat) l :
  l ∈ c → Negation l ∈ c → clauseTrue σ c.
Proof.
  intros Hl Hn. destruct (litTrue σ l) eqn:Ht.
  - by exists l.
  - exists (Negation l). split; [done|]. by rewrite litTrue_Negation, Ht.
Qed.

Lemma refOps_sound : ClauseOpsSound refOps.
Proof.
  split; simpl.
  - (* the resolvent follows from the two clauses *)
    intros σ c1 c2 v Hp Hn (l1 & Hl1 & Ht1) (l2 & Hl2 & Ht2).
    assert (litTrue σ (Var_Lit v) = true →
            litTrue σ (Negation (Var_Lit v)) = true → False) as Hex.
    { rewrite litTrue_Negation. intros ->. done. }
    split.
    + destruct (decide (l1 = Var_Lit v)) as [->|Hne1].
      * exists l2. split; [|done]. apply elem_of_refGenerate.
        rewrite decide_True by done. right. split; [done|].
        intros ->. by apply Hex.
      * exists l1. split; [|done]. apply elem_of_refGenerate.
        rewrite decide_True by done. left. done.
    + destruct (decide (Var_Lit v ∈ c2)) as [Hin|Hnin].
      * destruct (decide (l1 = Negation (Var_Lit v))) as [->|Hne1].
        -- exists l2. split; [|done]. apply elem_of_refGenerate.
           rewrite decide_True by done. left. split; [done|].
           intros ->. by apply Hex.
        -- exists l1. split; [|done]. apply elem_of_refGenerate.
           rewrite decide_True by done. right. done.
      * destruct (decide (l1 = Var_Lit v)) as [->|Hne1].
        -- exists l2. split; [|done]. apply elem_of_refGenerate.
           rewrite decide_False by done. left. split; [done|].
           intros ->. by apply Hex.
        -- exists l1. split; [|done]. apply elem_of_refGenerate.
           rewrite decide_False by done. right. done.
  - (* the resolvent implies the self-subsumed clause *)
    intros σ c other v HS Hv Hg.
    apply refSelfSubsumes_true in HS as (l & Hl & Hnl & Hall).
    destruct (decide (Var_Lit v ∈ other ∧ Negation (Var_Lit v) ∈ other))
      as [[Hpo Hno]|Hnt]; [exact (tautology_true σ other _ Hpo Hno)|].
    assert (refGenerate c other v ⊆ other ∧ refGenerate other c v ⊆ other)
      as [Hs1 Hs2].
    { destruct Hv as [[Hpc Hno]|[Hnc Hpo]].
      - assert (Var_Lit v ∉ other) as Hpo by tauto.
        assert (l = Var_Lit v) as ->.
        { destruct (Hall _ Hpc) as [?|[_ ?]]; done. }
        split; intros x Hx; apply elem_of_refGenerate in Hx.
        + rewrite decide_True in Hx by done.
          destruct Hx as [[Hx Hne]|[Hx _]]; [|done].
          destruct (Hall _ Hx) as [?|[_ ?]]; done.
        + rewrite decide_False in Hx by done.
          destruct Hx as [[Hx _]|[Hx Hne]]; [done|].
          destruct (Hall _ Hx) as [?|[_ ?]]; done.
      - assert (Negation (Var_Lit v) ∉ other) as Hno by tauto.
        assert (l = Negation (Var_Lit v)) as ->.
        { destruct (Hall _ Hnc) as [?|[_ ?]]; done. }
        rewrite Negation_involutive in Hall, Hnl.
        assert (Var_Lit v ∉ c) as Hpc.
        { intros Hpc. destruct (Hall _ Hpc) as [Heq|[Hne _]]; [|done].
          by apply (Negation_neq (Var_Lit v)). }
        split; intros x Hx; apply elem_of_refGenerate in Hx.
        + rewrite decide_False in Hx by done.
          destruct Hx as [[Hx Hne]|[Hx _]]; [|done].
          destruct (Hall _ Hx) as [?|[_ ?]]; done.
        + rewrite decide_True in Hx by done.
          destruct Hx as [[Hx _]|[Hx Hne]]; [done|].
          destruct (Hall _ Hx) as [?|[_ ?]]; done. }
    destruct Hg as [Hg|Hg].
    + exact (clauseTrue_subseteq σ _ _ Hs1 Hg).
    + exact (clauseTrue_subseteq σ _ _ Hs2 Hg).
  - (* no clause self-subsumes itself *)
    intros c. destruct (refSelfSubsumes c c) eqn:HS; [|done].
    apply refSelfSubsumes_true in HS as (l & Hl & Hnl & Hall).
    destruct (Hall _ Hnl) as [Heq|[Hne _]]; [|done].
    by apply Negation_neq in Heq.
  - (* a clause found trivially satisfiable is valid *)
    intros σ c c' H. unfold refSimplify in H.
    destruct (existsb _ c) eqn:He; [|done].
    apply existsb_exists in He as (l & Hl & He).
    apply list_elem_of_In in Hl. apply existsb_eqb_elem_of in He.
    exact (tautology_true σ c l Hl He).
  - (* the simplified clause has the same literals *)
    intros σ c c' H. unfold refSimplify in H.
    destruct (existsb _ c) eqn:He; [done|]. injection H as <-.
    unfold clauseTrue. by setoid_rewrite elem_of_remove_dups.
  - (* a subsuming clause implies the other *)
    intros σ c other H. apply clauseTrue_subseteq. intros l Hl.
    unfold refSubsumes in H. rewrite forallb_forall in H.
    apply existsb_eqb_elem_of, H. by apply list_elem_of_In.
Qed.

Lemma Preprocess_preserves_satisfiability_witness :
  ∃ pb', @Preprocess refOps 3 exChain = Ok pb' ∧
    ((∃ σ, formulaTrue σ pb') ↔ (∃ σ, dbTrue σ exChain)) ∧
    (∀ σ, extendsModel σ (Model pb') → dbTrue σ pb' → dbTrue σ exChain) ∧
    (∀ σ, unitsTrue σ (Units pb') → dbTrue σ pb' → dbTrue σ exChain) ∧
    (status pb' = Unsat → ∀ σ, ¬ dbTrue σ exChain).
Proof.
  eexists. split; [vm_compute; reflexivity|].
  apply (@Preprocess_preserves_satisfiability refOps refOps_sound 3 exChain).
  - apply wfInput_newProblem. repeat constructor; simpl; lia.
  - vm_compute; reflexivity.
Defined.

(** ** Unit propagation: termination, bounds and models *)

Lemma restartLoop_fuel fuel fuel' pb nb r :
  fuel ≤ fuel' → restartLoop fuel pb nb = r → r ≠ OutOfFuel →
  restartLoop fuel' pb nb = r.
Proof.
  revert fuel' pb nb. induction fuel as [|fuel IH]; intros fuel' pb nb Hle H Hr.
  - simpl in H. by subst.
  - destruct fuel' as [|fuel']; [lia|]. simpl in *.
    destruct (scanClauses _ _ _ _ _) as [[pb1|pb1 nb1 [|]]| |]; simpl in *;
      try done.
    apply IH; [lia|done..].
Qed.

(** X1. [Simplify2] terminates: every restart of its loop [for restart]
    follows the removal of a clause, so the loop is over after at most
    [len(pb.Clauses) + 1] scans of the database; more scans allowed
    change nothing. *)
Theorem Simplify2_restarts_are_bounded (pb : Problem) (fuel : nat) :
  length (Clauses pb) < fuel →
  restartLoop fuel pb (length (Clauses pb)) = Simplify2 pb ∧
  Simplify2 pb ≠ OutOfFuel.
Proof.
  intros Hf. split; [|apply Simplify2_total].
  apply (restartLoop_fuel (S (length (Clauses pb)))); [lia|done|].
  apply Simplify2_total.
Qed.

Lemma bind_no_panic {A B} (m : res A) (f : A → res B) :
  m ≠ Panic → (∀ a, m = Ok a → f a ≠ Panic) → m ≫= f ≠ Panic.
Proof. destruct m; simpl; [eauto|done..]. Qed.

Lemma idx_no_panic {A} (l : list A) i : i < length l → idx l i ≠ Panic.
Proof. intros Hi. destruct (idx_lt l i Hi) as (x & -> & _). done. Qed.

Lemma scanLits_no_panic model k c j nbLits :
  j + k = nbLits → nbLits ≤ length c →
  Forall (λ l, Lit_Var l < length model) c →
  scanLits model k c j nbLits ≠ Panic.
Proof.
  revert c j nbLits. induction k as [|k IH]; intros c j nbLits Hk Hn Hc;
    simpl; [done|].
  apply bind_no_panic; [apply idx_no_panic; lia|intros lit Hlit].
  apply idx_Ok in Hlit.
  assert (Lit_Var lit < length model) as Hv.
  { rewrite Forall_forall in Hc. apply Hc. by eapply list_elem_of_lookup_2. }
  apply bind_no_panic; [by apply idx_no_panic|intros m _].
  destruct (m =? 0)%Z; [apply IH; [lia|lia|done]|].
  destruct (eqb _ _); [done|].
  apply bind_no_panic; [apply idx_no_panic; lia|intros last Hlast].
  apply idx_Ok in Hlast.
  rewrite decide_True by lia.
  apply IH; [lia|rewrite length_insert; lia|].
  apply Forall_insert; [done|].
  rewrite Forall_forall in Hc. apply Hc. by eapply list_elem_of_lookup_2.
Qed.

Lemma addUnit_no_panic lit pb :
  Lit_Var lit < length (Model pb) → addUnit lit pb ≠ Panic.
Proof.
  intros Hv. unfold addUnit, bind.
  apply bind_no_panic; [by apply idx_no_panic|intros m _].
  rewrite !decide_True by done.
  repeat case_match; done.
Qed.

Lemma moveClause_no_panic i nb pb :
  i < length (Clauses pb) → nb < length (Clauses pb) →
  moveClause i nb pb ≠ Panic.
Proof.
  intros Hi Hnb. unfold moveClause.
  apply bind_no_panic; [by apply idx_no_panic|intros q _].
  by rewrite decide_True.
Qed.

Lemma inBounds_store pb p c c' :
  inBounds pb → store pb !! p = Some c → (∀ l, l ∈ c' → l ∈ c) →
  inBounds (setStore (<[p := c']> (store pb)) pb).
Proof.
  intros Hb Hc Hsub q Hq. simpl in *.
  destruct (Hb q Hq) as (d & Hd & Hf).
  destruct (decide (q = p)) as [->|Hne].
  - exists c'. split.
    + apply list_lookup_insert_eq. by eapply lookup_lt_Some.
    + simplify_eq. rewrite Forall_forall in *. auto.
  - exists d. by rewrite list_lookup_insert_ne.
Qed.

Lemma inBounds_move pb i nb q :
  inBounds pb → Clauses pb !! nb = Some q →
  inBounds (setClauses (<[i := q]> (Clauses pb)) pb).
Proof.
  intros Hb Hq p Hp. simpl in *.
  apply list_elem_of_lookup in Hp as [j Hj].
  apply list_lookup_insert_Some in Hj as [(_ & <- & _)|[_ Hj]].
  - apply Hb. by eapply list_elem_of_lookup_2.
  - apply Hb. by eapply list_elem_of_lookup_2.
Qed.

Lemma inBounds_addUnit lit pb pb' :
  inBounds pb → addUnit lit pb = Ok pb' →
  inBounds pb' ∧ Clauses pb' = Clauses pb.
Proof.
  intros Hb H. apply addUnit_Ok in H as (m & Hm & [[_ ->]|[_ ->]]);
    (split; [|done]); intros p Hp; simpl in *;
    destruct (Hb p Hp) as (c & Hc & Hf); exists c; split; try done.
  by rewrite length_insert.
Qed.

Lemma scanClause_no_panic pb i nb rs :
  inBounds pb → i < nb → nb ≤ length (Clauses pb) →
  scanClause pb i nb rs ≠ Panic.
Proof.
  intros Hb Hi Hnb. unfold scanClause.
  apply bind_no_panic; [apply idx_no_panic; lia|intros p Hp].
  apply idx_Ok in Hp.
  destruct (Hb p (list_elem_of_lookup_2 _ _ _ Hp)) as (c & Hc & Hf).
  apply bind_no_panic; [rewrite (proj2 (idx_Ok _ _ _) Hc); done|intros c0 Hc0].
  apply idx_Ok in Hc0. simplify_eq.
  apply bind_no_panic; [by apply scanLits_no_panic|].
  intros [[sat n] c'] Hs.
  destruct (scanLits_spec _ _ _ _ _ _ _ _ Hs eq_refl (le_n _) (Forall_nil_2 _))
    as (Hlen & Hn & Hsub & _).
  destruct sat.
  { apply bind_no_panic; [apply moveClause_no_panic; simpl; lia|done]. }
  case_decide; [done|]. case_decide; [|done].
  apply bind_no_panic; [apply idx_no_panic; lia|intros first Hfirst].
  apply idx_Ok in Hfirst.
  assert (Lit_Var first < length (Model pb)) as Hv.
  { rewrite Forall_forall in Hf. apply Hf, Hsub.
    by eapply list_elem_of_lookup_2. }
  apply bind_no_panic; [by apply addUnit_no_panic|intros pb2 H2].
  case_decide; [done|].
  apply inBounds_addUnit in H2 as [_ Hcl];
    [|by eapply inBounds_store].
  apply bind_no_panic; [|done].
  apply moveClause_no_panic; rewrite Hcl; simpl; lia.
Qed.

Lemma scanClause_inBounds pb i nb rs r :
  inBounds pb → i < nb → nb ≤ length (Clauses pb) →
  scanClause pb i nb rs = Ok r →
  match r with
  | ClauseReturn pb' => inBounds pb'
  | ClauseNext pb' i' nb' rs' => inBounds pb' ∧ nb' ≤ length (Clauses pb')
  end.
Proof.
  intros Hb Hi Hnb H.
  apply scanClause_Ok in H as (p & c & sat & n & c' & Hp & Hc & Hs & H).
  destruct (scanLits_spec _ _ _ _ _ _ _ _ Hs eq_refl (le_n _) (Forall_nil_2 _))
    as (Hlen & Hn & Hsub & Htake & _).
  pose proof (inBounds_store _ _ _ _ Hb Hc Hsub) as Hb1.
  simpl in H. destruct H as [(-> & pb2 & Hm & ->)|[(-> & -> & ->)|
    [(-> & -> & first & pb2 & Hfirst & Hadd & H)|(-> & Hn2 & ->)]]].
  - apply moveClause_Ok in Hm as (q & Hq & Hlt & ->). split.
    + by eapply inBounds_move.
    + simpl. rewrite length_insert. lia.
  - intros q Hq. apply (Hb1 q Hq).
  - apply inBounds_addUnit in Hadd as [Hb2 Hcl]; [|done].
    destruct H as [[_ ->]|(_ & pb3 & Hm & ->)]; [done|].
    apply moveClause_Ok in Hm as (q & Hq & Hlt & ->). split.
    + by eapply inBounds_move.
    + simpl. rewrite length_insert, Hcl. simpl. lia.
  - split; [|done]. apply (inBounds_store _ _ _ _ Hb Hc).
    intros l Hl. apply Hsub. by eapply subseteq_take.
Qed.

Lemma scanClauses_safe k pb i nb rs :
  inBounds pb → k = nb - i → i ≤ nb → nb ≤ length (Clauses pb) →
  ∃ r, scanClauses k pb i nb rs = Ok r ∧
    match r with
    | ScanReturn pb' => inBounds pb'
    | ScanDone pb' nb' rs' => inBounds pb' ∧ nb' ≤ length (Clauses pb')
    end.
Proof.
  revert pb i nb rs. induction k as [|k IH]; intros pb i nb rs Hb Hk Hi Hnb.
  - simpl. eexists. split; [done|]. done.
  - assert (i < nb) as Hlt by lia. simpl.
    destruct (scanClause pb i nb rs) as [r| |] eqn:Hr.
    + pose proof (scanClause_inBounds _ _ _ _ _ Hb Hlt Hnb Hr) as Hk'.
      destruct r as [pb1|pb1 i1 nb1 rs1]; simpl;
        [eexists; split; [done|]; done|].
      destruct Hk' as [Hb1 Hnb1].
      destruct (scanClause_measure _ _ _ _ _ _ _ _ Hlt Hr) as (? & ? & ? & ?).
      apply IH; [done|lia|done|done].
    + by apply scanClause_no_panic in Hr.
    + by apply scanClause_in_time in Hr.
Qed.

Lemma updateStatus_inBounds nb pb :
  inBounds pb → nb ≤ length (Clauses pb) →
  ∃ pb', updateStatus nb pb = Ok pb' ∧ inBounds pb'.
Proof.
  intros Hb Hnb. unfold updateStatus. rewrite decide_True by done.
  assert (inBounds (setClauses (take nb (Clauses pb)) pb)) as Hb1.
  { intros p Hp. apply (Hb p). simpl in Hp. by eapply subseteq_take. }
  case_decide; eexists; (split; [done|]); [|done].
  intros p Hp. apply (Hb1 p Hp).
Qed.

Lemma restartLoop_safe fuel pb nb :
  inBounds pb → nb ≤ length (Clauses pb) → nb < fuel →
  ∃ pb', restartLoop fuel pb nb = Ok pb' ∧ inBounds pb'.
Proof.
  revert pb nb. induction fuel as [|fuel IH]; intros pb nb Hb Hnb Hf; [lia|].
  simpl.
  destruct (scanClauses_safe nb pb 0 nb false Hb) as (r & Hr & Hpost);
    [lia|lia|done|].
  rewrite Hr. simpl. destruct r as [pb1|pb1 nb1 rs1]; [eauto|].
  destruct Hpost as [Hb1 Hnb1]. destruct rs1.
  - destruct (scanClauses_restart _ _ _ _ _ _ _ _
                (eq_sym (Nat.sub_0_r nb)) (Nat.le_0_l nb) Hr) as [? [?|?]];
      [done|].
    apply IH; [done|done|lia].
  - by apply updateStatus_inBounds.
Qed.

(** X2. [Simplify2] stays in bounds: when every pointer of the
    database refers to a clause object and every literal has an entry in
    [Model], [Simplify2] returns, without a run-time panic, and the
    database it leaves is of that form again. *)
Theorem Simplify2_stays_in_bounds (pb : Problem) :
  inBounds pb → ∃ pb', Simplify2 pb = Ok pb' ∧ inBounds pb'.
Proof. intros Hb. apply restartLoop_safe; [done|lia|lia]. Qed.

Lemma Simplify2_stays_in_bounds_witness :
  inBounds exPropagate ∧
  ∃ pb', Simplify2 exPropagate = Ok pb' ∧ inBounds pb'.
Proof.
  assert (inBounds exPropagate) as Hb.
  { intros p Hp. apply list_elem_of_singleton in Hp as ->.
    exists [0; 2]. split; [done|]. repeat constructor. }
  split; [done|]. exact (Simplify2_stays_in_bounds exPropagate Hb).
Defined.

(** X3. [Simplify2] keeps the models: from a state whose [Model] and
    [Units] agree, and whose status [Unsat], if set, is justified, the
    assignments that satisfy the clauses and the units are the same
    before and after, [Model] and [Units] agree again, and a final
    status [Unsat] means that there was no such assignment. *)
Theorem Simplify2_keeps_the_models (pb pb' : Problem) :
  synced pb → (status pb = Unsat → ∀ σ, ¬ formulaTrue σ pb) →
  Simplify2 pb = Ok pb' →
  (∀ σ, formulaTrue σ pb' ↔ formulaTrue σ pb) ∧ synced pb' ∧
  (status pb' = Unsat → ∀ σ, ¬ formulaTrue σ pb).
Proof.
  intros Hs Hu H.
  destruct (Simplify2_sound pb pb' (conj Hs Hu) H) as [[Hs' Hu'] He].
  split_and!; [|done|].
  - intros σ. symmetry. apply He.
  - intros Hst σ Hf. apply (Hu' Hst σ). by apply He.
Qed.

Lemma synced_exPropagate : synced exPropagate.
Proof.
  split.
  - intros [|[|v]] m Hv; simpl in Hv; simplify_eq.
    + right; right. split; [done|]. by apply list_elem_of_singleton.
    + by left.
  - intros l Hl. apply list_elem_of_singleton in Hl as ->. done.
Qed.

Lemma Simplify2_keeps_the_models_witness :
  ∃ pb', Simplify2 exPropagate = Ok pb' ∧
    (∀ σ, formulaTrue σ pb' ↔ formulaTrue σ exPropagate) ∧ synced pb' ∧
    (status pb' = Unsat → ∀ σ, ¬ formulaTrue σ exPropagate).
Proof.
  eexists. split; [vm_compute; reflexivity|].
  apply Simplify2_keeps_the_models.
  - exact synced_exPropagate.
  - intros Hst. discriminate Hst.
  - vm_compute; reflexivity.
Defined.

(** X4. When [Simplify2] turns an undetermined problem whose [Model]
    and [Units] agree into [Sat], every assignment that extends the
    final [Model] satisfies the clauses and the units the problem
    had. *)
Theorem Simplify2_Sat_gives_a_model (pb pb' : Problem) :
  synced pb → status pb = Undetermined →
  Simplify2 pb = Ok pb' → status pb' = Sat →
  ∀ σ, extendsModel σ (Model pb') → formulaTrue σ pb.
Proof.
  intros Hs Hst H Hsat σ Hext.
  assert (consistent pb) as Hc.
  { split; [done|]. intros Hu. congruence. }
  destruct (Simplify2_sound pb pb' Hc H) as [[Hs' _] He].
  apply He. split.
  - destruct (Simplify2_status _ _ H) as [Heq|[Hu|(_ & _ & Hnil)]];
      [congruence|congruence|].
    intros p c Hp. rewrite Hnil in Hp. by apply elem_of_nil in Hp.
  - by apply extendsModel_units.
Qed.

Lemma Simplify2_Sat_gives_a_model_witness :
  ∃ pb', Simplify2 exPropagate = Ok pb' ∧
    ∀ σ, extendsModel σ (Model pb') → formulaTrue σ exPropagate.
Proof.
  eexists. split; [vm_compute; reflexivity|].
  apply Simplify2_Sat_gives_a_model.
  - exact synced_exPropagate.
  - reflexivity.
  - vm_compute; reflexivity.
  - reflexivity.
Defined.

(** X5. [Simplify2] is idempotent: run on its own result, whose status
    is not [Unsat], it returns that result unchanged. *)
Theorem Simplify2_is_idempotent (pb pb' : Problem) :
  Simplify2 pb = Ok pb' → status pb' ≠ Unsat → Simplify2 pb' = Ok pb'.
Proof.
  intros H Hst.
  rewrite (Simplify2_normalized pb' (Simplify2_normalizes _ _ H Hst)).
  rewrite decide_False; [done|].
  intros [Hu Hnil]. by apply (Simplify2_Undetermined _ _ H Hu).
Qed.

Lemma Simplify2_is_idempotent_witness :
  ∃ pb', Simplify2 exPropagate = Ok pb' ∧ Simplify2 pb' = Ok pb'.
Proof.
  eexists. split; [vm_compute; reflexivity|].
  apply (Simplify2_is_idempotent exPropagate).
  - vm_compute; reflexivity.
  - discriminate.
Defined.

Lemma propagates_refl pb : propagates pb pb.
Proof.
  unfold propagates, shrinksClauses; split_and!; try done.
  - by intros v m Hv _.
  - intros p c Hc. by exists c.
Qed.

Lemma propagates_trans pb1 pb2 pb3 :
  propagates pb1 pb2 → propagates pb2 pb3 → propagates pb1 pb3.
Proof.
  intros (Hk1 & Hu1 & Hc1 & Hl1 & Hs1) (Hk2 & Hu2 & Hc2 & Hl2 & Hs2).
  unfold propagates, shrinksClauses; split_and!.
  - intros v m Hv Hm. apply Hk2; [|done]. by apply Hk1.
  - by etrans.
  - by etrans.
  - lia.
  - intros p c3 H3. destruct (Hs2 p c3 H3) as (c2 & H2 & Hsub2).
    destruct (Hs1 p c2 H2) as (c1 & H1 & Hsub1).
    exists c1. split; [done|]. by etrans.
Qed.

Lemma propagates_store pb p c c' :
  store pb !! p = Some c → c' ⊆ c →
  propagates pb (setStore (<[p := c']> (store pb)) pb).
Proof.
  intros Hc Hsub. unfold propagates, shrinksClauses; split_and!; try done.
  - by intros v m Hv _.
  - simpl. intros q d Hd.
    apply list_lookup_insert_Some in Hd as [(-> & <- & _)|[_ Hd]].
    + by exists c.
    + by exists d.
Qed.

Lemma propagates_move pb i nb q :
  Clauses pb !! nb = Some q →
  propagates pb (setClauses (<[i := q]> (Clauses pb)) pb).
Proof.
  intros Hq. unfold propagates, shrinksClauses; split_and!; try done.
  - by intros v m Hv _.
  - simpl. intros p Hp. apply list_elem_of_lookup in Hp as [j Hj].
    apply list_lookup_insert_Some in Hj as [(_ & <- & _)|[_ Hj]];
      by eapply list_elem_of_lookup_2.
  - simpl. by rewrite length_insert.
  - intros p c Hc. by exists c.
Qed.

Lemma propagates_status pb s : propagates pb (setStatus s pb).
Proof.
  unfold propagates, shrinksClauses; split_and!; try done.
  - by intros v m Hv _.
  - intros p c Hc. by exists c.
Qed.

Lemma propagates_addUnit lit pb pb' :
  addUnit lit pb = Ok pb' → propagates pb pb'.
Proof.
  intros H. apply addUnit_Ok in H as (m & Hm & [[_ ->]|[Hne ->]]);
    [apply propagates_status|].
  unfold propagates, shrinksClauses; split_and!; try done.
  - intros v m' Hv Hm'. simpl.
    destruct (decide (v = Lit_Var lit)) as [->|Hv'].
    + rewrite list_lookup_insert_eq by (by eapply lookup_lt_Some).
      simplify_eq. f_equal. simpl in Hne.
      destruct (IsPositive lit); lia.
    + by rewrite list_lookup_insert_ne.
  - simpl. by apply prefix_app_r.
  - intros p c Hc. by exists c.
Qed.

Lemma scanClause_propagates pb i nb rs r :
  scanClause pb i nb rs = Ok r →
  match r with
  | ClauseReturn pb' | ClauseNext pb' _ _ _ => propagates pb pb'
  end.
Proof.
  intros H.
  apply scanClause_Ok in H as (p & c & sat & n & c' & Hp & Hc & Hs & H).
  destruct (scanLits_spec _ _ _ _ _ _ _ _ Hs eq_refl (le_n _) (Forall_nil_2 _))
    as (Hlen & Hn & Hsub & Htake & _).
  assert (c' ⊆ c) as Hsub' by (intros l; apply Hsub).
  pose proof (propagates_store _ _ _ _ Hc Hsub') as H1.
  simpl in H. destruct H as [(-> & pb2 & Hm & ->)|[(-> & -> & ->)|
    [(-> & -> & first & pb2 & Hfirst & Hadd & H)|(-> & Hn2 & ->)]]].
  - apply moveClause_Ok in Hm as (q & Hq & Hlt & ->).
    eapply propagates_trans; [exact H1|]. by eapply propagates_move.
  - eapply propagates_trans; [exact H1|]. apply propagates_status.
  - pose proof (propagates_addUnit _ _ _ Hadd) as H2.
    pose proof (propagates_trans _ _ _ H1 H2) as H12.
    destruct H as [[_ ->]|(_ & pb3 & Hm & ->)]; [done|].
    apply moveClause_Ok in Hm as (q & Hq & Hlt & ->).
    eapply propagates_trans; [exact H12|]. by eapply propagates_move.
  - apply (propagates_store _ _ _ _ Hc). etrans; [|exact Hsub'].
    apply subseteq_take.
Qed.

Lemma updateStatus_propagates nb pb pb' :
  updateStatus nb pb = Ok pb' → propagates pb pb'.
Proof.
  unfold updateStatus. intros H.
  assert (propagates pb (setClauses (take nb (Clauses pb)) pb)) as Ht.
  { unfold propagates, shrinksClauses; split_and!; try done.
    - by intros v m Hv _.
    - simpl. apply subseteq_take.
    - simpl. rewrite length_take. lia.
    - intros p c Hc. by exists c. }
  repeat case_decide; simplify_eq; [|done].
  eapply propagates_trans; [exact Ht|]. apply propagates_status.
Qed.

(** X6. [Simplify2] only propagates: a variable bound to true or false
    keeps its binding, [Units] is only appended to, no pointer enters
    the database, and no clause object gains a literal. *)
Theorem Simplify2_only_propagates (pb pb' : Problem) :
  Simplify2 pb = Ok pb' → propagates pb pb'.
Proof.
  apply (Simplify2_inv (λ pb1 _ _ _, propagates pb pb1)
           (λ pb1, propagates pb pb1)).
  - intros pb1 i nb rs r HP _ Hr.
    pose proof (scanClause_propagates _ _ _ _ _ Hr) as Hs.
    destruct r; by eapply propagates_trans.
  - done.
  - intros pb1 nb pb2 HP Hu.
    eapply propagates_trans; [exact HP|]. by eapply updateStatus_propagates.
  - apply propagates_refl.
Qed.

Lemma Simplify2_only_propagates_witness :
  ∃ pb', Simplify2 exPropagate = Ok pb' ∧ propagates exPropagate pb'.
Proof.
  eexists. split; [vm_compute; reflexivity|].
  apply Simplify2_only_propagates. vm_compute; reflexivity.
Defined.

(** X7. The loop over the literals of a clause (lines 75-86) reports
    the clause satisfied exactly when one of its literals is true under
    [Model]; otherwise the literals it keeps in front, [nbLits] of
    them, are the literals of the clause on unbound variables. *)
Theorem literal_scan_sorts_out_the_clause (model : list Z) (c c' : list nat)
  (sat : bool) (n : nat) :
  scanLits model (length c) c 0 (length c) = Ok (sat, n, c') →
  (sat = true ↔ ∃ l, l ∈ c ∧ satisfiedLit model l) ∧
  (sat = false → ∀ l, l ∈ take n c' ↔ l ∈ c ∧ unboundLit model l).
Proof.
  intros H.
  destruct (scanLits_spec _ _ _ _ _ _ _ _ H eq_refl (le_n _) (Forall_nil_2 _))
    as (Hlen & Hn & Hsub & Htake & Hfalse & Htrue).
  rewrite firstn_all in Htake, Hfalse.
  assert (sat = false → ∀ l, l ∈ c →
            l ∈ take n c' ∧ unboundLit model l ∨ falsifiedLit model l) as Hall.
  { intros Hs l Hl. destruct (Hfalse Hs) as [Hu Hc].
    destruct (Hc l Hl) as [Hin|Hf]; [left|by right].
    split; [done|]. rewrite Forall_forall in Hu. by apply Hu. }
  split; [split|].
  - intros Hs. destruct (Htrue Hs) as (l & Hl & Hsat). exists l. auto.
  - intros (l & Hl & m & Hm & Hne & Heq).
    destruct sat; [done|].
    destruct (Hall eq_refl l Hl) as [[_ Hu]|(m' & Hm' & _ & Heq')].
    + unfold unboundLit in Hu. congruence.
    + simplify_eq. congruence.
  - intros Hs l. split.
    + intros Hl. split; [by apply Htake|].
      destruct (Hfalse Hs) as [Hu _]. rewrite Forall_forall in Hu.
      by apply Hu.
    + intros [Hl Hu]. destruct (Hall Hs l Hl) as [[Hin _]|(m & Hm & Hne & _)];
        [done|]. unfold unboundLit in Hu. congruence.
Qed.

Lemma literal_scan_sorts_out_the_clause_witness :
  ∃ n c', scanLits [(-1)%Z; 0%Z; 0%Z] 3 [0; 2; 5] 0 3 = Ok (false, n, c') ∧
    ∀ l, l ∈ take n c' ↔ l ∈ [0; 2; 5] ∧ unboundLit [(-1)%Z; 0%Z; 0%Z] l.
Proof.
  eexists _, _. split; [vm_compute; reflexivity|].
  apply (literal_scan_sorts_out_the_clause _ [0; 2; 5] _ false);
    [vm_compute; reflexivity|reflexivity].
Defined.

(** ** Forcing literals, occurrence lists and the pairs of [SelfSub] *)

(** X8. Forcing a literal whose variable is not bound to the opposite
    value binds the variable and appends the literal to [Units]; forcing
    the negation of that literal next sets the status to [Unsat] and
    changes nothing else, so the first binding stays. *)
Theorem addUnit_then_the_negation_is_Unsat (lit : nat) (pb : Problem) (m : Z) :
  Model pb !! Lit_Var lit = Some m → m ≠ (- polarity lit)%Z →
  ∃ pb1, addUnit lit pb = Ok pb1 ∧
    Model pb1 !! Lit_Var lit = Some (polarity lit) ∧
    Units pb1 = Units pb ++ [lit] ∧
    addUnit (Negation lit) pb1 = Ok (setStatus Unsat pb1).
Proof.
  intros Hm Hne.
  assert (Lit_Var lit < length (Model pb)) as Hlt by (by eapply lookup_lt_Some).
  set (pb1 := setUnits (Units pb ++ [lit])
                (setModel (<[Lit_Var lit := polarity lit]> (Model pb)) pb)).
  assert (addUnit lit pb = Ok pb1) as H1.
  { unfold addUnit, bind. rewrite (proj2 (idx_Ok _ _ _) Hm). simpl.
    unfold polarity in *. destruct (IsPositive lit).
    - destruct (Z.eqb_spec m (-1)); [done|]. by rewrite decide_True.
    - destruct (Z.eqb_spec m 1); [subst; done|]. by rewrite decide_True. }
  assert (Model pb1 !! Lit_Var lit = Some (polarity lit)) as Hm1.
  { simpl. by apply list_lookup_insert_eq. }
  exists pb1. split_and!; [done..|].
  unfold addUnit. rewrite Lit_Var_Negation, IsPositive_Negation.
  rewrite (proj2 (idx_Ok _ _ _) Hm1). simpl.
  unfold polarity. by destruct (IsPositive lit).
Qed.

Lemma addUnit_then_the_negation_is_Unsat_witness :
  ∃ pb1, addUnit 3 (newProblem 2 []) = Ok pb1 ∧
    Model pb1 !! Lit_Var 3 = Some (polarity 3) ∧
    Units pb1 = Units (newProblem 2 []) ++ [3] ∧
    addUnit (Negation 3) pb1 = Ok (setStatus Unsat pb1).
Proof.
  apply (addUnit_then_the_negation_is_Unsat 3 (newProblem 2 []) 0%Z).
  - reflexivity.
  - vm_compute. discriminate.
Defined.

(** X9. The unit code written out in [SelfSub] (lines 174-204, 242-272,
    307-337) never records a literal twice: when [Units] has no
    repetition before, it has none after, and the forced literal is in
    [Units] unless the step returned with a conflict. *)
Theorem inferUnit_records_no_literal_twice (lit2 : nat) (pb : Problem)
  (r : flow Problem) :
  NoDup (Units pb) → inferUnit lit2 pb = Ok r →
  NoDup (Units (unitResult r)) ∧
  match r with
  | Go pb' => lit2 ∈ Units pb'
  | Ret pb' => Units pb' = Units pb
  end.
Proof.
  intros Hnd H. apply inferUnit_Ok in H as (m & Hm & [[_ ->]|[_ ->]]);
    [done|]. simpl.
  destruct (existsb (Nat.eqb lit2) (Units pb)) eqn:He; simpl.
  - split; [done|]. by apply existsb_eqb_elem_of.
  - split.
    + apply NoDup_app. split_and!; [done| |apply NoDup_singleton].
      intros x Hx Hx'. apply list_elem_of_singleton in Hx' as ->.
      apply existsb_eqb_elem_of in Hx. congruence.
    + apply elem_of_app. right. by apply list_elem_of_singleton.
Qed.

Lemma inferUnit_records_no_literal_twice_witness :
  ∃ pb', inferUnit 0 (mkProblem 1 [] Undetermined [0] [1%Z] [] [] [] [])
         = Ok (Go pb') ∧
    NoDup (Units pb') ∧ 0 ∈ Units pb'.
Proof.
  eexists. split; [vm_compute; reflexivity|].
  apply (inferUnit_records_no_literal_twice 0
           (mkProblem 1 [] Undetermined [0] [1%Z] [] [] [] []) (Go _)).
  - apply NoDup_singleton.
  - vm_compute; reflexivity.
Defined.

(** X10. The unit code written out in [SelfSub] and [addUnit] do the
    same to the problem, but for a literal that [Units] already holds:
    there [addUnit] appends it once more and the code of [SelfSub] does
    not. *)
Theorem inferUnit_is_addUnit_without_duplicates (lit2 : nat) (pb : Problem)
  (r : flow Problem) :
  inferUnit lit2 pb = Ok r →
  ∃ pb1, addUnit lit2 pb = Ok pb1 ∧
    match r with
    | Ret pb' => pb1 = pb'
    | Go pb' =>
      (lit2 ∉ Units pb → pb1 = pb') ∧
      (lit2 ∈ Units pb →
         Units pb' = Units pb ∧ pb1 = setUnits (Units pb ++ [lit2]) pb')
    end.
Proof.
  intros H. apply inferUnit_Ok in H as (m & Hm & H).
  assert (Lit_Var lit2 < length (Model pb)) as Hlt by (by eapply lookup_lt_Some).
  simpl in H. destruct H as [[Heq ->]|[Hne ->]].
  - exists (setStatus Unsat pb). split; [|done].
    unfold addUnit. rewrite (proj2 (idx_Ok _ _ _) Hm). simpl.
    destruct (IsPositive lit2); subst; simpl; reflexivity.
  - exists (setUnits (Units pb ++ [lit2])
              (setModel (<[Lit_Var lit2 := polarity lit2]> (Model pb)) pb)).
    unfold polarity. split.
    + unfold addUnit, bind. rewrite (proj2 (idx_Ok _ _ _) Hm). simpl.
      destruct (IsPositive lit2).
      * destruct (Z.eqb_spec m (-1)); [done|]. by rewrite decide_True.
      * destruct (Z.eqb_spec m 1); [subst; done|]. by rewrite decide_True.
    + destruct (existsb (Nat.eqb lit2) (Units pb)) eqn:He.
      * apply existsb_eqb_elem_of in He. split; [done|].
        intros _. by destruct (IsPositive lit2).
      * assert (lit2 ∉ Units pb) as Hn.
        { intros Hin. apply existsb_eqb_elem_of in Hin. congruence. }
        split; [|done]. intros _. by destruct (IsPositive lit2).
Qed.

Lemma inferUnit_is_addUnit_without_duplicates_witness :
  ∃ pb' pb1,
    inferUnit 0 (mkProblem 1 [] Undetermined [0] [1%Z] [] [] [] [])
      = Ok (Go pb') ∧
    addUnit 0 (mkProblem 1 [] Undetermined [0] [1%Z] [] [] [] []) = Ok pb1 ∧
    Units pb' = [0] ∧ Units pb1 = [0; 0].
Proof.
  destruct (inferUnit_is_addUnit_without_duplicates 0
              (mkProblem 1 [] Undetermined [0] [1%Z] [] [] [] []) (Go _)
              eq_refl) as (pb1 & H1 & _ & H2).
  eexists _, pb1. split; [reflexivity|]. split; [exact H1|].
  destruct H2 as [Hu ->]; [by apply list_elem_of_singleton|].
  split; [exact Hu|reflexivity].
Defined.

Lemma occursFrom_inRange h i0 cl occ occ' :
  occursFrom h i0 cl occ = Ok occ' →
  ∀ p, p ∈ cl → ∃ c, h !! p = Some c ∧ Forall (λ l, l < length occ) c.
Proof.
  revert i0 occ. induction cl as [|q cl IH]; intros i0 occ H p Hp.
  - by apply elem_of_nil in Hp.
  - simpl in H. apply bind_Ok in H as (c & Hc & H). apply idx_Ok in Hc.
    apply bind_Ok in H as (occ1 & H1 & H).
    apply occursLits_Ok in H1 as (Hlen & Hf & _).
    apply elem_of_cons in Hp as [->|Hp]; [by exists c|].
    destruct (IH _ _ H p Hp) as (d & Hd & Hfd). exists d. split; [done|].
    by rewrite Hlen in Hfd.
Qed.

(** X11. The occurrence lists (lines 122-127) are built without a
    panic exactly when every pointer of the database refers to a clause
    whose literals are below [2 * NbVars]; there is a list for each
    literal, and the list of a literal holds the positions of the
    clauses that contain it, and no other. *)
Theorem occurrence_lists_are_exact (pb : Problem) :
  ((∃ occ, buildOccurs pb = Ok occ) ↔ wfClauses pb) ∧
  ∀ occ, buildOccurs pb = Ok occ →
    length occ = NbVars pb * 2 ∧
    ∀ l o, occ !! l = Some o →
      ∀ i, i ∈ o ↔ ∃ c, clauseAt pb i = Some c ∧ l ∈ c.
Proof.
  split; [split|].
  - intros [occ H] p Hp.
    destruct (occursFrom_inRange _ _ _ _ _ H p Hp) as (c & Hc & Hf).
    exists c. split; [done|]. by rewrite length_replicate in Hf.
  - apply buildOccurs_total.
  - intros occ H. exact (buildOccurs_Ok pb occ H).
Qed.

Lemma occurrence_lists_are_exact_witness :
  wfClauses (problem exBoth) ∧
  ∃ occ, buildOccurs (problem exBoth) = Ok occ ∧ length occ = 3 * 2.
Proof.
  destruct (occurrence_lists_are_exact (problem exBoth)) as [Hiff Hspec].
  assert (buildOccurs (problem exBoth) = Ok (occurs exBoth)) as H
    by (vm_compute; reflexivity).
  split.
  - apply Hiff. by exists (occurs exBoth).
  - exists (occurs exBoth). split; [done|]. by apply Hspec.
Defined.

Lemma swapRemove_length i pb pb' :
  swapRemove i pb = Ok pb' → S (length (Clauses pb')) = length (Clauses pb).
Proof.
  intros H. apply swapRemove_Ok in H as (n & last & Hlen & _ & Hi & ->).
  simpl. rewrite length_take, length_insert. lia.
Qed.

Lemma swapRemove_Panic i pb :
  swapRemove i pb = Panic ↔ length (Clauses pb) ≤ i.
Proof.
  unfold swapRemove. destruct (length (Clauses pb)) as [|n] eqn:Hn.
  - split; [lia|done].
  - destruct (idx_lt (Clauses pb) n) as (last & -> & _); [lia|]. simpl.
    case_decide; split; try done; lia.
Qed.

(** X12. The two removals by swap with the last clause that end the
    both-directions branch (lines 213-216), at two positions of the
    database, panic exactly when [idx2] is the last position; otherwise
    they leave a database two clauses shorter. *)
Theorem two_removals_panic_when_idx2_is_last (idx1 idx2 : nat) (pb : Problem) :
  idx1 < length (Clauses pb) → idx2 < length (Clauses pb) →
  (foldl (λ r i, pb ← r; swapRemove i pb) (Ok pb) [idx1; idx2] = Panic ↔
   S idx2 = length (Clauses pb)) ∧
  (S idx2 < length (Clauses pb) →
   ∃ pb', foldl (λ r i, pb ← r; swapRemove i pb) (Ok pb) [idx1; idx2]
            = Ok pb' ∧
     S (S (length (Clauses pb'))) = length (Clauses pb)).
Proof.
  intros H1 H2. simpl.
  destruct (swapRemove_total idx1 pb H1) as [pb1 Hpb1]. rewrite Hpb1. simpl.
  pose proof (swapRemove_length _ _ _ Hpb1) as Hlen.
  split.
  - rewrite swapRemove_Panic. lia.
  - intros H3. destruct (swapRemove_total idx2 pb1) as [pb2 Hpb2]; [lia|].
    exists pb2. split; [done|].
    pose proof (swapRemove_length _ _ _ Hpb2). lia.
Qed.

Lemma two_removals_panic_when_idx2_is_last_witness :
  foldl (λ r i, pb ← r; swapRemove i pb) (Ok (problem exBoth)) [0; 1] = Panic.
Proof.
  apply (two_removals_panic_when_idx2_is_last 0 1 (problem exBoth));
    simpl; lia.
Defined.

Lemma inferUnit_Go l pb m :
  Model pb !! Lit_Var l = Some m → m ≠ (- polarity l)%Z →
  ∃ pb', inferUnit l pb = Ok (Go pb') ∧ Clauses pb' = Clauses pb.
Proof.
  intros Hm Hne.
  assert (Lit_Var l < length (Model pb)) as Hlt by (by eapply lookup_lt_Some).
  unfold inferUnit, bind, polarity in *.
  rewrite (proj2 (idx_Ok _ _ _) Hm). simpl.
  destruct (IsPositive l).
  - destruct (Z.eqb_spec m (-1)); [done|]. rewrite decide_True by done.
    simpl. eexists. split; [done|]. by case_match.
  - destruct (Z.eqb_spec m 1); [subst; done|]. rewrite decide_True by done.
    simpl. eexists. split; [done|]. by case_match.
Qed.

Section Removal.
Context `{ops : ClauseOps}.

Lemma double_removal_Panic lit idx1 idx2 occ nm pb o2 :
  occ !! Negation lit = Some o2 → idx2 ∈ o2 →
  idx1 < length (Clauses pb) → S idx2 = length (Clauses pb) →
  removeAndRebuild lit [idx1; idx2] occ nm pb = Panic.
Proof.
  intros Ho2 Hin H1 H2. unfold removeAndRebuild.
  rewrite (proj2 (idx_Ok _ _ _) Ho2). simpl.
  rewrite decide_True.
  2:{ destruct o2; [by apply elem_of_nil in Hin|simpl; lia]. }
  simpl. destruct (swapRemove_total idx1 pb H1) as [pb1 Hpb1].
  rewrite Hpb1. simpl.
  pose proof (swapRemove_length _ _ _ Hpb1) as Hlen.
  rewrite (proj2 (swapRemove_Panic idx2 pb1)) by lia. done.
Qed.

(** X13. Whenever both directions hold for a pair whose second clause
    is at the last position and the resolvent adds no clause to the
    database, being found trivially satisfiable by [Simplify] or being
    a unit that raises no conflict, the turn of the loop for the pair
    panics. *)
Theorem both_directions_panic_without_a_new_clause
  (v idx1 idx2 : nat) (s : SelfSubState) (c1 c2 R o2 : list nat)
  (isSat : bool) :
  clauseAt (problem s) idx1 = Some c1 →
  clauseAt (problem s) idx2 = Some c2 →
  S idx2 = length (Clauses (problem s)) →
  occurs s !! Negation (Var_Lit v) = Some o2 → idx2 ∈ o2 →
  SelfSubsumes c1 c2 = true → SelfSubsumes c2 c1 = true →
  Simplify (Generate c1 c2 v) = (isSat, R) →
  isSat = true ∨
  (∃ l m, R = [l] ∧ Model (problem s) !! Lit_Var l = Some m ∧
          m ≠ (- polarity l)%Z) →
  pairStep v idx1 idx2 s = Panic.
Proof.
  intros H1 H2 Hlast Ho2 Hin HP HN HS Hcase.
  apply clauseAt_Some in H1 as (p1 & Hp1 & Hc1).
  apply clauseAt_Some in H2 as (p2 & Hp2 & Hc2).
  pose proof (lookup_lt_Some _ _ _ Hp1) as Hlt1.
  unfold pairStep. simpl.
  rewrite (proj2 (idx_Ok _ _ _) Hp1), (proj2 (idx_Ok _ _ _) Hp2). simpl.
  rewrite (proj2 (idx_Ok _ _ _) Hc1), (proj2 (idx_Ok _ _ _) Hc2). simpl.
  rewrite HP, HN. simpl. unfold addResolvent. rewrite HS.
  destruct Hcase as [->|(l & m & -> & Hm & Hne)].
  - simpl. by eapply double_removal_Panic.
  - destruct isSat; simpl; [by eapply double_removal_Panic|].
    destruct (inferUnit_Go l (logEvent (EvPair (Var_Lit v) idx1 idx2)
                                (problem s)) m Hm Hne) as (pb' & -> & Hcl).
    simpl. eapply double_removal_Panic; [done..| |]; by rewrite Hcl.
Qed.

End Removal.

Lemma both_directions_panic_without_a_new_clause_witness :
  @pairStep refOps 0 0 1 exUnitPair = Panic.
Proof.
  apply (@both_directions_panic_without_a_new_clause refOps 0 0 1 exUnitPair
           [0; 2] [1; 2] [2] [1] false); try reflexivity.
  - by apply list_elem_of_singleton.
  - right. exists 2, 0%Z. split_and!; [reflexivity..|]. vm_compute. discriminate.
Defined.

Section OneDirection.
Context `{ops : ClauseOps}.

Lemma single_removal_replaces lit idx occ nm pb R p c o2 :
  wfClauses pb → Clauses pb !! idx = Some p → store pb !! p = Some c →
  occ !! Negation lit = Some o2 → 0 < length o2 →
  litsInRange (NbVars pb) R →
  ∃ s', removeAndRebuild lit [idx] occ nm (appendClause R pb)
          = Ok (PairBreak s') ∧
    c :: clausesOf (problem s') ≡ₚ R :: clausesOf pb.
Proof.
  intros Hwf Hp Hc Ho2 Hlen2 HRr.
  pose proof (lookup_lt_Some _ _ _ Hp) as Hlt.
  set (pbA := appendClause R pb).
  destruct (swapRemove_total idx pbA) as [pbB HB].
  { simpl. rewrite length_app. simpl. lia. }
  destruct (swapRemove_Permutation _ _ _ HB) as (x & Hx & Hperm & HpbB).
  simpl in Hx. rewrite lookup_app_l in Hx by lia.
  assert (x = p) as -> by congruence.
  simpl in Hperm.
  assert (store pbB = store pb ++ [R]) as Hst by (by rewrite HpbB).
  assert (NbVars pbB = NbVars pb) as Hnv by (by rewrite HpbB).
  assert (∀ q, q ∈ Clauses pb → is_Some (store pb !! q)) as Hvalid.
  { intros q Hq. destruct (Hwf q Hq) as (d & Hd & _). eauto. }
  destruct (buildOccurs_total pbB) as [occ' Hocc].
  { intros q Hq. rewrite Hst, Hnv.
    assert (q ∈ Clauses pb ++ [length (store pb)]) as Hq'.
    { rewrite <- Hperm. by right. }
    apply elem_of_app in Hq' as [Hq'|Hq'].
    - destruct (Hwf q Hq') as (d & Hd & Hr). exists d. split; [|done].
      by apply lookup_app_l_Some.
    - apply list_elem_of_singleton in Hq' as ->.
      exists R. split; [|done]. rewrite lookup_app_r by lia.
      by rewrite Nat.sub_diag. }
  exists (mkSelfSub pbB occ' true false). split.
  - unfold removeAndRebuild. rewrite (proj2 (idx_Ok _ _ _) Ho2). simpl.
    rewrite decide_True by done. simpl. fold pbA. rewrite HB. simpl.
    by rewrite Hocc.
  - simpl. unfold clausesOf. rewrite Hst.
    assert (omap (λ q, (store pb ++ [R]) !! q) (p :: Clauses pbB) =
            c :: omap (λ q, (store pb ++ [R]) !! q) (Clauses pbB)) as <-.
    { simpl. by rewrite (lookup_app_l_Some _ _ _ _ Hc). }
    rewrite Hperm, omap_app. simpl. rewrite lookup_app_r by lia.
    rewrite Nat.sub_diag. simpl. rewrite omap_store_app by done.
    by rewrite <- Permutation_cons_append.
Qed.

(** X14. When only the positive clause self-subsumes the negative one
    (lines 231-294) and the resolvent is not trivially satisfiable and
    has two literals or more, the resolvent takes the place of the
    negative clause: the clauses of the database are the previous ones
    with the resolvent instead of the clause at [idx2]. *)
Theorem positive_direction_replaces_the_negative_clause
  (v idx1 idx2 : nat) (s : SelfSubState) (c1 c2 R o2 : list nat) :
  wfClauses (problem s) →
  clauseAt (problem s) idx1 = Some c1 →
  clauseAt (problem s) idx2 = Some c2 →
  occurs s !! Negation (Var_Lit v) = Some o2 → idx2 ∈ o2 →
  SelfSubsumes c1 c2 = true → SelfSubsumes c2 c1 = false →
  Simplify (Generate c1 c2 v) = (false, R) →
  2 ≤ length R → litsInRange (NbVars (problem s)) R →
  ∃ s', pairStep v idx1 idx2 s = Ok (PairBreak s') ∧
    c2 :: clausesOf (problem s') ≡ₚ R :: clausesOf (problem s).
Proof.
  intros Hwf H1 H2 Ho2 Hin HP HN HS HR HRr.
  apply clauseAt_Some in H1 as (p1 & Hp1 & Hc1).
  apply clauseAt_Some in H2 as (p2 & Hp2 & Hc2).
  set (pb0 := logEvent (EvPair (Var_Lit v) idx1 idx2) (problem s)).
  destruct (single_removal_replaces (Var_Lit v) idx2 (occurs s)
              (neverModified s) pb0 R p2 c2 o2) as (s' & Hs' & Hperm);
    try done.
  { destruct o2; [by apply elem_of_nil in Hin|simpl; lia]. }
  exists s'. split; [|exact Hperm].
  unfold pairStep. fold pb0. simpl.
  rewrite (proj2 (idx_Ok _ _ _) Hp1), (proj2 (idx_Ok _ _ _) Hp2). simpl.
  rewrite (proj2 (idx_Ok _ _ _) Hc1), (proj2 (idx_Ok _ _ _) Hc2). simpl.
  rewrite HP, HN. simpl. unfold addResolvent. rewrite HS.
  destruct R as [|l0 [|l1 R]]; simpl in HR; [lia|lia|]. simpl.
  exact Hs'.
Qed.

(** X15. When only the negative clause self-subsumes the positive one
    (lines 296-359) and the resolvent is not trivially satisfiable and
    has two literals or more, the resolvent takes the place of the
    positive clause: the clauses of the database are the previous ones
    with the resolvent instead of the clause at [idx1]. *)
Theorem negative_direction_replaces_the_positive_clause
  (v idx1 idx2 : nat) (s : SelfSubState) (c1 c2 R o2 : list nat) :
  wfClauses (problem s) →
  clauseAt (problem s) idx1 = Some c1 →
  clauseAt (problem s) idx2 = Some c2 →
  occurs s !! Negation (Var_Lit v) = Some o2 → idx2 ∈ o2 →
  SelfSubsumes c1 c2 = false → SelfSubsumes c2 c1 = true →
  Simplify (Generate c2 c1 v) = (false, R) →
  2 ≤ length R → litsInRange (NbVars (problem s)) R →
  ∃ s', pairStep v idx1 idx2 s = Ok (PairBreak s') ∧
    c1 :: clausesOf (problem s') ≡ₚ R :: clausesOf (problem s).
Proof.
  intros Hwf H1 H2 Ho2 Hin HP HN HS HR HRr.
  apply clauseAt_Some in H1 as (p1 & Hp1 & Hc1).
  apply clauseAt_Some in H2 as (p2 & Hp2 & Hc2).
  set (pb0 := logEvent (EvPair (Var_Lit v) idx1 idx2) (problem s)).
  destruct (single_removal_replaces (Var_Lit v) idx1 (occurs s)
              (neverModified s) pb0 R p1 c1 o2) as (s' & Hs' & Hperm);
    try done.
  { destruct o2; [by apply elem_of_nil in Hin|simpl; lia]. }
  exists s'. split; [|exact Hperm].
  unfold pairStep. fold pb0. simpl.
  rewrite (proj2 (idx_Ok _ _ _) Hp1), (proj2 (idx_Ok _ _ _) Hp2). simpl.
  rewrite (proj2 (idx_Ok _ _ _) Hc1), (proj2 (idx_Ok _ _ _) Hc2). simpl.
  rewrite HP, HN. simpl. unfold addResolvent. rewrite HS.
  destruct R as [|l0 [|l1 R]]; simpl in HR; [lia|lia|]. simpl.
  exact Hs'.
Qed.

End OneDirection.

Lemma wfClauses_newProblem nbVars clauses :
  Forall (litsInRange nbVars) clauses → wfClauses (newProblem nbVars clauses).
Proof.
  intros Hf p Hp. simpl in *. apply elem_of_seq in Hp as [_ Hp].
  destruct (lookup_lt_is_Some_2 clauses p) as [c Hc]; [lia|].
  exists c. split; [done|]. rewrite Forall_forall in Hf. apply Hf.
  by eapply list_elem_of_lookup_2.
Qed.

Lemma positive_direction_replaces_the_negative_clause_witness :
  ∃ s', @pairStep refOps 0 0 1 exPositive = Ok (PairBreak s') ∧
    [1; 2; 4] :: clausesOf (problem s') ≡ₚ
    [2; 4] :: clausesOf (problem exPositive).
Proof.
  apply (@positive_direction_replaces_the_negative_clause refOps 0 0 1
           exPositive [0; 2] [1; 2; 4] [2; 4] [1]); try reflexivity.
  - apply wfClauses_newProblem. repeat constructor.
  - by apply list_elem_of_singleton.
  - repeat constructor.
Defined.

Lemma negative_direction_replaces_the_positive_clause_witness :
  ∃ s', @pairStep refOps 0 0 1 exNegative = Ok (PairBreak s') ∧
    [0; 2; 4] :: clausesOf (problem s') ≡ₚ
    [2; 4] :: clausesOf (problem exNegative).
Proof.
  apply (@negative_direction_replaces_the_positive_clause refOps 0 0 1
           exNegative [0; 2; 4] [1; 2] [2; 4] [1]); try reflexivity.
  - apply wfClauses_newProblem. repeat constructor.
  - by apply list_elem_of_singleton.
  - repeat constructor.
Defined.

(** ** The passes: no-op runs, bounds, completeness and what is kept *)

Lemma Simplify2_restarts_are_bounded_witness :
  restartLoop 7 exPropagate (length (Clauses exPropagate))
    = Simplify2 exPropagate ∧
  Simplify2 exPropagate ≠ OutOfFuel.
Proof. apply (Simplify2_restarts_are_bounded exPropagate 7). simpl. lia. Defined.

Section NoOp.
Context `{ops : ClauseOps}.

(** X16. When no clause of the database self-subsumes another,
    [SelfSub] changes nothing: it returns with the same [Clauses],
    clause objects, [Units], [Model] and status, and does not run the
    unit propagation, whatever the clauses hold. *)
Theorem SelfSub_without_a_pair_changes_nothing (fuel : nat) (pb : Problem) :
  2 ≤ fuel → wfClauses pb → NbVars pb ≤ length (Model pb) →
  noSelfSubsumption pb →
  ∃ pb', SelfSub fuel pb = Ok pb' ∧ sameState pb pb'.
Proof.
  intros Hf Hwf Hm Hn.
  destruct (SelfSub_quiet fuel pb Hf Hwf Hm Hn) as (pb' & H & evs & ->).
  exists (setTrace (trace pb ++ evs) pb). split; [done|].
  by repeat split.
Qed.

End NoOp.

Lemma SelfSub_without_a_pair_changes_nothing_witness :
  ∃ pb', @SelfSub refOps 2 exSubsumed = Ok pb' ∧ sameState exSubsumed pb'.
Proof.
  apply (@SelfSub_without_a_pair_changes_nothing refOps 2 exSubsumed).
  - lia.
  - apply wfClauses_newProblem. repeat constructor.
  - simpl. lia.
  - intros c1 c2 H1 H2. vm_compute in H1, H2.
    repeat (apply elem_of_cons in H1 as [->|H1]);
      try (by apply elem_of_nil in H1);
      repeat (apply elem_of_cons in H2 as [->|H2]);
      try (by apply elem_of_nil in H2); reflexivity.
Defined.

Lemma wfClauses_inBounds pb :
  wfClauses pb → NbVars pb ≤ length (Model pb) → inBounds pb.
Proof.
  intros Hwf Hm p Hp. destruct (Hwf p Hp) as (c & Hc & Hr).
  exists c. split; [done|]. unfold litsInRange in Hr.
  rewrite Forall_forall in *. intros l Hl. specialize (Hr l Hl).
  unfold Lit_Var. simpl in Hr.
  pose proof (Nat.div_mod_eq l 2). pose proof (Nat.mod_upper_bound l 2).
  lia.
Qed.

Section SubsumptionSafe.
Context `{ops : ClauseOps}.

(** X17. [Subsumption] stays in bounds: on a database whose pointers
    refer to clauses with literals below [2 * NbVars], with a [Model]
    entry for every variable, it returns, without a run-time panic. *)
Theorem Subsumption_stays_in_bounds (pb : Problem) :
  wfClauses pb → NbVars pb ≤ length (Model pb) →
  ∃ pb', Subsumption pb = Ok pb' ∧ inBounds pb'.
Proof.
  intros Hwf Hm.
  destruct (subsumeMark_total pb Hwf Hm) as (pbM & toRemove & HM).
  unfold Subsumption. rewrite HM. simpl.
  destruct (subsumeMark_extends _ _ _ HM) as [evs ->].
  set (pbB := setClauses _ _).
  assert (wfClauses pbB) as HwfB.
  { intros p Hp. apply (Hwf p). simpl in Hp.
    by eapply keepClauses_subseteq. }
  destruct (buildOccurs_total pbB HwfB) as [occ ->]. simpl.
  apply restartLoop_safe; [|lia|lia].
  by apply wfClauses_inBounds.
Qed.

End SubsumptionSafe.

Lemma Subsumption_stays_in_bounds_witness :
  ∃ pb', @Subsumption refOps exDuplicates = Ok pb' ∧ inBounds pb'.
Proof.
  apply (@Subsumption_stays_in_bounds refOps exDuplicates).
  - apply wfClauses_newProblem. repeat constructor.
  - simpl. lia.
Defined.

Lemma keepClauses_sublist toRemove i cl :
  keepClauses toRemove i cl `sublist_of` cl.
Proof.
  revert i. induction cl as [|p cl IH]; intros i; simpl; [done|].
  destruct (existsb _ _).
  - by apply sublist_cons.
  - by apply sublist_skip.
Qed.

Section SubsumptionComplete.
Context `{ops : ClauseOps}.

(** X18. On a database in normal form [Subsumption] removes the
    marked clauses and nothing else: the clauses left are the unmarked
    ones in their order, the clause objects, [Units] and [Model] are
    untouched, and no clause left is subsumed by a strictly shorter
    clause left that shares a literal with it. *)
Theorem Subsumption_removes_the_marked_clauses_only (pb pb' : Problem) :
  normalized pb → Subsumption pb = Ok pb' →
  Clauses pb' `sublist_of` Clauses pb ∧ store pb' = store pb ∧
  Units pb' = Units pb ∧ Model pb' = Model pb ∧
  (∀ k p, Clauses pb !! k = Some p → ¬ markable pb k → p ∈ Clauses pb') ∧
  (∀ k, ¬ markable pb' k).
Proof.
  intros Hn H. unfold Subsumption in H.
  apply bind_Ok in H as ([pbM toRemove] & Hm & H).
  apply bind_Ok in H as (occ & _ & H).
  pose proof (subsumeMark_marks _ _ _ Hm) as Hmarks.
  pose proof (subsumeMark_extends _ _ _ Hm) as He.
  set (pbB := setClauses (keepClauses toRemove 0 (Clauses pbM)) pbM) in *.
  assert (normalized pbB) as HnB.
  { apply keepClauses_normalized. by eapply extendsTrace_normalized. }
  rewrite (Simplify2_normalized _ HnB) in H.
  assert (Clauses pb' = Clauses pbB ∧ store pb' = store pbB ∧
          Units pb' = Units pbB ∧ Model pb' = Model pbB ∧
          NbVars pb' = NbVars pbB) as (Hcl & Hst & Hu & HM & HN).
  { case_decide; by simplify_eq. }
  assert (Clauses pbM = Clauses pb ∧ store pbM = store pb ∧
          Units pbM = Units pb ∧ Model pbM = Model pb ∧
          NbVars pbM = NbVars pb) as (HclM & HstM & HuM & HMM & HNM).
  { by destruct He as [evs ->]. }
  assert (∀ i c, clauseAt pb' i = Some c →
            ∃ k, clauseAt pb k = Some c ∧ k ∉ toRemove) as Hback.
  { intros i c Hc. apply clauseAt_Some in Hc as (p & Hp & Hc).
    rewrite Hcl in Hp. rewrite Hst in Hc. simpl in Hp, Hc.
    apply keepClauses_lookup in Hp as (k & Hk & Hnot).
    exists k. split; [|done]. apply clauseAt_Some. exists p.
    split; congruence. }
  split_and!.
  - rewrite Hcl. simpl. rewrite HclM. apply keepClauses_sublist.
  - by rewrite Hst.
  - by rewrite Hu.
  - by rewrite HM.
  - intros k p Hk Hnot. rewrite Hcl. simpl.
    apply (keepClauses_elem_of _ 0 _ k); [congruence|].
    simpl. intros Hin. by apply Hnot, Hmarks.
  - intros k' (i & l & m' & ck & cm & Hi & Hmod & Hl & Hck & Hcm & Hlk & Hlm
               & Hlen & Hs).
    apply Hback in Hck as (k & Hck & Hnot).
    apply Hback in Hcm as (m & Hcm & _).
    apply Hnot, Hmarks. exists i, l, m, ck, cm.
    split_and!; try done; simpl in *; congruence.
Qed.

End SubsumptionComplete.

Lemma Subsumption_removes_the_marked_clauses_only_witness :
  ∃ pb', @Subsumption refOps exDuplicates = Ok pb' ∧
    Clauses pb' `sublist_of` Clauses exDuplicates ∧
    store pb' = store exDuplicates ∧
    Units pb' = Units exDuplicates ∧ Model pb' = Model exDuplicates ∧
    (∀ k p, Clauses exDuplicates !! k = Some p →
       ¬ @markable refOps exDuplicates k → p ∈ Clauses pb') ∧
    (∀ k, ¬ @markable refOps pb' k).
Proof.
  eexists. split; [vm_compute; reflexivity|].
  apply (@Subsumption_removes_the_marked_clauses_only refOps exDuplicates).
  - apply wfInput_normalized, wfInput_newProblem.
    repeat constructor; simpl; lia.
  - vm_compute; reflexivity.
Defined.

Section EmptyDatabase.
Context `{ops : ClauseOps}.

(** X19. On a problem without clauses, undetermined, [Preprocess]
    returns with status [Sat] and binds nothing. *)
Theorem Preprocess_of_no_clause_is_Sat (fuel : nat) (pb : Problem) :
  2 ≤ fuel → Clauses pb = [] → status pb = Undetermined →
  NbVars pb ≤ length (Model pb) →
  ∃ pb', Preprocess fuel pb = Ok pb' ∧ status pb' = Sat ∧
    Clauses pb' = [] ∧ Units pb' = Units pb ∧ Model pb' = Model pb.
Proof.
  intros Hf Hnil Hst Hm.
  assert (wfClauses pb) as Hwf.
  { intros p Hp. rewrite Hnil in Hp. by apply elem_of_nil in Hp. }
  assert (noSelfSubsumption pb) as Hno.
  { intros c1 c2 H1. unfold clausesOf in H1. rewrite Hnil in H1.
    by apply elem_of_nil in H1. }
  destruct (SelfSub_quiet fuel pb Hf Hwf Hm Hno) as (pbA & HA & evsA & ->).
  unfold Preprocess. rewrite HA. simpl.
  set (pbA := setTrace (trace pb ++ evsA) pb).
  destruct (subsumeMark_total pbA) as (pbM & toRemove & HM); [done..|].
  unfold Subsumption. rewrite HM. simpl.
  destruct (subsumeMark_extends _ _ _ HM) as [evs ->].
  simpl. rewrite Hnil. simpl.
  unfold buildOccurs. simpl. unfold Simplify2. simpl.
  unfold updateStatus. simpl. rewrite Hst.
  rewrite decide_True by done.
  eexists. split; [done|]. done.
Qed.

End EmptyDatabase.

Lemma Preprocess_of_no_clause_is_Sat_witness :
  ∃ pb', @Preprocess refOps 2 (newProblem 3 []) = Ok pb' ∧ status pb' = Sat ∧
    Clauses pb' = [] ∧ Units pb' = [] ∧ Model pb' = [0%Z; 0%Z; 0%Z].
Proof.
  apply (@Preprocess_of_no_clause_is_Sat refOps 2 (newProblem 3 []));
    [lia|reflexivity|reflexivity|simpl; lia].
Defined.

Lemma tidy_same pb pb' :
  Units pb' = Units pb → Model pb' = Model pb → tidy pb → tidy pb'.
Proof.
  intros Hu Hm [[Hs1 Hs2] Hnd]. unfold tidy, synced. rewrite Hu, Hm. done.
Qed.

Lemma tidy_addUnit_unbound l pb pb' :
  tidy pb → Model pb !! Lit_Var l = Some 0%Z → addUnit l pb = Ok pb' →
  tidy pb'.
Proof.
  intros [Hs Hnd] Hm H.
  destruct (addUnit_unbound _ _ _ Hm H) as [-> Hs']. split; [by apply Hs'|].
  simpl. apply NoDup_app. split_and!; [done| |apply NoDup_singleton].
  intros x Hx Hx'. apply list_elem_of_singleton in Hx' as ->.
  destruct Hs as [_ Hs2]. rewrite (Hs2 _ Hx) in Hm.
  unfold polarity in Hm. by destruct (IsPositive l).
Qed.

Lemma scanClause_tidy pb i nb rs r :
  tidy pb → scanClause pb i nb rs = Ok r →
  match r with
  | ClauseReturn pb' | ClauseNext pb' _ _ _ => tidy pb'
  end.
Proof.
  intros Ht H.
  apply scanClause_Ok in H as (p & c & sat & n & c' & Hp & Hc & Hs & H).
  destruct (scanLits_spec _ _ _ _ _ _ _ _ Hs eq_refl (le_n _) (Forall_nil_2 _))
    as (Hlen & Hn & Hsub & Htake & Hfalse & _).
  simpl in H. destruct H as [(-> & pb2 & Hm & ->)|[(-> & -> & ->)|
    [(-> & -> & first & pb2 & Hfirst & Hadd & H)|(-> & Hn2 & ->)]]].
  - apply moveClause_Ok in Hm as (q & Hq & Hlt & ->).
    by apply (tidy_same pb).
  - by apply (tidy_same pb).
  - assert (tidy pb2) as Ht2.
    { apply (tidy_addUnit_unbound first
               (setStore (<[p := c']> (store pb)) pb)); [..|done].
      - by apply (tidy_same pb).
      - destruct (Hfalse eq_refl) as [Hu _]. rewrite Forall_forall in Hu.
        apply Hu. apply (list_elem_of_lookup_2 _ 0).
        rewrite lookup_take_lt by lia. done. }
    destruct H as [[_ ->]|(_ & pb3 & Hm & ->)]; [done|].
    apply moveClause_Ok in Hm as (q & Hq & Hlt & ->).
    by apply (tidy_same pb2).
  - by apply (tidy_same pb).
Qed.

Lemma Simplify2_tidy pb pb' : tidy pb → Simplify2 pb = Ok pb' → tidy pb'.
Proof.
  intros Ht.
  apply (Simplify2_inv (λ pb1 _ _ _, tidy pb1) tidy); try done.
  - intros pb1 i nb rs r HP _ Hr. by apply (scanClause_tidy _ _ _ _ _ HP Hr).
  - intros pb1 nb pb2 HP Hu. unfold updateStatus in Hu.
    repeat case_decide; simplify_eq; by apply (tidy_same pb1).
Qed.

Lemma inferUnit_tidy l pb r :
  tidy pb → inferUnit l pb = Ok r → tidy (unitResult r).
Proof.
  intros [Hs Hnd] H. pose proof (inferUnit_sound _ _ _ Hs H) as Hsound.
  apply inferUnit_Ok in H as (m & Hm & [[_ ->]|[_ ->]]); [done|].
  simpl in *. destruct Hsound as (Hs' & _). split; [done|].
  destruct (existsb (Nat.eqb l) (Units pb)) eqn:He; simpl; [done|].
  apply NoDup_app. split_and!; [done| |apply NoDup_singleton].
  intros x Hx Hx'. apply list_elem_of_singleton in Hx' as ->.
  apply existsb_eqb_elem_of in Hx. congruence.
Qed.

Section Tidy.
Context `{ops : ClauseOps}.

Lemma addResolvent_tidy newC pb r :
  tidy pb → addResolvent newC pb = Ok r →
  match r with Go pb' | Ret pb' => tidy pb' end.
Proof.
  intros Ht H. apply addResolvent_Ok in H as (isSat & c & _ & H).
  destruct H as [(_ & ->)|[(_ & _ & ->)|[(_ & l & _ & H)|(_ & _ & ->)]]];
    try (by apply (tidy_same pb)).
  apply (inferUnit_tidy _ _ _ Ht) in H. by destruct r.
Qed.

Lemma pairStep_tidy v idx1 idx2 s r :
  tidy (problem s) → pairStep v idx1 idx2 s = Ok r → tidy (pairProblem r).
Proof.
  intros Ht H. apply pairStep_Ok in H as (c1 & c2 & _ & _ & Hr). simpl in Hr.
  destruct Hr as [(_ & _ & ->)|(newC & removals & r1 & _ & Hadd & Hr)];
    [by apply (tidy_same (problem s))|].
  apply addResolvent_tidy in Hadd; [|by apply (tidy_same (problem s))].
  destruct r1 as [pb1|pb1]; [|by subst].
  apply removeAndRebuild_Ok in Hr
    as (o & _ & [(_ & pb2 & occ2 & Hrm & _ & ->)|(_ & ->)]); [|done].
  apply removals_status in Hrm as (_ & Hu & Hm & _). simpl.
  by apply (tidy_same pb1).
Qed.

Lemma SelfSub_tidy fuel pb pb' : tidy pb → SelfSub fuel pb = Ok pb' → tidy pb'.
Proof.
  intros Ht H. unfold SelfSub in H.
  apply bind_Ok in H as (occ & _ & H). apply bind_Ok in H as (r & Hl & H).
  assert (flowPost (λ s, tidy (problem s)) tidy r) as Hr.
  { eapply (selfSubLoop_inv (λ s, tidy (problem s)) tidy); [| | | |exact Hl];
      try done.
    intros v idx1 idx2 s1 r1 o1 o2 HP _ _ _ _ Hr.
    apply (pairStep_tidy _ _ _ _ _ HP) in Hr. by destruct r1. }
  destruct r as [s|pb1]; simpl in *; [|by simplify_eq].
  destruct (neverModified s); [by simplify_eq|].
  by eapply Simplify2_tidy.
Qed.

Lemma Subsumption_tidy pb pb' : tidy pb → Subsumption pb = Ok pb' → tidy pb'.
Proof.
  intros Ht H. unfold Subsumption in H.
  apply bind_Ok in H as ([pbM toRemove] & Hm & H).
  apply bind_Ok in H as (occ & _ & H).
  destruct (subsumeMark_extends _ _ _ Hm) as [evs ->].
  eapply Simplify2_tidy; [|exact H]. by apply (tidy_same pb).
Qed.

(** X20. [Preprocess] keeps [Units] and [Model] in step: from a state
    where they agree and [Units] has no repetition, it returns a state
    where every bound variable has its literal in [Units], every
    literal of [Units] is bound accordingly, and no literal is recorded
    twice. *)
Theorem Preprocess_keeps_Units_and_Model_in_step (fuel : nat)
  (pb pb' : Problem) :
  synced pb → NoDup (Units pb) → Preprocess fuel pb = Ok pb' →
  synced pb' ∧ NoDup (Units pb').
Proof.
  intros Hs Hnd H. unfold Preprocess in H.
  apply bind_Ok in H as (pbA & HA & HB).
  eapply Subsumption_tidy; [|exact HB].
  eapply SelfSub_tidy; [|exact HA]. by split.
Qed.

End Tidy.

Lemma Preprocess_keeps_Units_and_Model_in_step_witness :
  ∃ pb', @Preprocess refOps 3 exChain = Ok pb' ∧
    synced pb' ∧ NoDup (Units pb').
Proof.
  eexists. split; [vm_compute; reflexivity|].
  apply (@Preprocess_keeps_Units_and_Model_in_step refOps 3 exChain).
  - apply (wfInput_consistent exChain).
    apply wfInput_newProblem. repeat constructor; simpl; lia.
  - apply NoDup_nil_2.
  - vm_compute; reflexivity.
Defined.

Lemma keepsFrame_refl pb : keepsFrame pb pb.
Proof. by repeat split. Qed.

Lemma keepsFrame_trans pb1 pb2 pb3 :
  keepsFrame pb1 pb2 → keepsFrame pb2 pb3 → keepsFrame pb1 pb3.
Proof.
  unfold keepsFrame. intros (? & ? & ? & ?) (? & ? & ? & ?).
  split_and!; congruence.
Qed.

Lemma addUnit_keepsFrame lit pb pb' :
  addUnit lit pb = Ok pb' → keepsFrame pb pb'.
Proof.
  intros H. apply addUnit_Ok in H as (m & _ & [[_ ->]|[_ ->]]); [done|].
  unfold keepsFrame. simpl. by rewrite length_insert.
Qed.

Lemma scanClause_keepsFrame pb i nb rs r :
  scanClause pb i nb rs = Ok r →
  match r with
  | ClauseReturn pb' | ClauseNext pb' _ _ _ => keepsFrame pb pb'
  end.
Proof.
  intros H. apply scanClause_Ok in H
    as (p & c & clauseSat & nbLits & c' & _ & _ & _ & Hr). simpl in Hr.
  destruct Hr as [(_ & pb2 & Hmv & ->)|[(_ & _ & ->)
    |[(_ & _ & first & pb2 & _ & Hau & Hr)|(_ & _ & ->)]]]; try done.
  - by apply moveClause_Ok in Hmv as (q & _ & _ & ->).
  - apply addUnit_keepsFrame in Hau.
    destruct Hr as [[_ ->]|(_ & pb3 & Hmv & ->)]; [done|].
    by apply moveClause_Ok in Hmv as (q & _ & _ & ->).
Qed.

Lemma Simplify2_keepsFrame pb pb' : Simplify2 pb = Ok pb' → keepsFrame pb pb'.
Proof.
  apply (Simplify2_inv (λ pb1 _ _ _, keepsFrame pb pb1) (keepsFrame pb)).
  - intros pb1 i nb rs r HP _ Hr. apply scanClause_keepsFrame in Hr.
    destruct r; by eapply keepsFrame_trans.
  - done.
  - intros pb1 nb pb2 HP Hu. unfold updateStatus in Hu.
    repeat case_decide; by simplify_eq.
  - apply keepsFrame_refl.
Qed.

Lemma removals_keepsFrame removals pb pb' :
  foldl (λ r i, pb ← r; swapRemove i pb) (Ok pb) removals = Ok pb' →
  keepsFrame pb pb'.
Proof.
  revert pb. induction removals as [|i removals IH]; intros pb H; simpl in H.
  - simplify_eq. apply keepsFrame_refl.
  - destruct (swapRemove i pb) as [pb1| |] eqn:Hs; simpl in H.
    + apply IH in H. apply swapRemove_Ok in Hs as (n & last & _ & _ & _ & ->).
      done.
    + clear -H. exfalso. induction removals; simpl in H; [done|auto].
    + clear -H. exfalso. induction removals; simpl in H; [done|auto].
Qed.

Section Frame.
Context `{ops : ClauseOps}.

Lemma addResolvent_keepsFrame newC pb r :
  addResolvent newC pb = Ok r →
  match r with Go pb' | Ret pb' => keepsFrame pb pb' end.
Proof.
  intros H. apply addResolvent_Ok in H
    as (isSat & c & _ & [[_ ->]|[(_ & _ & ->)|[(_ & l & _ & H)|(_ & _ & ->)]]]);
    try done.
  apply inferUnit_Ok in H as (m & _ & [[_ ->]|[_ ->]]); [done|].
  simpl. case_match; unfold keepsFrame; simpl; by rewrite ?length_insert.
Qed.

Lemma pairStep_keepsFrame v idx1 idx2 s r :
  pairStep v idx1 idx2 s = Ok r → keepsFrame (problem s) (pairProblem r).
Proof.
  intros H. apply pairStep_Ok in H as (c1 & c2 & _ & _ & Hr). simpl in Hr.
  destruct Hr as [(_ & _ & ->)|(newC & removals & r1 & _ & Hadd & Hr)];
    [done|].
  apply addResolvent_keepsFrame in Hadd.
  destruct r1 as [pb1|pb1]; [|by subst].
  apply removeAndRebuild_Ok in Hr
    as (o & _ & [(_ & pb2 & occ2 & Hrm & _ & ->)|(_ & ->)]); [|done].
  apply removals_keepsFrame in Hrm. simpl.
  eapply keepsFrame_trans; [|exact Hrm]. exact Hadd.
Qed.

Lemma SelfSub_keepsFrame fuel pb pb' :
  SelfSub fuel pb = Ok pb' → keepsFrame pb pb'.
Proof.
  unfold SelfSub. intros H. apply bind_Ok in H as (occ & _ & H).
  apply bind_Ok in H as (r & Hl & H).
  assert (flowPost (λ s', keepsFrame pb (problem s')) (keepsFrame pb) r) as Hr.
  { eapply (selfSubLoop_inv (λ s', keepsFrame pb (problem s'))
              (keepsFrame pb)); [| | | |exact Hl]; try done.
    intros v idx1 idx2 s1 r1 o1 o2 HP _ _ _ _ Hr.
    apply pairStep_keepsFrame in Hr.
    destruct r1; by eapply keepsFrame_trans. }
  destruct r as [s|pb1]; simpl in *; [|by simplify_eq].
  destruct (neverModified s); [by simplify_eq|].
  apply Simplify2_keepsFrame in H. by eapply keepsFrame_trans.
Qed.

Lemma Subsumption_keepsFrame pb pb' :
  Subsumption pb = Ok pb' → keepsFrame pb pb'.
Proof.
  unfold Subsumption. intros H.
  apply bind_Ok in H as ([pb1 toRemove] & Hm & H).
  apply bind_Ok in H as (occ & _ & H).
  apply subsumeMark_extends in Hm as [evs ->].
  by apply Simplify2_keepsFrame in H.
Qed.

(** X21. No pass writes [NbVars], [minLits] or [minWeights], and
    [Model] keeps its length: this holds of [addUnit], [Simplify2],
    [SelfSub], [Subsumption] and [Preprocess]. *)
Theorem passes_leave_the_frame_alone (fuel : nat) (lit : nat)
  (pb pb' : Problem) :
  addUnit lit pb = Ok pb' ∨ Simplify2 pb = Ok pb' ∨
  SelfSub fuel pb = Ok pb' ∨ Subsumption pb = Ok pb' ∨
  Preprocess fuel pb = Ok pb' →
  keepsFrame pb pb'.
Proof.
  intros [H|[H|[H|[H|H]]]].
  - by apply addUnit_keepsFrame in H.
  - by apply Simplify2_keepsFrame.
  - by eapply SelfSub_keepsFrame.
  - by apply Subsumption_keepsFrame.
  - unfold Preprocess in H. apply bind_Ok in H as (pbA & HA & HB).
    eapply keepsFrame_trans; [by eapply SelfSub_keepsFrame|].
    by apply Subsumption_keepsFrame.
Qed.

End Frame.

Lemma passes_leave_the_frame_alone_witness :
  ∃ pb', @Preprocess refOps 3 exChain = Ok pb' ∧ keepsFrame exChain pb'.
Proof.
  eexists. split; [vm_compute; reflexivity|].
  apply (@passes_leave_the_frame_alone refOps 3 0).
  do 4 right. vm_compute; reflexivity.
Defined.

Section PassesSound.
Context `{ops : ClauseOps} `{!ClauseOpsSound ops}.

(** X22. [SelfSub] alone keeps the models, with clause operations that
    meet their contracts: from a state whose [Model] and [Units] agree
    and whose status [Unsat], if set, is justified, the assignments
    satisfying clauses and units are the same before and after, and a
    final status [Unsat] means that there is none. *)
Theorem SelfSub_keeps_the_models (fuel : nat) (pb pb' : Problem) :
  synced pb → (status pb = Unsat → ∀ σ, ¬ formulaTrue σ pb) →
  SelfSub fuel pb = Ok pb' →
  (∀ σ, formulaTrue σ pb' ↔ formulaTrue σ pb) ∧
  (status pb' = Unsat → ∀ σ, ¬ formulaTrue σ pb).
Proof.
  intros Hs Hu H.
  destruct (SelfSub_sound fuel pb pb' (conj Hs Hu) H) as [[Hs' Hu'] He].
  split.
  - intros σ. symmetry. apply He.
  - intros Hst σ Hf. apply (Hu' Hst σ). by apply He.
Qed.

(** X23. [Subsumption] alone keeps the models, with clause operations
    that meet their contracts: from a state whose [Model] and [Units]
    agree and whose status [Unsat], if set, is justified, the clauses
    it removes follow from the ones it keeps, so the assignments
    satisfying clauses and units are the same before and after, and a
    final status [Unsat] means that there is none. *)
Theorem Subsumption_keeps_the_models (pb pb' : Problem) :
  synced pb → (status pb = Unsat → ∀ σ, ¬ formulaTrue σ pb) →
  Subsumption pb = Ok pb' →
  (∀ σ, formulaTrue σ pb' ↔ formulaTrue σ pb) ∧
  (status pb' = Unsat → ∀ σ, ¬ formulaTrue σ pb).
Proof.
  intros Hs Hu H.
  destruct (Subsumption_sound pb pb' (conj Hs Hu) H) as [[Hs' Hu'] He].
  split.
  - intros σ. symmetry. apply He.
  - intros Hst σ Hf. apply (Hu' Hst σ). by apply He.
Qed.

End PassesSound.

Lemma synced_newProblem nbVars clauses : synced (newProblem nbVars clauses).
Proof.
  split.
  - intros v m Hv. simpl in Hv. apply lookup_replicate in Hv as [-> _].
    by left.
  - intros l Hl. simpl in Hl. by apply elem_of_nil in Hl.
Qed.

Lemma SelfSub_keeps_the_models_witness :
  ∃ pb', @SelfSub refOps 3 exChain = Ok pb' ∧
    (∀ σ, formulaTrue σ pb' ↔ formulaTrue σ exChain) ∧
    (status pb' = Unsat → ∀ σ, ¬ formulaTrue σ exChain).
Proof.
  eexists. split; [vm_compute; reflexivity|].
  apply (@SelfSub_keeps_the_models refOps refOps_sound 3 exChain).
  - apply synced_newProblem.
  - intros Hst. discriminate Hst.
  - vm_compute; reflexivity.
Defined.

Lemma Subsumption_keeps_the_models_witness :
  ∃ pb', @Subsumption refOps exDuplicates = Ok pb' ∧
    (∀ σ, formulaTrue σ pb' ↔ formulaTrue σ exDuplicates) ∧
    (status pb' = Unsat → ∀ σ, ¬ formulaTrue σ exDuplicates).
Proof.
  eexists. split; [vm_compute; reflexivity|].
  apply (@Subsumption_keeps_the_models refOps refOps_sound exDuplicates).
  - apply synced_newProblem.
  - intros Hst. discriminate Hst.
  - vm_compute; reflexivity.
Defined.

(** ** The text of a problem *)

Lemma append_nil_r (s : String.string) :
  String.append s String.EmptyString = s.
Proof. induction s as [|a s IH]; simpl; [done|by rewrite IH]. Qed.

Lemma append_assoc (s1 s2 s3 : String.string) :
  String.append (String.append s1 s2) s3 =
  String.append s1 (String.append s2 s3).
Proof. induction s1 as [|a s1 IH]; simpl; [done|by rewrite IH]. Qed.

Lemma countLines_append (s1 s2 : String.string) :
  countLines (String.append s1 s2) = countLines s1 + countLines s2.
Proof. induction s1 as [|a s1 IH]; simpl; [done|rewrite IH; lia]. Qed.

Lemma countLines_uint d :
  countLines (DecimalString.NilEmpty.string_of_uint d) = 0.
Proof. induction d; simpl; done. Qed.

Lemma countLines_showInt z : countLines (showInt z) = 0.
Proof.
  unfold showInt, DecimalString.NilZero.string_of_int,
    DecimalString.NilZero.string_of_uint.
  destruct (Z.to_int z) as [d|d]; destruct d; simpl;
    try done; apply countLines_uint.
Qed.

Section CNFLines.
Context `{rd : Rendering}.

Lemma unitLines_spec units text :
  ∃ body, unitLines units text = String.append text body ∧
    countLines body = length units.
Proof.
  revert text. induction units as [|u units IH]; intros text; simpl.
  - exists String.EmptyString. by rewrite append_nil_r.
  - match goal with
    | |- ∃ _, unitLines _ ?t = _ ∧ _ => destruct (IH t) as (body & -> & Hc)
    end.
    eexists. split; [apply append_assoc|].
    rewrite !countLines_append, countLines_showInt, Hc. done.
Qed.

Lemma clauseLines_spec h cl text :
  (∀ p, p ∈ cl → is_Some (h !! p)) →
  (∀ c, countLines (ClauseCNF c) = 0) →
  ∃ body, clauseLines h cl text = Ok (String.append text body) ∧
    countLines body = length cl.
Proof.
  intros Hh Hc. revert text.
  induction cl as [|p cl IH]; intros text; simpl.
  - exists String.EmptyString. by rewrite append_nil_r.
  - destruct (Hh p) as [c Hp]; [by left|].
    rewrite (proj2 (idx_Ok _ _ _) Hp). simpl.
    assert (∀ q, q ∈ cl → is_Some (h !! q)) as Hh'.
    { intros q Hq. apply Hh. by right. }
    destruct (IH Hh'
                (String.append text (String.append (ClauseCNF c) newline)))
      as (body & -> & Hb).
    eexists. split; [by rewrite append_assoc|].
    rewrite !countLines_append, Hc, Hb. done.
Qed.

(** X24. [CNF] announces its lines: when no clause text holds a line
    feed, the text [CNF] returns is the header for [NbVars] and for
    [len(pb.Clauses) + len(pb.Units)] clauses followed by exactly that
    many lines, one for each literal of [Units], repeated ones
    included, and one for each clause of the database. *)
Theorem CNF_announces_its_lines (pb : Problem) :
  (∀ c, countLines (ClauseCNF c) = 0) →
  (∀ p, p ∈ Clauses pb → is_Some (store pb !! p)) →
  ∃ body,
    CNF pb = Ok (String.append
                   (cnfHeader (NbVars pb)
                      (length (Clauses pb) + length (Units pb))) body) ∧
    countLines body = length (Clauses pb) + length (Units pb).
Proof.
  intros Hc Hp. unfold CNF.
  destruct (unitLines_spec (Units pb)
              (cnfHeader (NbVars pb)
                 (length (Clauses pb) + length (Units pb))))
    as (b1 & -> & H1).
  destruct (clauseLines_spec (store pb) (Clauses pb) (String.append
              (cnfHeader (NbVars pb)
                 (length (Clauses pb) + length (Units pb))) b1) Hp Hc)
    as (b2 & -> & H2).
  exists (String.append b1 b2). split; [by rewrite append_assoc|].
  rewrite countLines_append. lia.
Qed.

End CNFLines.

Lemma countLines_refClauseCNF c : countLines (refClauseCNF c) = 0.
Proof.
  unfold refClauseCNF. induction c as [|l c IH]; simpl; [done|].
  rewrite countLines_append, countLines_showInt. simpl. exact IH.
Qed.

Lemma CNF_announces_its_lines_witness :
  ∃ body,
    @CNF refRendering exPropagate
      = Ok (String.append (cnfHeader 2 2) body) ∧
    countLines body = 2.
Proof.
  apply (@CNF_announces_its_lines refRendering exPropagate).
  - exact countLines_refClauseCNF.
  - intros p Hp. apply list_elem_of_singleton in Hp as ->. by eexists.
Defined.

(** ** Subsumption, run twice *)

Section SubsumptionTwice.
Context `{ops : ClauseOps}.

Lemma Subsumption_normal pb pb' :
  normalized pb → Subsumption pb = Ok pb' →
  ∃ pbM toRemove,
    subsumeMark pb = Ok (pbM, toRemove) ∧
    let pbB := setClauses (keepClauses toRemove 0 (Clauses pbM)) pbM in
    normalized pbB ∧
    pb' = if decide (status pbB = Undetermined ∧ Clauses pbB = [])
          then setStatus Sat pbB else pbB.
Proof.
  intros Hn H. unfold Subsumption in H.
  apply bind_Ok in H as ([pbM toRemove] & Hm & H).
  apply bind_Ok in H as (occ & _ & H).
  pose proof (subsumeMark_extends _ _ _ Hm) as He.
  exists pbM, toRemove. split; [done|]. simpl.
  set (pbB := setClauses (keepClauses toRemove 0 (Clauses pbM)) pbM) in *.
  assert (normalized pbB) as HnB.
  { apply keepClauses_normalized. by eapply extendsTrace_normalized. }
  split; [done|].
  rewrite (Simplify2_normalized _ HnB) in H. by simplify_eq.
Qed.

(** X25. [Subsumption] is idempotent on a database in normal form: run
    again on its own result it returns with the same [Clauses], clause
    objects, [Units], [Model] and status. *)
Theorem Subsumption_is_idempotent (pb pb' : Problem) :
  normalized pb → length (Model pb) = NbVars pb →
  Subsumption pb = Ok pb' →
  ∃ pb'', Subsumption pb' = Ok pb'' ∧ sameState pb' pb''.
Proof.
  intros Hn Hlen H.
  destruct (Subsumption_normal _ _ Hn H) as (pbM & tr & Hm & HnB & Hpb').
  simpl in HnB, Hpb'.
  pose proof (subsumeMark_marks _ _ _ Hm) as Hmarks.
  destruct (subsumeMark_extends _ _ _ Hm) as [evs ->].
  set (pbB := setClauses _ _) in *.
  assert (normalized pb' ∧ length (Model pb') = NbVars pb' ∧
          (status pb' = Undetermined → Clauses pb' ≠ []) ∧
          (∀ i, clauseAt pb' i = clauseAt pbB i) ∧
          Model pb' = Model pb ∧ NbVars pb' = NbVars pb)
    as (Hn' & Hlen' & Hne & Hat & HM & HN).
  { rewrite Hpb'. case_decide as Hd; split_and!; try done.
    intros Hs Hc. by apply Hd. }
  assert (∀ k, ¬ markable pb' k) as Hnomark.
  { intros k' (i & l & m' & ck & cm & Hi & Hmod & Hl & Hck & Hcm & Hlk & Hlm
               & Hlen2 & Hs).
    assert (∀ j c, clauseAt pb' j = Some c →
              ∃ k, clauseAt pb k = Some c ∧ k ∉ tr) as Hback.
    { intros j c Hc. rewrite Hat in Hc.
      apply clauseAt_Some in Hc as (p & Hp & Hc). simpl in Hp, Hc.
      apply keepClauses_lookup in Hp as (k & Hk & Hnot).
      exists k. split; [|done]. apply clauseAt_Some. eauto. }
    apply Hback in Hck as (k & Hck & Hnot).
    apply Hback in Hcm as (m & Hcm & _).
    apply Hnot, Hmarks. exists i, l, m, ck, cm.
    split_and!; try done; congruence. }
  assert (wfClauses pb') as Hwf by (apply normalized_wfClauses; [done|lia]).
  destruct (subsumeMark_total pb' Hwf ltac:(lia)) as (pbM' & tr' & HM').
  pose proof (subsumeMark_marks _ _ _ HM') as Hmarks'.
  destruct (subsumeMark_extends _ _ _ HM') as [evs' ->].
  assert (tr' = []) as ->.
  { destruct tr' as [|k tr']; [done|]. exfalso.
    apply (Hnomark k), Hmarks'. by left. }
  unfold Subsumption. rewrite HM'. simpl. rewrite keepClauses_nil.
  set (pbT := setTrace (trace pb' ++ evs') pb').
  assert (setClauses (Clauses pb') pbT = pbT) as -> by done.
  assert (wfClauses pbT) as HwfT by done.
  destruct (buildOccurs_total pbT HwfT) as [occ ->]. simpl.
  rewrite Simplify2_normalized by done.
  rewrite decide_False by (intros [Hs Hc]; by apply Hne).
  exists pbT. split; [done|]. by repeat split.
Qed.

End SubsumptionTwice.

Lemma Subsumption_is_idempotent_witness :
  ∃ pb', @Subsumption refOps exDuplicates = Ok pb' ∧
    ∃ pb'', @Subsumption refOps pb' = Ok pb'' ∧ sameState pb' pb''.
Proof.
  eexists. split; [vm_compute; reflexivity|].
  apply (@Subsumption_is_idempotent refOps exDuplicates).
  - apply wfInput_normalized, wfInput_newProblem.
    repeat constructor; simpl; lia.
  - reflexivity.
  - vm_compute; reflexivity.
Defined.

(** ** Termination of [SelfSub] *)

(** No step of the passes uses up fuel but the loop [for modified]. *)

Lemma bind'_in_time v b pb : bind v b pb ≠ OutOfFuel.
Proof. unfold bind. by case_decide. Qed.

Lemma inferUnit_in_time l pb : inferUnit l pb ≠ OutOfFuel.
Proof.
  unfold inferUnit.
  apply bind_in_time; [apply idx_in_time|intros m _].
  repeat case_match; try done;
    (apply bind_in_time; [apply bind'_in_time|done]).
Qed.

Lemma swapRemove_in_time i pb : swapRemove i pb ≠ OutOfFuel.
Proof.
  unfold swapRemove. case_match; [done|].
  apply bind_in_time; [apply idx_in_time|intros last _]. by case_decide.
Qed.

Lemma removals_in_time removals r :
  r ≠ OutOfFuel →
  foldl (λ r i, pb ← r; swapRemove i pb) r removals ≠ OutOfFuel.
Proof.
  revert r. induction removals as [|i removals IH]; intros r Hr; simpl;
    [done|].
  apply IH. destruct r; simpl; [apply swapRemove_in_time|done..].
Qed.

Lemma occursLits_in_time i c occ : occursLits i c occ ≠ OutOfFuel.
Proof.
  revert occ. induction c as [|l c IH]; intros occ; simpl; [done|].
  apply bind_in_time; [|intros; apply IH].
  unfold addOccurrence. apply bind_in_time; [apply idx_in_time|done].
Qed.

Lemma occursFrom_in_time h i cl occ : occursFrom h i cl occ ≠ OutOfFuel.
Proof.
  revert i occ. induction cl as [|p cl IH]; intros i occ; simpl; [done|].
  apply bind_in_time; [apply idx_in_time|intros c _].
  apply bind_in_time; [apply occursLits_in_time|intros; apply IH].
Qed.

Lemma buildOccurs_in_time pb : buildOccurs pb ≠ OutOfFuel.
Proof. apply occursFrom_in_time. Qed.

Section InTime.
Context `{ops : ClauseOps}.

Lemma addResolvent_in_time newC pb : addResolvent newC pb ≠ OutOfFuel.
Proof.
  unfold addResolvent. destruct (Simplify newC) as [[|] c]; [done|].
  destruct c as [|l [|l' c]]; simpl; try done.
  apply inferUnit_in_time.
Qed.

Lemma removeAndRebuild_in_time lit removals occ nm pb :
  removeAndRebuild lit removals occ nm pb ≠ OutOfFuel.
Proof.
  unfold removeAndRebuild.
  apply bind_in_time; [apply idx_in_time|intros o _].
  case_decide; [|done].
  apply bind_in_time; [by apply removals_in_time|intros pb1 _].
  apply bind_in_time; [apply buildOccurs_in_time|done].
Qed.

Lemma pairStep_in_time v idx1 idx2 s : pairStep v idx1 idx2 s ≠ OutOfFuel.
Proof.
  unfold pairStep.
  apply bind_in_time; [apply idx_in_time|intros p1 _].
  apply bind_in_time; [apply idx_in_time|intros p2 _].
  apply bind_in_time; [apply idx_in_time|intros c1 _].
  apply bind_in_time; [apply idx_in_time|intros c2 _].
  repeat case_match; try done;
    (apply bind_in_time; [apply addResolvent_in_time|intros [?|?] _];
     [apply removeAndRebuild_in_time|done]).
Qed.

Lemma loopIdx2_in_time v idx1 o2 s : loopIdx2 v idx1 o2 s ≠ OutOfFuel.
Proof.
  revert s. induction o2 as [|idx2 o2 IH]; intros s; simpl; [done|].
  apply bind_in_time; [apply pairStep_in_time|intros [?|?|?] _]; [|done..].
  apply IH.
Qed.

Lemma loopIdx1_in_time v o1 s : loopIdx1 v o1 s ≠ OutOfFuel.
Proof.
  revert s. induction o1 as [|idx1 o1 IH]; intros s; simpl; [done|].
  apply bind_in_time; [apply idx_in_time|intros o2 _].
  apply bind_in_time; [apply loopIdx2_in_time|intros [s'|?] _]; [|done].
  destruct (modified s'); [done|apply IH].
Qed.

Lemma selfSubVar_in_time i s : selfSubVar i s ≠ OutOfFuel.
Proof.
  unfold selfSubVar.
  apply bind_in_time; [apply idx_in_time|intros m _].
  case_decide; [done|].
  apply bind_in_time; [apply idx_in_time|intros o1 _].
  apply bind_in_time; [apply idx_in_time|intros o2 _].
  case_decide; [apply loopIdx1_in_time|done].
Qed.

Lemma selfSubSweep_in_time n i s : selfSubSweep n i s ≠ OutOfFuel.
Proof.
  revert i s. induction n as [|n IH]; intros i s; simpl; [done|].
  apply bind_in_time; [apply selfSubVar_in_time|intros [?|?] _]; [|done].
  apply IH.
Qed.

End InTime.

(** The weight under the steps of [SelfSub]. *)

Lemma weight_ext pb pb' : extendsTrace pb pb' → weight pb' = weight pb.
Proof. by intros [evs ->]. Qed.

Lemma sum_list_with_agree {A} (f g : A → nat) l :
  (∀ x, x ∈ l → f x = g x) → sum_list_with f l = sum_list_with g l.
Proof.
  induction l as [|x l IH]; intros H; simpl; [done|].
  rewrite (H x) by (by left). rewrite IH; [done|].
  intros y Hy. apply H. by right.
Qed.

Lemma clauseWeight_Some h p c :
  h !! p = Some c → clauseWeight h p = S (length c).
Proof. intros H. unfold clauseWeight. by rewrite H. Qed.

Lemma clauseWeight_app h h' p :
  is_Some (h !! p) → clauseWeight (h ++ h') p = clauseWeight h p.
Proof.
  intros [c Hc]. unfold clauseWeight.
  by rewrite (lookup_app_l_Some _ _ _ _ Hc), Hc.
Qed.

Lemma weight_append R pb :
  (∀ p, p ∈ Clauses pb → is_Some (store pb !! p)) →
  weight (appendClause R pb) = weight pb + S (length R).
Proof.
  intros Hv. unfold weight. simpl. rewrite sum_list_with_app. simpl.
  f_equal.
  - apply sum_list_with_agree. intros p Hp. by apply clauseWeight_app, Hv.
  - unfold clauseWeight. rewrite lookup_app_r by lia.
    rewrite Nat.sub_diag. simpl. lia.
Qed.

Lemma swapRemove_weight i pb pb' :
  swapRemove i pb = Ok pb' →
  ∃ p, Clauses pb !! i = Some p ∧ store pb' = store pb ∧
    weight pb = clauseWeight (store pb) p + weight pb'.
Proof.
  intros H. apply swapRemove_Permutation in H as (p & Hp & Hperm & Heq).
  exists p. split; [done|]. rewrite Heq. split; [done|].
  unfold weight. simpl. by rewrite <- Hperm.
Qed.

Lemma removals_weight removals pb pb' :
  foldl (λ r i, pb ← r; swapRemove i pb) (Ok pb) removals = Ok pb' →
  weight pb' ≤ weight pb ∧
  (removals ≠ [] → weight pb' < weight pb).
Proof.
  revert pb. induction removals as [|i removals IH]; intros pb H; simpl in H.
  - simplify_eq. split; [done|]. by intros [].
  - destruct (swapRemove i pb) as [pb1| |] eqn:Hs; simpl in H.
    + apply IH in H as [Hle _].
      apply swapRemove_weight in Hs as (p & _ & _ & Hw).
      unfold clauseWeight in Hw. split; [lia|]. intros _. lia.
    + clear -H. exfalso. induction removals; simpl in H; [done|auto].
    + clear -H. exfalso. induction removals; simpl in H; [done|auto].
Qed.

Lemma buildOccurs_wf pb occ : buildOccurs pb = Ok occ → wfClauses pb.
Proof.
  intros H p Hp.
  destruct (occursFrom_inRange _ _ _ _ _ H p Hp) as (c & Hc & Hf).
  exists c. split; [done|]. by rewrite length_replicate in Hf.
Qed.

Section Termination.
Context `{ops : ClauseOps} `{!ClauseOpsShrink ops}.

Lemma addResolvent_weight newC pb pb1 :
  addResolvent newC pb = Ok (Go pb1) →
  (Clauses pb1 = Clauses pb ∧ store pb1 = store pb) ∨
  (∃ R, Simplify newC = (false, R) ∧ pb1 = appendClause R pb).
Proof.
  intros H. apply addResolvent_Ok in H as (isSat & R & HS & H).
  destruct H as [(_ & H)|[(_ & _ & H)|[(_ & l & _ & H)|(-> & _ & H)]]];
    simplify_eq.
  - by left.
  - apply inferUnit_Ok in H as (m & _ & [[_ ?]|[_ ?]]); simplify_eq.
    left. by case_match.
  - right. by exists R.
Qed.

Lemma pairStep_weight v idx1 idx2 s r o1 o2 :
  wfClauses (problem s) → occursOf (problem s) (occurs s) →
  occurs s !! Var_Lit v = Some o1 → idx1 ∈ o1 →
  occurs s !! Negation (Var_Lit v) = Some o2 → idx2 ∈ o2 →
  pairStep v idx1 idx2 s = Ok r →
  match r with
  | PairNext s' =>
    extendsTrace (problem s) (problem s') ∧ occurs s' = occurs s ∧
    modified s' = modified s
  | PairBreak s' =>
    weight (problem s') < weight (problem s) ∧
    wfClauses (problem s') ∧ occursOf (problem s') (occurs s')
  | PairReturn _ => True
  end.
Proof.
  intros Hwf Hocc Ho1 Hi1 Ho2 Hi2 H.
  apply pairStep_Ok in H as (c1 & c2 & Hc1 & Hc2 & H). simpl in H.
  assert (Var_Lit v ∈ c1) as Hv1.
  { destruct Hocc as [_ Hmem].
    apply (Hmem _ _ Ho1 idx1) in Hi1 as (c & Hc & Hin). congruence. }
  assert (Negation (Var_Lit v) ∈ c2) as Hv2.
  { destruct Hocc as [_ Hmem].
    apply (Hmem _ _ Ho2 idx2) in Hi2 as (c & Hc & Hin). congruence. }
  destruct H as [(_ & _ & ->)|(newC & removals & r1 & Hcase & Hadd & Hr)].
  { split_and!; [apply extendsTrace_log|done|done]. }
  destruct r1 as [pb1|pb1]; [|by subst].
  apply removeAndRebuild_Ok in Hr
    as (o & Ho & [(Hpos & pb2 & occ2 & Hrm & Hb & ->)|(Hz & ->)]).
  2:{ rewrite Ho2 in Ho. simplify_eq. destruct o; [|done].
      by apply elem_of_nil in Hi2. }
  simpl. split_and!; [|by eapply buildOccurs_wf|by apply buildOccurs_Ok].
  set (pb0 := logEvent (EvPair (Var_Lit v) idx1 idx2) (problem s)) in *.
  assert (weight pb0 = weight (problem s)) as <- by done.
  assert (∀ p, p ∈ Clauses pb0 → is_Some (store pb0 !! p)) as Hvalid.
  { intros p Hp. destruct (Hwf p Hp) as (c & Hc & _). by exists c. }
  apply clauseAt_Some in Hc1 as (p1 & Hp1 & Hs1).
  apply clauseAt_Some in Hc2 as (p2 & Hp2 & Hs2).
  destruct (addResolvent_weight _ _ _ Hadd) as [[Hcl Hst]|(R & HS & ->)].
  { assert (weight pb1 = weight pb0) as <-.
    { unfold weight. by rewrite Hcl, Hst. }
    apply removals_weight in Hrm as [_ Hlt]. apply Hlt.
    destruct Hcase as [(_ & _ & _ & ->)|[(_ & _ & _ & ->)|(_ & _ & _ & ->)]];
      done. }
  rewrite <- (Nat.add_0_r (weight pb0)).
  pose proof (weight_append R pb0 Hvalid) as Hwa.
  assert (∀ i p c, Clauses pb0 !! i = Some p → store pb0 !! p = Some c →
            Clauses (appendClause R pb0) !! i = Some p ∧
            clauseWeight (store (appendClause R pb0)) p = S (length c))
    as Hold.
  { intros i p c Hp Hc. simpl. split.
    - by apply lookup_app_l_Some.
    - apply clauseWeight_Some. by apply lookup_app_l_Some. }
  destruct (Hold _ _ _ Hp1 Hs1) as [Hp1' Hw1].
  destruct (Hold _ _ _ Hp2 Hs2) as [Hp2' Hw2].
  destruct Hcase as [(HP & HN & -> & ->)|[(HP & HN & -> & ->)
                    |(HP & HN & -> & ->)]]; simpl in Hrm.
  - (* both directions *)
    pose proof (Generate_shrinks c1 c2 v R HP (or_introl (conj Hv1 Hv2)) HS)
      as Hshort.
    destruct (swapRemove idx1 _) as [pbA| |] eqn:HA; simpl in Hrm; try done.
    pose proof HA as HA'.
    apply swapRemove_weight in HA' as (q1 & Hq1 & HstA & HwA).
    assert (q1 = p1) as -> by congruence.
    pose proof Hrm as Hrm'.
    apply swapRemove_weight in Hrm' as (q2 & Hq2 & _ & HwB).
    rewrite Hw1 in HwA.
    destruct (decide (idx1 = idx2)) as [<-|Hne].
    + assert (p2 = p1) as -> by congruence.
      assert (c2 = c1) as -> by congruence.
      unfold clauseWeight in HwB. lia.
    + apply swapRemove_elem in HA as (x & _ & _ & Hsame & _).
      apply swapRemove_Ok in Hrm as (n & last & Hn & _ & Hle & _).
      rewrite Hsame in Hq2 by lia.
      assert (q2 = p2) as -> by congruence.
      rewrite HstA, Hw2 in HwB. lia.
  - (* the positive clause only *)
    pose proof (Generate_shrinks c1 c2 v R HP (or_introl (conj Hv1 Hv2)) HS)
      as Hshort.
    apply swapRemove_weight in Hrm as (q2 & Hq2 & _ & HwB).
    assert (q2 = p2) as -> by congruence.
    rewrite Hw2 in HwB. lia.
  - (* the negative clause only *)
    pose proof (Generate_shrinks c2 c1 v R HN (or_intror (conj Hv2 Hv1)) HS)
      as Hshort.
    apply swapRemove_weight in Hrm as (q1 & Hq1 & _ & HwB).
    assert (q1 = p1) as -> by congruence.
    rewrite Hw1 in HwB. lia.
Qed.

Lemma selfSubSweep_weight n i s r :
  wfClauses (problem s) → occursOf (problem s) (occurs s) →
  modified s = false →
  selfSubSweep n i s = Ok r →
  match r with
  | Go s' =>
    wfClauses (problem s') ∧ occursOf (problem s') (occurs s') ∧
    (modified s' = true → weight (problem s') < weight (problem s)) ∧
    weight (problem s') ≤ weight (problem s)
  | Ret _ => True
  end.
Proof.
  intros Hwf Hocc Hmod H.
  set (w0 := weight (problem s)).
  pose (P := λ s' : SelfSubState,
    wfClauses (problem s') ∧ occursOf (problem s') (occurs s') ∧
    (modified s' = true → weight (problem s') < w0) ∧
    weight (problem s') ≤ w0).
  assert (flowPost P (λ _, True) r) as Hr; [|by destruct r].
  eapply (selfSubSweep_inv P (λ _, True)); [| | |exact H].
  - intros v idx1 idx2 s1 r1 o1 o2 (Hwf1 & Hocc1 & Hm1 & Hle1) Ho1 Hi1 Ho2 Hi2
      Hp.
    pose proof (pairStep_weight _ _ _ _ _ _ _ Hwf1 Hocc1 Ho1 Hi1 Ho2 Hi2 Hp)
      as Hw.
    destruct r1 as [s'|s'|pb']; [| |done].
    + destruct Hw as (He & Heq & Hmeq). pose proof (weight_ext _ _ He) as Hwe.
      unfold P. rewrite Heq, Hmeq, Hwe. split_and!; try done.
      * by destruct He as [evs ->].
      * by eapply occursOf_ext.
    + destruct Hw as (Hlt & Hwf' & Hocc'). unfold P. split_and!; try done;
        intros; lia.
  - intros s1 l (Hwf1 & Hocc1 & Hm1 & Hle1). unfold P. simpl.
    split_and!; try done;
      by eapply occursOf_ext; [apply extendsTrace_log|].
  - unfold P. split_and!; try done. rewrite Hmod. done.
Qed.

Lemma selfSubLoop_unmodified fuel s :
  modified s = false → selfSubLoop (S fuel) s = Ok (Go s).
Proof. intros H. simpl. by rewrite H. Qed.

Lemma selfSubLoop_terminates fuel s :
  wfClauses (problem s) → occursOf (problem s) (occurs s) →
  weight (problem s) + 2 ≤ fuel → selfSubLoop fuel s ≠ OutOfFuel.
Proof.
  revert s. induction fuel as [|fuel IH]; intros s Hwf Hocc Hf; [lia|].
  simpl. destruct (modified s); [|done].
  set (s0 := mkSelfSub (problem s) (occurs s) false (neverModified s)).
  destruct (selfSubSweep _ _ _) as [r| |] eqn:Hsw; simpl; [|done|].
  - apply (selfSubSweep_weight _ _ s0) in Hsw; [|done..].
    destruct r as [s'|pb']; [|done].
    destruct Hsw as (Hwf' & Hocc' & Hlt & Hle). simpl in Hlt, Hle.
    destruct (modified s') eqn:Hm.
    + apply IH; [done..|]. specialize (Hlt eq_refl). lia.
    + destruct fuel as [|fuel]; [lia|]. by rewrite selfSubLoop_unmodified.
  - by apply selfSubSweep_in_time in Hsw.
Qed.

Lemma subsumePair_in_time idx1 idx2 a : subsumePair idx1 idx2 a ≠ OutOfFuel.
Proof.
  unfold subsumePair. destruct a as [pb tr].
  apply bind_in_time; [apply idx_in_time|intros p1 _].
  apply bind_in_time; [apply idx_in_time|intros p2 _].
  apply bind_in_time; [apply idx_in_time|intros c1 _].
  apply bind_in_time; [apply idx_in_time|intros c2 _].
  repeat case_decide; done.
Qed.

Lemma subsumeInner_in_time idx1 o a : subsumeInner idx1 o a ≠ OutOfFuel.
Proof.
  revert a. induction o as [|idx2 o IH]; intros a; simpl; [done|].
  apply bind_in_time; [apply subsumePair_in_time|intros; apply IH].
Qed.

Lemma subsumeOuter_in_time o1 o a : subsumeOuter o1 o a ≠ OutOfFuel.
Proof.
  revert a. induction o1 as [|idx1 o1 IH]; intros a; simpl; [done|].
  apply bind_in_time; [apply subsumeInner_in_time|intros; apply IH].
Qed.

Lemma subsumeVar_in_time occ i a : subsumeVar occ i a ≠ OutOfFuel.
Proof.
  unfold subsumeVar.
  apply bind_in_time; [apply idx_in_time|intros m _].
  case_decide; [done|].
  apply bind_in_time; [apply idx_in_time|intros o _].
  apply bind_in_time; [apply subsumeOuter_in_time|intros a1 _].
  apply bind_in_time; [apply idx_in_time|intros o' _].
  apply subsumeOuter_in_time.
Qed.

Lemma subsumeSweep_in_time occ n i a : subsumeSweep occ n i a ≠ OutOfFuel.
Proof.
  revert i a. induction n as [|n IH]; intros i a; simpl; [done|].
  apply bind_in_time; [apply subsumeVar_in_time|intros; apply IH].
Qed.

Lemma Subsumption_in_time pb : Subsumption pb ≠ OutOfFuel.
Proof.
  unfold Subsumption, subsumeMark.
  apply bind_in_time.
  - apply bind_in_time; [apply buildOccurs_in_time|intros occ _].
    apply subsumeSweep_in_time.
  - intros [pbM tr] _.
    apply bind_in_time; [apply buildOccurs_in_time|intros occ _].
    apply Simplify2_total.
Qed.

(** X26. [SelfSub] terminates, with clause operations whose resolvent
    is shorter than the clause it absorbs: every turn of the loop
    [for modified] that changes the database lowers its weight, the
    number of its clauses and literals, so [weight + 2] turns are
    enough, and [Preprocess] terminates with them. *)
Theorem SelfSub_terminates (fuel : nat) (pb : Problem) :
  weight pb + 2 ≤ fuel →
  SelfSub fuel pb ≠ OutOfFuel ∧ Preprocess fuel pb ≠ OutOfFuel.
Proof.
  intros Hf.
  assert (SelfSub fuel pb ≠ OutOfFuel) as HS.
  { unfold SelfSub.
    apply bind_in_time; [apply buildOccurs_in_time|intros occ Hocc].
    apply bind_in_time.
    - apply selfSubLoop_terminates; simpl;
        [by eapply buildOccurs_wf|by apply buildOccurs_Ok|done].
    - intros [s|pb'] _; [|done].
      destruct (neverModified s); [done|apply Simplify2_total]. }
  split; [done|]. unfold Preprocess.
  apply bind_in_time; [done|intros pbA _]. apply Subsumption_in_time.
Qed.

End Termination.

Lemma Negation_inj a b : Negation a = Negation b → a = b.
Proof.
  intros H. apply (f_equal Negation) in H. by rewrite !Negation_involutive in H.
Qed.

Lemma refSimplify_false c R :
  refSimplify c = (false, R) →
  R = remove_dups c ∧ ∀ l, l ∈ c → Negation l ∉ c.
Proof.
  unfold refSimplify. destruct (existsb _ c) eqn:He; [done|].
  intros H. split; [by simplify_eq|]. intros l Hl Hn.
  assert (existsb (λ l, existsb (Nat.eqb (Negation l)) c) c = true) as Ht.
  { apply existsb_exists. exists l. split; [by apply list_elem_of_In|].
    by apply existsb_eqb_elem_of. }
  congruence.
Qed.

Lemma refOps_shrink : ClauseOpsShrink refOps.
Proof.
  split. simpl. intros c other v R HS Hv HG.
  apply refSelfSubsumes_true in HS as (l & Hl & Hnl & Hall).
  apply refSimplify_false in HG as [-> Hnt].
  set (x := Var_Lit v) in *.
  assert (∃ q, q ∈ other ∧
            ∀ y, y ∈ refGenerate c other v → y ∈ other ∧ y ≠ q)
    as (q & Hq & HGq).
  { destruct (decide (x ∈ c)) as [Hpc|Hpc].
    - destruct Hv as [[_ Hno]|[Hnc Hpo]].
      + exists (Negation x). split; [done|]. intros y Hy.
        apply elem_of_refGenerate in Hy. fold x in Hy.
        rewrite decide_True in Hy by done.
        destruct Hy as [[Hyc Hyx]|[Hyo Hyn]]; [|done].
        destruct (decide (l = x)) as [->|Hlx].
        * destruct (Hall y Hyc) as [->|[Hne Hin]]; done.
        * exfalso. apply (Hnt l); apply elem_of_refGenerate; fold x;
            rewrite decide_True by done.
          -- by left.
          -- right. split; [done|]. intros Heq. by apply Negation_inj in Heq.
      + exfalso. apply (Hnt (Negation x)); apply elem_of_refGenerate; fold x;
          rewrite decide_True by done.
        * left. split; [done|]. apply Negation_neq.
        * right. rewrite Negation_involutive. split; [done|].
          intros Heq. symmetry in Heq. by apply Negation_neq in Heq.
    - destruct Hv as [[Hpc' _]|[Hnc Hpo]]; [done|].
      exists x. split; [done|]. intros y Hy.
      apply elem_of_refGenerate in Hy. fold x in Hy.
      rewrite decide_False in Hy by done.
      destruct Hy as [[Hyc Hyx]|[Hyo Hyn]]; [|done].
      destruct (decide (l = Negation x)) as [->|Hlx].
      + destruct (Hall y Hyc) as [->|[Hne Hin]]; [done|].
        split; [done|]. intros ->. done.
      + exfalso. apply (Hnt l); apply elem_of_refGenerate; fold x;
          rewrite decide_False by done.
        * by left.
        * right. split; [done|]. intros Heq. apply Hlx.
          by rewrite <- Heq, Negation_involutive. }
  assert (NoDup (q :: remove_dups (refGenerate c other v))) as Hnd.
  { apply NoDup_cons. split; [|apply NoDup_remove_dups].
    intros Hin. rewrite elem_of_remove_dups in Hin.
    by destruct (HGq q Hin) as [_ Hne]. }
  assert (q :: remove_dups (refGenerate c other v) ⊆+ other) as Hsub.
  { apply NoDup_submseteq; [done|]. intros y Hy.
    apply elem_of_cons in Hy as [->|Hy]; [done|].
    rewrite elem_of_remove_dups in Hy. by apply HGq. }
  apply submseteq_length in Hsub. simpl in Hsub. lia.
Qed.

Lemma SelfSub_terminates_witness :
  @SelfSub refOps 16 exChain ≠ OutOfFuel ∧
  @Preprocess refOps 16 exChain ≠ OutOfFuel.
Proof.
  apply (@SelfSub_terminates refOps refOps_shrink 16 exChain).
  vm_compute. lia.
Defined.

(** ** What [addUnit] does, and where it is called *)


